(** * VoxelVerse realtime relay: world store, rooms, dispatcher

    Shallow embedding of the repository's WebSocket server.  Modelled:
    - [server.js] (the server with the persisted, chunked world store):
      normalizeRoom, the room map, broadcastToRoom, the world store,
      serializeWorldState / hydrateWorldState, the message, connection
      and close handlers, and the persistence of the store on disk
      (module [Persist]);
    - the earlier relay of the same repository that has peers and
      PLAYER_STATE but no world store (module [Relay]); it shares the room
      functions and differs in its PLAYER_STATE defaults;
    - the first relay (JOIN, CHAT and BLOCK only; module [Basic]), with the
      same room functions.
    The listening port and the ping interval belong to the transport and
    are not modelled.

    Conventions of the model.
    - A JavaScript number is [NaN], an infinity, or a finite value; finite
      values are the integers [Z] (fractional doubles are not represented).
      The code only tests finiteness, compares with [0] and takes
      [Math.floor (x / 16)], all of which are exact on integers.
    - Template strings of finite numbers are decimal numerals ([pretty]), as
      in JavaScript for integers below [1e21].
    - A [Map] is a [gmap] and a [Set] is a [gset]: insertion order is not
      kept; the source relies on it only for the order of emitted lists.
    - A value read from JSON is a [value]; an object is the list of its own
      properties.  [Number(v)] and [String(v)] raise [TypeError] on an
      object that carries an own [toString]; the numeric value of a string
      is left to the runtime ([StringToNumber], a section variable).
    - Strings are byte strings; [trim] and [toUpperCase] act on ASCII.
    - [schedulePersist] does not touch the store: the store functions are
      modelled on the store alone, and the timer and the world file in the
      module [Persist], where the file system's answers are inputs.
    - An exception that nothing catches ends the process.  The message
      handlers guard [JSON.parse] alone, so a [TypeError] of a coercion is
      such an exception: [step] returns it in place of a state, and [run]
      and [trace] handle no event after it. *)

From stdpp Require Import base gmap sets list strings pretty.
From Stdlib Require Import ZArith Ascii.

Open Scope Z_scope.
Set Warnings "-register-all,-clear-no-such-hyp".

(** * Part I: the program *)

(** ** Chunked world store *)

Definition CHUNK_SIZE : Z := 16.

(** [{ x, y, z, id }] *)
Record Block := mkBlock { bx : Z; by_ : Z; bz : Z; bid : Z }.

Global Instance Block_eq_dec : EqDecision Block.
Proof. solve_decision. Defined.

(** [blockChunkKey(x, z)]: [Math.floor] of the quotient is [Z.div]. *)
Definition blockChunkKey (x z : Z) : string :=
  pretty (x `div` CHUNK_SIZE) +:+ "," +:+ pretty (z `div` CHUNK_SIZE).

(** [blockKey(x, y, z)] *)
Definition blockKey (x y z : Z) : string :=
  pretty x +:+ "," +:+ pretty y +:+ "," +:+ pretty z.

(** The key getChunkBlocks builds: [`${cx},${cz}`]. *)
Definition chunkKey (cx cz : Z) : string :=
  pretty cx +:+ "," +:+ pretty cz.

(** [roomChunks]: room -> chunkKey -> blockKey -> block *)
Abbreviation Chunks := (gmap string (gmap string Block)).

Abbreviation World := (gmap string (gmap string (gmap string Block))).

(** [ensureRoomChunks(room)]: the store after the call and the room's map. *)
Definition ensureRoomChunks (w : World) (room : string) : World * Chunks :=
  match w !! room with
  | Some chunks => (w, chunks)
  | None => (<[room := ∅]> w, ∅)
  end.

(** [setRoomBlock(room, x, y, z, id)].  The maps are mutable objects shared
    with the store in the source; here every update is written back.
    [schedulePersist()] only arms a timer and does not touch the store. *)
Definition setRoomBlock (w : World) (room : string) (x y z id : Z) : World :=
  let '(w, chunks) := ensureRoomChunks w room in
  let cKey := blockChunkKey x z in
  let chunks := match chunks !! cKey with
                | Some _ => chunks
                | None => <[cKey := ∅]> chunks
                end in
  let cMap := default ∅ (chunks !! cKey) in
  let bKey := blockKey x y z in
  if bool_decide (id ≤ 0) then
    let cMap := delete bKey cMap in
    let chunks := <[cKey := cMap]> chunks in
    let chunks := if bool_decide (size cMap = 0%nat)
                  then delete cKey chunks else chunks in
    let w := <[room := chunks]> w in
    if bool_decide (size chunks = 0%nat) then delete room w else w
  else
    let cMap := <[bKey := mkBlock x y z id]> cMap in
    <[room := <[cKey := cMap]> chunks]> w.

(** [getChunkBlocks(room, cx, cz)] *)
Definition getChunkBlocks (w : World) (room : string) (cx cz : Z) : list Block :=
  match w !! room with
  | None => []
  | Some chunks =>
      match chunks !! chunkKey cx cz with
      | None => []
      | Some cMap => (map_to_list cMap).*2
      end
  end.

(** ** JavaScript values and coercions *)

Inductive number := NaN | Infinity | NegInfinity | Finite (n : Z).

Global Instance number_eq_dec : EqDecision number.
Proof. solve_decision. Defined.

(** A value as [JSON.parse] builds it.  An object is the list of its own
    properties in enumeration order (integer-like keys, which JavaScript
    enumerates first, are kept where they are listed).  Keys are unique in
    an object: in a list that binds a key twice only the first binding is a
    property. *)
Inductive value :=
  | VUndefined
  | VNull
  | VBool (b : bool)
  | VNumber (n : number)
  | VString (s : string)
  | VArray (l : list value)
  | VObject (o : list (string * value)).

(** A coercion either returns or raises [TypeError]. *)
Inductive result (A : Type) := Ok (a : A) | TypeError.

Global Arguments Ok {A} a.

Global Arguments TypeError {A}.

Global Instance result_ret : MRet result := λ A a, Ok a.

Global Instance result_bind : MBind result := λ A B f m,
  match m with Ok a => f a | TypeError => TypeError end.

(** [Number.isFinite] *)
Definition isFinite (n : number) : bool :=
  match n with Finite _ => true | _ => false end.

(** Truthiness, as in [!v], [v || d]. *)
Definition truthy (v : value) : bool :=
  match v with
  | VUndefined | VNull => false
  | VBool b => b
  | VNumber NaN => false
  | VNumber (Finite n) => negb (bool_decide (n = 0))
  | VNumber _ => true
  | VString s => negb (bool_decide (s = EmptyString))
  | VArray _ | VObject _ => true
  end.

(** [typeof v === "object"] (true of [null] as well). *)
Definition typeof_object (v : value) : bool :=
  match v with VNull | VArray _ | VObject _ => true | _ => false end.

(** [typeof v === "string"] *)
Definition typeof_string (v : value) : bool :=
  match v with VString _ => true | _ => false end.

Fixpoint assoc (k : string) (o : list (string * value)) : option value :=
  match o with
  | [] => None
  | (k', v) :: o' => if decide (k = k') then Some v else assoc k o'
  end.

(** Property read [v.k] / [v?.k], for the names the source reads ([rooms],
    [type], [x], [id], ...): none of them is a property of arrays, of
    primitives or of [Object.prototype], so only own properties of objects
    are found. *)
Definition get (v : value) (k : string) : value :=
  match v with
  | VObject o => default VUndefined (assoc k o)
  | _ => VUndefined
  end.

(** Own properties without the shadowed bindings. *)
Fixpoint own_entries (o : list (string * value)) : list (string * value) :=
  match o with
  | [] => []
  | (k, v) :: o' => (k, v) :: filter (λ kv, kv.1 ≠ k) (own_entries o')
  end.

(** [Object.entries(v)] for a value with [typeof v === "object"]. *)
Definition Object_entries (v : value) : list (string * value) :=
  match v with
  | VObject o => own_entries o
  | VArray l => imap (λ i e, (pretty i, e)) l
  | _ => []
  end.

Definition number_to_string (n : number) : string :=
  match n with
  | NaN => "NaN"
  | Infinity => "Infinity"
  | NegInfinity => "-Infinity"
  | Finite z => pretty z
  end.

Fixpoint join (sep : string) (l : list string) : string :=
  match l with
  | [] => EmptyString
  | [s] => s
  | s :: l' => s +:+ sep +:+ join sep l'
  end.

(** [String(v)].  An object parsed from JSON has no callable own property:
    when it has an own [toString] the conversion to a primitive finds
    nothing to call and raises; otherwise [Object.prototype.toString]
    answers.  An array is joined with commas, [null] and [undefined]
    elements giving the empty string. *)
Fixpoint ToString (v : value) : result string :=
  match v with
  | VUndefined => Ok "undefined"
  | VNull => Ok "null"
  | VBool b => Ok (if b then "true" else "false")
  | VNumber n => Ok (number_to_string n)
  | VString s => Ok s
  | VArray l =>
      let fix elements (l : list value) : result (list string) :=
        match l with
        | [] => Ok []
        | e :: l' =>
            s ← match e with
                | VUndefined | VNull => Ok EmptyString
                | _ => ToString e
                end;
            ss ← elements l';
            Ok (s :: ss)
        end in
      ss ← elements l; Ok (join "," ss)
  | VObject o =>
      match assoc "toString" o with
      | Some _ => TypeError
      | None => Ok "[object Object]"
      end
  end.

Section Coercions.

(** The numeric value of a string literal ([StringToNumber] of the
    language definition) is left to the runtime. *)
Variable StringToNumber : string → number.

(** [Number(v)] *)
Definition ToNumber (v : value) : result number :=
  match v with
  | VUndefined => Ok NaN
  | VNull => Ok (Finite 0)
  | VBool b => Ok (Finite (if b then 1 else 0))
  | VNumber n => Ok n
  | VString s => Ok (StringToNumber s)
  | VArray _ => s ← ToString v; Ok (StringToNumber s)
  | VObject o =>
      match assoc "toString" o with
      | Some _ => TypeError
      | None => Ok NaN
      end
  end.

End Coercions.

(** ** String methods and normalizeRoom *)

Fixpoint trimStart (s : string) : string :=
  match s with
  | String c s' => if Ascii.is_space c then trimStart s' else s
  | EmptyString => EmptyString
  end.

Definition trim (s : string) : string :=
  String.rev (trimStart (String.rev (trimStart s))).

Definition upper_char (c : ascii) : ascii :=
  let n := nat_of_ascii c in
  if bool_decide (97 ≤ n ≤ 122)%nat then ascii_of_nat (n - 32) else c.

Fixpoint toUpperCase (s : string) : string :=
  match s with
  | String c s' => String (upper_char c) (toUpperCase s')
  | EmptyString => EmptyString
  end.

(** [s.slice(0, n)] *)
Fixpoint slice0 (n : N) (s : string) : string :=
  match s with
  | String c s' =>
      if bool_decide (n = 0%N) then EmptyString
      else String c (slice0 (N.pred n) s')
  | EmptyString => EmptyString
  end.

(** [a || b] on strings *)
Definition or_string (a b : string) : string :=
  if bool_decide (a = EmptyString) then b else a.

(** [normalizeRoom(room)] *)
Definition normalizeRoom (room : value) : result string :=
  s ← ToString (if truthy room then room else VString "GLOBAL");
  Ok (or_string (slice0 32 (toUpperCase (trim s))) "GLOBAL").

(** ** Persistence: serializeWorldState and hydrateWorldState *)

(** Assignment [o[k] = v] on an object created by a literal, for [v] an
    object or an array.  The name [__proto__] is the accessor inherited from
    [Object.prototype]: assigning to it replaces the prototype and creates
    no own property, so neither [Object.entries] nor [JSON.stringify] sees
    it.  Any other name becomes (or updates) an own property. *)
Definition set_prop (o : list (string * value)) (k : string) (v : value)
  : list (string * value) :=
  if decide (k = "__proto__") then o
  else match assoc k o with
       | Some _ => (λ kv, if decide (kv.1 = k) then (k, v) else kv) <$> o
       | None => o ++ [(k, v)]
       end.

Definition block_value (b : Block) : value :=
  VObject [("x", VNumber (Finite (bx b))); ("y", VNumber (Finite (by_ b)));
           ("z", VNumber (Finite (bz b))); ("id", VNumber (Finite (bid b)))].

(** [Array.from(blockMap.values())] *)
Definition block_values (blockMap : gmap string Block) : value :=
  VArray (block_value <$> (map_to_list blockMap).*2).

(** The inner loop of serializeWorldState: [roomData]. *)
Definition serialize_room (chunks : Chunks) : value :=
  VObject (foldl (λ roomData ckv, set_prop roomData ckv.1 (block_values ckv.2))
                 [] (map_to_list chunks)).

(** [serializeWorldState()] *)
Definition serializeWorldState (w : World) : value :=
  VObject [("rooms",
    VObject (foldl (λ rooms rkv, set_prop rooms rkv.1 (serialize_room rkv.2))
                   [] (map_to_list w)))].

Inductive completion := Normal | Raised.

(** A loop [for (const [k, v] of entries) { ... continue ... acc.set(k, a) }]:
    [body v] is [Ok None] when the iteration ends by [continue] or skips
    the [set], [Ok (Some a)] when it sets [a], and [TypeError] when it
    raises, which leaves the loop with what was set so far. *)
Fixpoint for_entries {A} (body : value → result (option A))
    (entries : list (string * value)) (acc : gmap string A)
  : gmap string A * completion :=
  match entries with
  | [] => (acc, Normal)
  | (k, v) :: rest =>
      match body v with
      | TypeError => (acc, Raised)
      | Ok None => for_entries body rest acc
      | Ok (Some a) => for_entries body rest (<[k := a]> acc)
      end
  end.

Section Hydrate.

Variable StringToNumber : string → number.

Local Abbreviation Number := (ToNumber StringToNumber).

(** One iteration of [for (const b of blocks)]: the block to set, if any. *)
Definition hydrate_block (b : value) : result (option Block) :=
  x ← Number (get b "x");
  y ← Number (get b "y");
  z ← Number (get b "z");
  id ← Number (get b "id");
  match x, y, z, id with
  | Finite x, Finite y, Finite z, Finite id =>
      if bool_decide (id ≤ 0) then Ok None else Ok (Some (mkBlock x y z id))
  | _, _, _, _ => Ok None
  end.

Fixpoint hydrate_blocks (blocks : list value) (blockMap : gmap string Block)
  : result (gmap string Block) :=
  match blocks with
  | [] => Ok blockMap
  | b :: rest =>
      ob ← hydrate_block b;
      match ob with
      | None => hydrate_blocks rest blockMap
      | Some blk =>
          hydrate_blocks rest
            (<[blockKey (bx blk) (by_ blk) (bz blk) := blk]> blockMap)
      end
  end.

(** Body of the loop over the chunks of a room. *)
Definition hydrate_chunk (blocks : value) : result (option (gmap string Block)) :=
  match blocks with
  | VArray l =>
      blockMap ← hydrate_blocks l ∅;
      Ok (if bool_decide (0 < size blockMap)%nat then Some blockMap else None)
  | _ => Ok None
  end.

(** Body of the loop over the rooms. *)
Definition hydrate_room (roomData : value) : result (option Chunks) :=
  if negb (truthy roomData) || negb (typeof_object roomData) then Ok None
  else
    match for_entries hydrate_chunk (Object_entries roomData) ∅ with
    | (chunks, Normal) =>
        Ok (if bool_decide (0 < size chunks)%nat then Some chunks else None)
    | (_, Raised) => TypeError
    end.

(** [hydrateWorldState(raw)]: the store after the call, and whether the call
    returned or raised. *)
Definition hydrateWorldState (w : World) (raw : value) : World * completion :=
  let w : World := ∅ in
  if negb (truthy raw) || negb (typeof_object raw)
     || negb (truthy (get raw "rooms")) || negb (typeof_object (get raw "rooms"))
  then (w, Normal)
  else for_entries hydrate_room (Object_entries (get raw "rooms")) w.

End Hydrate.

(** ** Peers, rooms and broadcast *)

(** A socket object, by identity. *)
Abbreviation socket := nat.

(** [peer.state] *)
Record PlayerState := mkState {
  st_x : Z; st_y : Z; st_z : Z; st_yaw : Z; st_pitch : Z;
  st_moving : bool; st_crouching : bool;
  st_punchAnim : Z; st_placeAnim : Z; st_heldBlock : Z }.

(** [{ id, name, skin, room, state }] *)
Record Peer := mkPeer {
  p_id : string; p_name : string; p_skin : string; p_room : string;
  p_state : PlayerState }.

(** An entry of a ROOM_SNAPSHOT. *)
Record PeerSummary := mkSummary {
  s_id : string; s_name : string; s_skin : string; s_state : PlayerState }.

(** Outbound messages. *)
Inductive payload :=
  | SYSTEM (text : string)
  | SELF (id : string)
  | ROOM_SNAPSHOT (summaries : list PeerSummary)
  | PLAYER_JOIN (id name skin : string)
  | PLAYER_LEAVE (id : string)
  | CHAT (name text : string)
  | BLOCK (x y z id : Z)
  | CHUNK_DATA (cx cz : Z) (blocks : list Block)
  | PLAYER_STATE (id name skin : string) (state : PlayerState).

(** What a handler asks of the transport: [ws.send(...)] on one socket, or
    a call of broadcastToRoom. *)
Inductive action :=
  | Send (ws : socket) (p : payload)
  | Broadcast (room : string) (p : payload) (except : option socket).

(** The process state.  [readyState] belongs to the transport: 1 is OPEN,
    2 CLOSING, 3 CLOSED. *)
Record Server := mkServer {
  peers : gmap socket Peer;
  rooms : gmap string (gset socket);
  nextPeerId : Z;
  roomChunks : World;
  readyState : socket → Z }.

(** [addToRoom(ws, room)] *)
Definition addToRoom (rooms : gmap string (gset socket)) (ws : socket)
    (room : string) : gmap string (gset socket) :=
  let rooms := match rooms !! room with
               | Some _ => rooms
               | None => <[room := ∅]> rooms
               end in
  <[room := {[ws]} ∪ default ∅ (rooms !! room)]> rooms.

(** [removeFromRoom(ws, room)] *)
Definition removeFromRoom (rooms : gmap string (gset socket)) (ws : socket)
    (room : string) : gmap string (gset socket) :=
  match rooms !! room with
  | None => rooms
  | Some set =>
      let set := set ∖ {[ws]} in
      let rooms := <[room := set]> rooms in
      if bool_decide (size set = 0%nat) then delete room rooms else rooms
  end.

(** [broadcastToRoom(room, payload, except)]: the sends it performs.  The
    members are visited in the order of [elements]. *)
Definition broadcastToRoom (rooms : gmap string (gset socket))
    (readyState : socket → Z) (room : string) (p : payload)
    (except : option socket) : list (socket * payload) :=
  match rooms !! room with
  | None => []
  | Some set =>
      (λ client, (client, p)) <$>
        filter (λ client, Some client ≠ except ∧ readyState client = 1)
               (elements set)
  end.

(** The sends an action performs. *)
Definition perform (st : Server) (a : action) : list (socket * payload) :=
  match a with
  | Send ws p => [(ws, p)]
  | Broadcast room p except =>
      broadcastToRoom (rooms st) (readyState st) room p except
  end.

(** [Number.isFinite(n) ? n : d] *)
Definition finite_or (n : number) (d : Z) : Z :=
  match n with Finite z => z | _ => d end.

(** [Number(a) || d] on a stored, finite number *)
Definition number_or (a d : Z) : Z := if bool_decide (a = 0) then d else a.

(** [msg.type === t] *)
Definition type_is (msg : value) (t : string) : bool :=
  match get msg "type" with
  | VString s => bool_decide (s = t)
  | _ => false
  end.

(** [typeof v === "string" ? v.slice(0, n) : d] *)
Definition string_or (v : value) (n : N) (d : string) : string :=
  match v with VString s => slice0 n s | _ => d end.

Definition initial_state (heldBlock : Z) : PlayerState :=
  mkState 0 80 0 0 0 false false 0 0 heldBlock.

Definition set_peers (st : Server) (ps : gmap socket Peer) : Server :=
  mkServer ps (rooms st) (nextPeerId st) (roomChunks st) (readyState st).

Definition set_roomChunks (st : Server) (w : World) : Server :=
  mkServer (peers st) (rooms st) (nextPeerId st) w (readyState st).

Definition set_readyState (st : Server) (ws : socket) (n : Z) : Server :=
  mkServer (peers st) (rooms st) (nextPeerId st) (roomChunks st)
           (λ client, if decide (client = ws) then n else readyState st client).

(** ** The dispatcher of server.js *)

Section Dispatcher.

Variable StringToNumber : string → number.

Local Abbreviation Number := (ToNumber StringToNumber).

(** [wss.on("connection", ...)] *)
Definition on_connection (st : Server) (ws : socket) : Server :=
  let peer := mkPeer ("p" +:+ pretty (nextPeerId st)) "Player" EmptyString
                     "GLOBAL" (initial_state 2) in
  mkServer (<[ws := peer]> (peers st)) (addToRoom (rooms st) ws "GLOBAL")
           (nextPeerId st + 1) (roomChunks st) (readyState st).

(** The snapshot loop of the JOIN handler. *)
Definition snapshot (ps : gmap socket Peer) (roomPeers : option (gset socket))
    (ws : socket) : list PeerSummary :=
  match roomPeers with
  | None => []
  | Some set =>
      omap (λ client,
              if decide (client = ws) then None
              else
                roomPeer ← ps !! client;
                let s := p_state roomPeer in
                Some (mkSummary (p_id roomPeer) (p_name roomPeer) (p_skin roomPeer)
                        (mkState (st_x s) (st_y s) (st_z s) (st_yaw s) (st_pitch s)
                           (st_moving s) (st_crouching s)
                           (number_or (st_punchAnim s) 0)
                           (number_or (st_placeAnim s) 0)
                           (number_or (st_heldBlock s) 2))))
           (elements set)
  end.

Definition on_JOIN (st : Server) (ws : socket) (peer : Peer) (msg : value)
  : result (Server * list action) :=
  let oldRoom := p_room peer in
  room ← normalizeRoom (get msg "room");
  let name := string_or (get msg "name") 24 "Player" in
  let skin := string_or (get msg "skin") 200000 EmptyString in
  let peer := mkPeer (p_id peer) name skin room (p_state peer) in
  let ps := <[ws := peer]> (peers st) in
  let rs := if bool_decide (oldRoom ≠ room)
            then addToRoom (removeFromRoom (rooms st) ws oldRoom) ws room
            else rooms st in
  let roomPeers := rs !! room in
  Ok (mkServer ps rs (nextPeerId st) (roomChunks st) (readyState st),
      [Send ws (SYSTEM ("Joined room " +:+ room));
       Send ws (ROOM_SNAPSHOT (snapshot ps roomPeers ws));
       Send ws (SELF (p_id peer));
       Broadcast room (PLAYER_JOIN (p_id peer) name skin) (Some ws);
       Broadcast room (SYSTEM (name +:+ " joined.")) (Some ws)]).

Definition on_CHAT (st : Server) (ws : socket) (peer : Peer) (msg : value)
  : result (Server * list action) :=
  let text := get msg "text" in
  s ← ToString (if truthy text then text else VString EmptyString);
  Ok (st, [Broadcast (p_room peer) (CHAT (p_name peer) (slice0 280 s)) None]).

Definition on_BLOCK (st : Server) (ws : socket) (peer : Peer) (msg : value)
  : result (Server * list action) :=
  x ← Number (get msg "x");
  y ← Number (get msg "y");
  z ← Number (get msg "z");
  id ← Number (get msg "id");
  match x, y, z, id with
  | Finite x, Finite y, Finite z, Finite id =>
      Ok (set_roomChunks st (setRoomBlock (roomChunks st) (p_room peer) x y z id),
          [Broadcast (p_room peer) (BLOCK x y z id) (Some ws)])
  | _, _, _, _ => Ok (st, [])
  end.

Definition on_CHUNK_REQUEST (st : Server) (ws : socket) (peer : Peer)
    (msg : value) : result (Server * list action) :=
  cx ← Number (get msg "cx");
  cz ← Number (get msg "cz");
  match cx, cz with
  | Finite cx, Finite cz =>
      let blocks := getChunkBlocks (roomChunks st) (p_room peer) cx cz in
      Ok (st, [Send ws (CHUNK_DATA cx cz blocks)])
  | _, _ => Ok (st, [])
  end.

Definition on_PLAYER_STATE (st : Server) (ws : socket) (peer : Peer)
    (msg : value) : result (Server * list action) :=
  x ← Number (get msg "x");
  y ← Number (get msg "y");
  z ← Number (get msg "z");
  yaw ← Number (get msg "yaw");
  pitch ← Number (get msg "pitch");
  let moving := truthy (get msg "moving") in
  let crouching := truthy (get msg "crouching") in
  punchAnim ← Number (get msg "punchAnim");
  placeAnim ← Number (get msg "placeAnim");
  heldBlock ← Number (get msg "heldBlock");
  match x, y, z, yaw, pitch with
  | Finite x, Finite y, Finite z, Finite yaw, Finite pitch =>
      let state := mkState x y z yaw pitch moving crouching
                     (finite_or punchAnim 0) (finite_or placeAnim 0)
                     (finite_or heldBlock 2) in
      let peer := mkPeer (p_id peer) (p_name peer) (p_skin peer) (p_room peer)
                         state in
      Ok (set_peers st (<[ws := peer]> (peers st)),
          [Broadcast (p_room peer)
             (PLAYER_STATE (p_id peer) (p_name peer) (p_skin peer) state)
             (Some ws)])
  | _, _, _, _, _ => Ok (st, [])
  end.

(** [ws.on("message", ...)] after [JSON.parse] returned [msg]. *)
Definition on_message (st : Server) (ws : socket) (msg : value)
  : result (Server * list action) :=
  match peers st !! ws with
  | None => Ok (st, [])
  | Some peer =>
      if negb (truthy msg) || negb (typeof_object msg) then Ok (st, [])
      else if type_is msg "JOIN" then on_JOIN st ws peer msg
      else if type_is msg "CHAT" then on_CHAT st ws peer msg
      else if type_is msg "BLOCK" then on_BLOCK st ws peer msg
      else if type_is msg "CHUNK_REQUEST" then on_CHUNK_REQUEST st ws peer msg
      else if type_is msg "PLAYER_STATE" then on_PLAYER_STATE st ws peer msg
      else Ok (st, [])
  end.

(** [ws.on("close", ...)] *)
Definition on_close (st : Server) (ws : socket) : Server * list action :=
  match peers st !! ws with
  | None => (st, [])
  | Some peer =>
      let rs := removeFromRoom (rooms st) ws (p_room peer) in
      (mkServer (delete ws (peers st)) rs (nextPeerId st) (roomChunks st)
                (readyState st),
       [Broadcast (p_room peer) (PLAYER_LEAVE (p_id peer)) (Some ws);
        Broadcast (p_room peer) (SYSTEM (p_name peer +:+ " left.")) (Some ws)])
  end.

(** What reaches the process. *)
Inductive event :=
  | Connection (ws : socket)
  | Message (ws : socket) (data : option value)
  | Closing (ws : socket)
  | Close (ws : socket).

(** One event: the state after it and the sends it caused, or the
    exception that escapes the handler.  Every handler sends after its last
    change of the rooms, so the actions are performed on the state the
    handler leaves.
    - [Connection]: the transport hands each socket object to the handler
      once, in state OPEN; an event for a socket already registered is
      ignored.
    - [Message ws None]: [JSON.parse] raised and the handler returned.
    - [Message ws (Some msg)]: the [try] of the handler covers [JSON.parse]
      alone, so a [TypeError] that a coercion raises escapes the handler.
      Nothing catches it: it ends the process.  Every coercion of a handler
      comes before its first change of state and before its first send.
    - [Closing]: the transport starts closing the connection; no handler
      runs.
    - [Close]: the connection is closed and the close handler runs. *)
Definition step (st : Server) (ev : event)
  : result (Server * list (socket * payload)) :=
  match ev with
  | Connection ws =>
      match peers st !! ws with
      | Some _ => Ok (st, [])
      | None => Ok (on_connection (set_readyState st ws 1) ws, [])
      end
  | Message ws None => Ok (st, [])
  | Message ws (Some msg) =>
      match on_message st ws msg with
      | Ok (st', acts) => Ok (st', acts ≫= perform st')
      | TypeError => TypeError
      end
  | Closing ws => Ok (set_readyState st ws 2, [])
  | Close ws =>
      let '(st', acts) := on_close (set_readyState st ws 3) ws in
      Ok (st', acts ≫= perform st')
  end.

Definition init (w : World) : Server := mkServer ∅ ∅ 1 w (λ _, 0).

(** The process handles the events in order for as long as it lives: the
    first event whose handler raises ends it, and no later event is
    handled.  [run_from st evs] is the state of the last moment of the
    process within [evs]: the state after all of [evs], or the one in
    which the raising event found it. *)
Fixpoint run_from (st : Server) (evs : list event) : Server :=
  match evs with
  | [] => st
  | ev :: evs' =>
      match step st ev with
      | Ok (st', _) => run_from st' evs'
      | TypeError => st
      end
  end.

Definition run (w : World) (evs : list event) : Server :=
  run_from (init w) evs.

(** Whether the process is still running after the events. *)
Fixpoint alive (st : Server) (evs : list event) : bool :=
  match evs with
  | [] => true
  | ev :: evs' =>
      match step st ev with
      | Ok (st', _) => alive st' evs'
      | TypeError => false
      end
  end.

(** The sends of each event of a run that the process handled, in order. *)
Fixpoint trace (st : Server) (evs : list event)
  : list (list (socket * payload)) :=
  match evs with
  | [] => []
  | ev :: evs' =>
      match step st ev with
      | Ok (st', out) => out :: trace st' evs'
      | TypeError => []
      end
  end.

End Dispatcher.

(** ** The relay without a world store (the repository's earlier server)

    Same peers, rooms and broadcast; no world store, no CHUNK_REQUEST.  It
    differs from server.js in the defaults of [heldBlock] (0), in clamping
    the animation fields to [0, 1], and in copying the stored state to the
    snapshot as it is. *)

Module Relay.

Section Dispatcher.

Variable StringToNumber : string → number.

Local Abbreviation Number := (ToNumber StringToNumber).

Definition on_connection (st : Server) (ws : socket) : Server :=
  let peer := mkPeer ("p" +:+ pretty (nextPeerId st)) "Player" EmptyString
                     "GLOBAL" (initial_state 0) in
  mkServer (<[ws := peer]> (peers st)) (addToRoom (rooms st) ws "GLOBAL")
           (nextPeerId st + 1) (roomChunks st) (readyState st).

Definition snapshot (ps : gmap socket Peer) (roomPeers : option (gset socket))
    (ws : socket) : list PeerSummary :=
  match roomPeers with
  | None => []
  | Some set =>
      omap (λ client,
              if decide (client = ws) then None
              else
                roomPeer ← ps !! client;
                Some (mkSummary (p_id roomPeer) (p_name roomPeer)
                                (p_skin roomPeer) (p_state roomPeer)))
           (elements set)
  end.

Definition on_JOIN (st : Server) (ws : socket) (peer : Peer) (msg : value)
  : result (Server * list action) :=
  let oldRoom := p_room peer in
  room ← normalizeRoom (get msg "room");
  let name := string_or (get msg "name") 24 "Player" in
  let skin := string_or (get msg "skin") 200000 EmptyString in
  let peer := mkPeer (p_id peer) name skin room (p_state peer) in
  let ps := <[ws := peer]> (peers st) in
  let rs := if bool_decide (oldRoom ≠ room)
            then addToRoom (removeFromRoom (rooms st) ws oldRoom) ws room
            else rooms st in
  let roomPeers := rs !! room in
  Ok (mkServer ps rs (nextPeerId st) (roomChunks st) (readyState st),
      [Send ws (SYSTEM ("Joined room " +:+ room));
       Send ws (ROOM_SNAPSHOT (snapshot ps roomPeers ws));
       Send ws (SELF (p_id peer));
       Broadcast room (PLAYER_JOIN (p_id peer) name skin) (Some ws);
       Broadcast room (SYSTEM (name +:+ " joined.")) (Some ws)]).

Definition on_BLOCK (st : Server) (ws : socket) (peer : Peer) (msg : value)
  : result (Server * list action) :=
  x ← Number (get msg "x");
  y ← Number (get msg "y");
  z ← Number (get msg "z");
  id ← Number (get msg "id");
  match x, y, z, id with
  | Finite x, Finite y, Finite z, Finite id =>
      Ok (st, [Broadcast (p_room peer) (BLOCK x y z id) (Some ws)])
  | _, _, _, _ => Ok (st, [])
  end.

(** [Number.isFinite(n) ? Math.max(0, Math.min(1, n)) : 0] *)
Definition clamp01 (n : number) : Z :=
  match n with Finite z => Z.max 0 (Z.min 1 z) | _ => 0 end.

Definition on_PLAYER_STATE (st : Server) (ws : socket) (peer : Peer)
    (msg : value) : result (Server * list action) :=
  x ← Number (get msg "x");
  y ← Number (get msg "y");
  z ← Number (get msg "z");
  yaw ← Number (get msg "yaw");
  pitch ← Number (get msg "pitch");
  punchAnim ← Number (get msg "punchAnim");
  placeAnim ← Number (get msg "placeAnim");
  heldBlock ← Number (get msg "heldBlock");
  match x, y, z, yaw, pitch with
  | Finite x, Finite y, Finite z, Finite yaw, Finite pitch =>
      let state := mkState x y z yaw pitch
                     (truthy (get msg "moving")) (truthy (get msg "crouching"))
                     (clamp01 punchAnim) (clamp01 placeAnim)
                     (finite_or heldBlock 0) in
      let peer := mkPeer (p_id peer) (p_name peer) (p_skin peer) (p_room peer)
                         state in
      Ok (set_peers st (<[ws := peer]> (peers st)),
          [Broadcast (p_room peer)
             (PLAYER_STATE (p_id peer) (p_name peer) (p_skin peer) state)
             (Some ws)])
  | _, _, _, _, _ => Ok (st, [])
  end.

(** The message handler; its CHAT branch is that of server.js. *)
Definition on_message (st : Server) (ws : socket) (msg : value)
  : result (Server * list action) :=
  match peers st !! ws with
  | None => Ok (st, [])
  | Some peer =>
      if negb (truthy msg) || negb (typeof_object msg) then Ok (st, [])
      else if type_is msg "JOIN" then on_JOIN st ws peer msg
      else if type_is msg "CHAT" then on_CHAT st ws peer msg
      else if type_is msg "BLOCK" then on_BLOCK st ws peer msg
      else if type_is msg "PLAYER_STATE" then on_PLAYER_STATE st ws peer msg
      else Ok (st, [])
  end.

(** One event of the relay, with the same reading of the transport as for
    server.js: here too the [try] covers [JSON.parse] alone, and a
    [TypeError] of a coercion ends the process.  The relay's close handler
    has the text of the one of server.js. *)
Definition step (st : Server) (ev : event)
  : result (Server * list (socket * payload)) :=
  match ev with
  | Connection ws =>
      match peers st !! ws with
      | Some _ => Ok (st, [])
      | None => Ok (on_connection (set_readyState st ws 1) ws, [])
      end
  | Message ws None => Ok (st, [])
  | Message ws (Some msg) =>
      match on_message st ws msg with
      | Ok (st', acts) => Ok (st', acts ≫= perform st')
      | TypeError => TypeError
      end
  | Closing ws => Ok (set_readyState st ws 2, [])
  | Close ws =>
      let '(st', acts) := on_close (set_readyState st ws 3) ws in
      Ok (st', acts ≫= perform st')
  end.

Fixpoint run_from (st : Server) (evs : list event) : Server :=
  match evs with
  | [] => st
  | ev :: evs' =>
      match step st ev with
      | Ok (st', _) => run_from st' evs'
      | TypeError => st
      end
  end.

Definition run (evs : list event) : Server := run_from (init ∅) evs.

End Dispatcher.

End Relay.

(** ** Persistence on disk

    [schedulePersist], the timer callback, [loadPersistedWorld], the save of
    [wss.on("close")] and the one of SIGINT, over the world store alone.
    - The text of the world file is identified with the document it
      denotes: [JSON.parse] of what [JSON.stringify] wrote for a document of
      serializeWorldState is that document.
    - A timeout handle is a number; the runtime keeps the set of the armed
      ones and runs the callback of an armed timeout at some later point
      (the delay of 250 ms is not part of the model).
    - A file-system call may raise; the [try] around the write catches it.
      What the file holds after a failed write is not known to the
      program: it is part of the outcome. *)

Module Persist.

(** What [WORLD_FILE] holds: no file, something that cannot be read or that
    [JSON.parse] rejects, or a JSON document. *)
Inductive file := Missing | Unreadable | Holds (doc : value).

(** The outcome of [mkdirSync] and [writeFileSync] inside a [try]. *)
Inductive outcome := Written | Raises (leaving : file).

Inductive console_line :=
  | console_log (text : string)
  | console_error (text : string).

Record Process := mkProcess {
  roomChunks : World;
  persistTimer : option nat;
  timers : gset nat;
  nextTimer : nat;
  WORLD_FILE : file;
  console : list console_line }.

(** [clearTimeout(persistTimer)] under [if (persistTimer)] *)
Definition clearPersistTimer (p : Process) : gset nat :=
  match persistTimer p with
  | Some t => timers p ∖ {[t]}
  | None => timers p
  end.

(** [schedulePersist()]: the timer it arms is a fresh one. *)
Definition schedulePersist (p : Process) : Process :=
  let t := nextTimer p in
  mkProcess (roomChunks p) (Some t) (clearPersistTimer p ∪ {[t]}) (S t)
            (WORLD_FILE p) (console p).

(** [try { ...; fs.writeFileSync(WORLD_FILE, JSON.stringify(serializeWorldState())) }
    catch (err) { console.error(failure, err) }]; SIGINT's [catch] is empty. *)
Definition save (p : Process) (o : outcome) (failure : option string) : Process :=
  match o with
  | Written =>
      mkProcess (roomChunks p) (persistTimer p) (timers p) (nextTimer p)
                (Holds (serializeWorldState (roomChunks p))) (console p)
  | Raises leaving =>
      mkProcess (roomChunks p) (persistTimer p) (timers p) (nextTimer p) leaving
                (console p ++ match failure with
                              | Some text => [console_error text]
                              | None => []
                              end)
  end.

(** The callback that schedulePersist hands to [setTimeout]. *)
Definition persist (p : Process) (o : outcome) : Process :=
  save (mkProcess (roomChunks p) None (timers p) (nextTimer p)
                  (WORLD_FILE p) (console p))
       o (Some "[VoxelVerse WS] failed to persist world state").

(** [setRoomBlock(room, x, y, z, id)] with its call of schedulePersist: the
    store changes as [setRoomBlock] of the world store says, then the timer
    is armed (on the removal path and on the insertion path alike). *)
Definition setRoomBlock (p : Process) (room : string) (x y z id : Z) : Process :=
  schedulePersist
    (mkProcess (setRoomBlock (roomChunks p) room x y z id)
               (persistTimer p) (timers p) (nextTimer p) (WORLD_FILE p)
               (console p)).

(** [wss.on("close", ...)]: the pending timer is cleared and the world is
    saved at once. *)
Definition on_close (p : Process) (o : outcome) : Process :=
  save (mkProcess (roomChunks p) None (clearPersistTimer p) (nextTimer p)
                  (WORLD_FILE p) (console p))
       o (Some "[VoxelVerse WS] failed final world save").

(** [process.on("SIGINT", ...)], up to [process.exit(0)]. *)
Definition on_SIGINT (p : Process) (o : outcome) : Process :=
  save p o None.

Section Load.

Variable StringToNumber : string → number.

(** [loadPersistedWorld()]: an absent file is left alone; a failure of the
    read, of [JSON.parse] or of hydrateWorldState is caught and reported,
    with the store as the failure left it. *)
Definition loadPersistedWorld (p : Process) : Process :=
  match WORLD_FILE p with
  | Missing => p
  | Unreadable =>
      mkProcess (roomChunks p) (persistTimer p) (timers p) (nextTimer p)
                (WORLD_FILE p)
                (console p ++
                 [console_error "[VoxelVerse WS] failed to load persisted world state"])
  | Holds raw =>
      match hydrateWorldState StringToNumber (roomChunks p) raw with
      | (w, Normal) =>
          mkProcess w (persistTimer p) (timers p) (nextTimer p) (WORLD_FILE p)
                    (console p ++
                     [console_log "[VoxelVerse WS] loaded persisted world state"])
      | (w, Raised) =>
          mkProcess w (persistTimer p) (timers p) (nextTimer p) (WORLD_FILE p)
                    (console p ++
                     [console_error "[VoxelVerse WS] failed to load persisted world state"])
      end
  end.

(** What happens to the store and the file while the process runs. *)
Inductive event :=
  | SetBlock (room : string) (x y z id : Z)
  | Timeout (t : nat) (o : outcome)
  | ServerClose (o : outcome)
  | Interrupt (o : outcome).

(** [Timeout t o]: the runtime runs the callback of timer [t], which it
    does only for an armed timer, disarming it. *)
Definition step (p : Process) (ev : event) : Process :=
  match ev with
  | SetBlock room x y z id => setRoomBlock p room x y z id
  | Timeout t o =>
      if decide (t ∈ timers p) then
        persist (mkProcess (roomChunks p) (persistTimer p) (timers p ∖ {[t]})
                           (nextTimer p) (WORLD_FILE p) (console p)) o
      else p
  | ServerClose o => on_close p o
  | Interrupt o => on_SIGINT p o
  end.

(** The module's top level: empty store, no timer, then
    [loadPersistedWorld()]. *)
Definition boot (f : file) : Process :=
  loadPersistedWorld (mkProcess ∅ None ∅ 0 f []).

Definition run (f : file) (evs : list event) : Process :=
  foldl step (boot f) evs.

End Load.

End Persist.

(** ** The first relay (JOIN, CHAT and BLOCK only)

    The repository's first server: peers have a name and a room, and
    nothing else; a JOIN is answered with a SYSTEM line and announced with
    one; a BLOCK is relayed and not stored.  normalizeRoom, addToRoom,
    removeFromRoom and broadcastToRoom have the text of those above. *)

Module Basic.

(** [{ name, room }] *)
Record Peer := mkPeer { p_name : string; p_room : string }.

Record Server := mkServer {
  peers : gmap socket Peer;
  rooms : gmap string (gset socket);
  readyState : socket → Z }.

Definition perform (st : Server) (a : action) : list (socket * payload) :=
  match a with
  | Send ws p => [(ws, p)]
  | Broadcast room p except =>
      broadcastToRoom (rooms st) (readyState st) room p except
  end.

Definition set_readyState (st : Server) (ws : socket) (n : Z) : Server :=
  mkServer (peers st) (rooms st)
           (λ client, if decide (client = ws) then n else readyState st client).

Section Dispatcher.

Variable StringToNumber : string → number.

Local Abbreviation Number := (ToNumber StringToNumber).

Definition on_connection (st : Server) (ws : socket) : Server :=
  mkServer (<[ws := mkPeer "Player" "GLOBAL"]> (peers st))
           (addToRoom (rooms st) ws "GLOBAL") (readyState st).

Definition on_JOIN (st : Server) (ws : socket) (peer : Peer) (msg : value)
  : result (Server * list action) :=
  let oldRoom := p_room peer in
  room ← normalizeRoom (get msg "room");
  let name := string_or (get msg "name") 24 "Player" in
  let rs := if bool_decide (oldRoom ≠ room)
            then addToRoom (removeFromRoom (rooms st) ws oldRoom) ws room
            else rooms st in
  Ok (mkServer (<[ws := mkPeer name room]> (peers st)) rs (readyState st),
      [Send ws (SYSTEM ("Joined room " +:+ room));
       Broadcast room (SYSTEM (name +:+ " joined.")) (Some ws)]).

Definition on_CHAT (st : Server) (ws : socket) (peer : Peer) (msg : value)
  : result (Server * list action) :=
  let text := get msg "text" in
  s ← ToString (if truthy text then text else VString EmptyString);
  Ok (st, [Broadcast (p_room peer) (CHAT (p_name peer) (slice0 280 s)) None]).

Definition on_BLOCK (st : Server) (ws : socket) (peer : Peer) (msg : value)
  : result (Server * list action) :=
  x ← Number (get msg "x");
  y ← Number (get msg "y");
  z ← Number (get msg "z");
  id ← Number (get msg "id");
  match x, y, z, id with
  | Finite x, Finite y, Finite z, Finite id =>
      Ok (st, [Broadcast (p_room peer) (BLOCK x y z id) (Some ws)])
  | _, _, _, _ => Ok (st, [])
  end.

Definition on_message (st : Server) (ws : socket) (msg : value)
  : result (Server * list action) :=
  match peers st !! ws with
  | None => Ok (st, [])
  | Some peer =>
      if negb (truthy msg) || negb (typeof_object msg) then Ok (st, [])
      else if type_is msg "JOIN" then on_JOIN st ws peer msg
      else if type_is msg "CHAT" then on_CHAT st ws peer msg
      else if type_is msg "BLOCK" then on_BLOCK st ws peer msg
      else Ok (st, [])
  end.

Definition on_close (st : Server) (ws : socket) : Server * list action :=
  match peers st !! ws with
  | None => (st, [])
  | Some peer =>
      let rs := removeFromRoom (rooms st) ws (p_room peer) in
      (mkServer (delete ws (peers st)) rs (readyState st),
       [Broadcast (p_room peer) (SYSTEM (p_name peer +:+ " left.")) (Some ws)])
  end.

(** One event, with the reading of the transport used for server.js; a
    [TypeError] of a coercion escapes the handler and ends the process. *)
Definition step (st : Server) (ev : event)
  : result (Server * list (socket * payload)) :=
  match ev with
  | Connection ws =>
      match peers st !! ws with
      | Some _ => Ok (st, [])
      | None => Ok (on_connection (set_readyState st ws 1) ws, [])
      end
  | Message ws None => Ok (st, [])
  | Message ws (Some msg) =>
      match on_message st ws msg with
      | Ok (st', acts) => Ok (st', acts ≫= perform st')
      | TypeError => TypeError
      end
  | Closing ws => Ok (set_readyState st ws 2, [])
  | Close ws =>
      let '(st', acts) := on_close (set_readyState st ws 3) ws in
      Ok (st', acts ≫= perform st')
  end.

Definition init : Server := mkServer ∅ ∅ (λ _, 0).

Fixpoint run_from (st : Server) (evs : list event) : Server :=
  match evs with
  | [] => st
  | ev :: evs' =>
      match step st ev with
      | Ok (st', _) => run_from st' evs'
      | TypeError => st
      end
  end.

Definition run (evs : list event) : Server := run_from init evs.

End Dispatcher.

End Basic.

(** * Part II: vocabulary of the statements *)

(** ** Text without commas *)

Fixpoint comma_free (s : string) : Prop :=
  match s with
  | EmptyString => True
  | String c s' => c ≠ ","%char ∧ comma_free s'
  end.

(** ** Reading the store *)

(** The record found under room [r], chunk key [c], block key [k]. *)
Definition cell (w : World) (r c k : string) : option Block :=
  match w !! r with
  | Some chunks =>
      match chunks !! c with
      | Some cMap => cMap !! k
      | None => None
      end
  | None => None
  end.

(** The record stored for coordinate [(x, y, z)] of room [r]. *)
Definition block_at (w : World) (r : string) (x y z : Z) : option Block :=
  cell w r (blockChunkKey x z) (blockKey x y z).

(** ** Store invariants *)

(** Every record has a positive id and sits under the key of its own
    coordinates. *)
Definition blockmap_ok (cMap : gmap string Block) : Prop :=
  ∀ k b, cMap !! k = Some b → 0 < bid b ∧ k = blockKey (bx b) (by_ b) (bz b).

(** A room's chunk map is not empty and holds no empty chunk. *)
Definition chunks_ok (chunks : Chunks) : Prop :=
  chunks ≠ ∅ ∧ ∀ c cMap, chunks !! c = Some cMap → cMap ≠ ∅ ∧ blockmap_ok cMap.

Definition store_inv (w : World) : Prop :=
  ∀ r chunks, w !! r = Some chunks → chunks_ok chunks.

(** ** Runs of setBlock calls, and last write wins as a flat map *)

Record call := mkCall { c_room : string; c_x : Z; c_y : Z; c_z : Z; c_id : Z }.

Definition apply_call (w : World) (c : call) : World :=
  setRoomBlock w (c_room c) (c_x c) (c_y c) (c_z c) (c_id c).

Definition run_calls (calls : list call) : World := foldl apply_call ∅ calls.

(** Last write per coordinate wins, in the claim's words: a flat map from
    (room, x, y, z) to the id, where a call with a positive id binds the
    coordinate and any other call unbinds it. *)
Definition spec_apply (m : gmap (string * Z * Z * Z) Z) (c : call)
  : gmap (string * Z * Z * Z) Z :=
  let key := (c_room c, c_x c, c_y c, c_z c) in
  if bool_decide (0 < c_id c) then <[key := c_id c]> m else delete key m.

Definition spec_run (calls : list call) : gmap (string * Z * Z * Z) Z :=
  foldl spec_apply ∅ calls.

(** ** Runs of setBlock and hydrate operations *)

Section StoreRuns.

Variable StringToNumber : string → number.

Inductive store_op :=
  | OpSetBlock (c : call)
  | OpHydrate (raw : value).

Definition apply_op (w : World) (op : store_op) : World :=
  match op with
  | OpSetBlock c => apply_call w c
  | OpHydrate raw => (hydrateWorldState StringToNumber w raw).1
  end.

Definition run_ops (ops : list store_op) : World := foldl apply_op ∅ ops.

End StoreRuns.

(** ** Documents *)

(** No room and no chunk is keyed by the name of the inherited accessor. *)
Definition no_proto_key (w : World) : Prop :=
  map_Forall (λ r (chunks : Chunks),
                r ≠ "__proto__" ∧
                map_Forall (λ c (_ : gmap string Block), c ≠ "__proto__") chunks) w.

Global Instance no_proto_key_dec (w : World) : Decision (no_proto_key w).
Proof. unfold no_proto_key. apply _. Defined.

(** [typeof v === "object"] and [v] is not [null]. *)
Definition is_object (v : value) : Prop :=
  match v with VArray _ | VObject _ => True | _ => False end.

(** An object with an object-valued [rooms] field. *)
Definition has_object_rooms (raw : value) : Prop :=
  is_object raw ∧ is_object (get raw "rooms").

(** The serialized World is sparse: every room entry of the document has a
    chunk entry and every chunk entry lists a block. *)
Definition serialized_sparse (doc : value) : Prop :=
  ∀ r roomData, (r, roomData) ∈ Object_entries (get doc "rooms") →
    Object_entries roomData ≠ [] ∧
    ∀ c blocks, (c, blocks) ∈ Object_entries roomData → blocks ≠ VArray [].

(** A world file whose room [R] has one chunk, keyed [__proto__]. *)
Definition proto_chunk_doc : value :=
  VObject [("rooms",
    VObject [("R",
      VObject [("__proto__", VArray [block_value (mkBlock 1 2 3 5)])])])].

(** A world file whose only room is keyed [__proto__]. *)
Definition proto_room_doc : value :=
  VObject [("rooms",
    VObject [("__proto__",
      VObject [("0,0", VArray [block_value (mkBlock 1 2 3 5)])])])].

(** ** Inputs of the closed instances

    A numeral reader standing for [StringToNumber], restricted to what the
    number model represents: blank text is [0], an optionally signed decimal
    integer is its value, [Infinity] with an optional sign is an infinity,
    anything else [NaN]. *)

Fixpoint digits_value (s : string) (acc : Z) : option Z :=
  match s with
  | EmptyString => Some acc
  | String c s' =>
      match Ascii.is_nat c with
      | Some d => digits_value s' (10 * acc + Z.of_nat d)
      | None => None
      end
  end.

Definition unsigned_literal (s : string) : option number :=
  if bool_decide (s = "Infinity") then Some Infinity
  else match s with
       | EmptyString => None
       | _ => Finite <$> digits_value s 0
       end.

Definition negate (n : number) : number :=
  match n with
  | NaN => NaN
  | Infinity => NegInfinity
  | NegInfinity => Infinity
  | Finite z => Finite (- z)
  end.

Definition decimalToNumber (s : string) : number :=
  match trim s with
  | EmptyString => Finite 0
  | String "-" t => default NaN (negate <$> unsigned_literal t)
  | String "+" t => default NaN (unsigned_literal t)
  | t => default NaN (unsigned_literal t)
  end.

Definition player_state_msg (yaw : value) : value :=
  VObject [("type", VString "PLAYER_STATE");
           ("x", VNumber (Finite 1)); ("y", VNumber (Finite 2));
           ("z", VNumber (Finite 3)); ("yaw", yaw);
           ("pitch", VNumber (Finite 0)); ("moving", VBool true)].

Definition chat_msg : value :=
  VObject [("type", VString "CHAT"); ("text", VString "hi")].

Definition join_msg (room : value) : value :=
  VObject [("type", VString "JOIN"); ("room", room); ("name", VString "Ann")].

Definition block_msg (id : Z) : value :=
  VObject [("type", VString "BLOCK");
           ("x", VNumber (Finite 1)); ("y", VNumber (Finite 2));
           ("z", VNumber (Finite 3)); ("id", VNumber (Finite id))].

Definition chunk_request_msg : value :=
  VObject [("type", VString "CHUNK_REQUEST");
           ("cx", VNumber (Finite 0)); ("cz", VNumber (Finite 0))].

(** A world file with one good block among malformed entries. *)
Definition malformed_doc : value :=
  VObject [("rooms", VObject [
    ("A", VObject [
       ("0,0", VArray [block_value (mkBlock 1 2 3 5);
                       block_value (mkBlock 1 2 4 0);
                       VObject [("x", VString "q"); ("y", VNumber (Finite 2));
                                ("z", VNumber (Finite 3)); ("id", VNumber (Finite 5))];
                       VNull; VNumber (Finite 7)]);
       ("1,0", VString "nope");
       ("2,0", VArray [])]);
    ("B", VNull);
    ("C", VObject [("0,0", VArray [])])])].

(** A world file whose second room holds a block on which [Number] raises. *)
Definition raising_doc : value :=
  VObject [("rooms", VObject [
    ("A", VObject [("0,0", VArray [block_value (mkBlock 1 2 3 5)])]);
    ("B", VObject [("0,0", VArray [VObject [("x", VObject [("toString", VNull)])]])]);
    ("C", VObject [("0,0", VArray [block_value (mkBlock 1 2 3 5)])])])].

Definition first_peer (heldBlock : Z) : Peer :=
  mkPeer "p1" "Player" EmptyString "GLOBAL" (initial_state heldBlock).

(** ** Room membership and consistency with the peers *)

(** The members of a room; an absent room has none. *)
Definition members (rooms : gmap string (gset socket)) (r : string) : gset socket :=
  default ∅ (rooms !! r).

(** No empty set is kept in the map. *)
Definition rooms_ok (rooms : gmap string (gset socket)) : Prop :=
  ∀ r s, rooms !! r = Some s → s ≠ ∅.

(** The room a registered socket is in, by its peer record. *)
Definition peer_room (st : Server) (ws : socket) : option string :=
  p_room <$> peers st !! ws.

(** No empty membership set is kept, and a socket is a member of a room
    exactly when its peer record names that room. *)
Definition server_inv (st : Server) : Prop :=
  rooms_ok (rooms st) ∧
  ∀ ws r, ws ∈ members (rooms st) r ↔ peer_room st ws = Some r.

(** ** Invariants of the peer records *)

(** Every id is [p] followed by a number handed out earlier, and no two
    registered sockets have the same id. *)
Definition ids_inv (st : Server) : Prop :=
  1 ≤ nextPeerId st ∧
  (∀ ws p, peers st !! ws = Some p →
     ∃ n, 1 ≤ n < nextPeerId st ∧ p_id p = "p" +:+ pretty n) ∧
  (∀ ws ws' p p', peers st !! ws = Some p → peers st !! ws' = Some p' →
     p_id p = p_id p' → ws = ws').

(** The sizes the handlers enforce on the text fields of a peer record. *)
Definition peer_bounded (p : Peer) : Prop :=
  (String.length (p_name p) ≤ 24)%nat ∧
  (N.of_nat (String.length (p_skin p)) ≤ 200000)%N ∧
  p_room p ≠ EmptyString ∧ (String.length (p_room p) ≤ 32)%nat.

(** ** Kinds of payload *)

(** The payloads that announce what a peer did or that it came or left:
    BLOCK, PLAYER_STATE, PLAYER_JOIN and PLAYER_LEAVE. *)
Definition relayed (p : payload) : bool :=
  match p with
  | BLOCK _ _ _ _ | PLAYER_STATE _ _ _ _ | PLAYER_JOIN _ _ _ | PLAYER_LEAVE _ => true
  | _ => false
  end.

(** ** Values on which the coercions return *)

(** Neither the value nor, when it is an array, an element at any depth is
    an object with an own [toString]. *)
Fixpoint plain (v : value) : Prop :=
  match v with
  | VArray l =>
      (fix all (l : list value) : Prop :=
         match l with
         | [] => True
         | e :: l' => plain e ∧ all l'
         end) l
  | VObject o => assoc "toString" o = None
  | _ => True
  end.

(** The fields that the handler selected by the type of a message hands to
    [String] or [Number]. *)
Definition coerced_fields (msg : value) : list string :=
  if type_is msg "JOIN" then ["room"]
  else if type_is msg "CHAT" then ["text"]
  else if type_is msg "BLOCK" then ["x"; "y"; "z"; "id"]
  else if type_is msg "CHUNK_REQUEST" then ["cx"; "cz"]
  else if type_is msg "PLAYER_STATE"
       then ["x"; "y"; "z"; "yaw"; "pitch"; "punchAnim"; "placeAnim"; "heldBlock"]
  else [].

(** ** Animation values of the relay *)

(** Both animation values lie between 0 and 1. *)
Definition anims_clamped (s : PlayerState) : Prop :=
  0 ≤ st_punchAnim s ≤ 1 ∧ 0 ≤ st_placeAnim s ≤ 1.

(** ** Runs of the persistence *)

(** No write of the run raised. *)
Definition all_written (evs : list Persist.event) : Prop :=
  Forall (λ ev, match ev with
                | Persist.Timeout _ o | Persist.ServerClose o
                | Persist.Interrupt o => o = Persist.Written
                | Persist.SetBlock _ _ _ _ _ => True
                end) evs.

(** The world file holds the document of the store. *)
Definition saved (p : Persist.Process) : Prop :=
  Persist.WORLD_FILE p = Persist.Holds (serializeWorldState (Persist.roomChunks p)).

(** At most one timer is armed, the one that [persistTimer] holds. *)
Definition timer_inv (p : Persist.Process) : Prop :=
  Persist.timers p = match Persist.persistTimer p with
                     | Some t => {[t]}
                     | None => ∅
                     end.

(** ** More inputs of the closed instances *)

(** A JOIN whose room and name are longer than the handler keeps. *)
Definition long_join_msg : value :=
  VObject [("type", VString "JOIN");
           ("room", VString "abcdefghijklmnopqrstuvwxyz0123456789");
           ("name", VString "Bartholomew Fitzgerald-Montgomery")].

(** A BLOCK whose id is not a number. *)
Definition bad_block_msg : value :=
  VObject [("type", VString "BLOCK");
           ("x", VNumber (Finite 1)); ("y", VNumber (Finite 2));
           ("z", VNumber (Finite 3)); ("id", VString "stone")].

(** A PLAYER_STATE whose animation values are out of range. *)
Definition anim_msg : value :=
  VObject [("type", VString "PLAYER_STATE");
           ("x", VNumber (Finite 1)); ("y", VNumber (Finite 2));
           ("z", VNumber (Finite 3)); ("yaw", VNumber (Finite 0));
           ("pitch", VNumber (Finite 0));
           ("punchAnim", VNumber (Finite 5)); ("placeAnim", VNumber (Finite (-3)))].

(** ** Consistency of the first relay *)

(** No empty membership set is kept, and a socket is a member of a room
    exactly when its peer record names that room. *)
Definition basic_inv (st : Basic.Server) : Prop :=
  rooms_ok (Basic.rooms st) ∧
  ∀ ws r, ws ∈ members (Basic.rooms st) r ↔
          Basic.p_room <$> Basic.peers st !! ws = Some r.

(** * Part III: proofs *)

(** ** Keys are injective *)

Lemma comma_split_inj (s1 s2 t1 t2 : string) :
  comma_free s1 → comma_free s2 →
  s1 +:+ "," +:+ t1 = s2 +:+ "," +:+ t2 → s1 = s2 ∧ t1 = t2.
Proof.
  revert s2. induction s1 as [|c s1 IH]; intros [|d s2]; cbn.
  - intros _ _ Heq. by simplify_eq.
  - intros _ [Hd _] Heq. by simplify_eq.
  - intros [Hc _] _ Heq. by simplify_eq.
  - intros [_ H1] [_ H2] Heq. simplify_eq.
    match goal with H : _ = _ |- _ => destruct (IH s2 H1 H2 H) as [-> ->] end.
    done.
Qed.

Lemma pretty_N_char_comma (x : N) : pretty_N_char x ≠ ","%char.
Proof. unfold pretty_N_char. by repeat case_match. Qed.

Lemma pretty_N_go_comma_free (x : N) (s : string) :
  comma_free s → comma_free (pretty_N_go x s).
Proof.
  revert s. induction (N.lt_wf_0 x) as [x _ IH]; intros s Hs.
  assert (x = 0 ∨ 0 < x)%N as [->|Hx] by lia.
  - by rewrite pretty_N_go_0.
  - rewrite pretty_N_go_step by done. apply IH.
    + by apply N.div_lt.
    + split; [apply pretty_N_char_comma | done].
Qed.

Lemma pretty_N_comma_free (x : N) : comma_free (pretty x).
Proof.
  unfold pretty, pretty_N. case_decide; [by compute|].
  by apply pretty_N_go_comma_free.
Qed.

Lemma pretty_Z_comma_free (x : Z) : comma_free (pretty x).
Proof.
  destruct x as [|p|p]; unfold pretty, pretty_Z.
  - by compute.
  - apply (pretty_N_comma_free (Npos p)).
  - split; [done|]. apply (pretty_N_comma_free (Npos p)).
Qed.

Lemma blockKey_inj (x y z x' y' z' : Z) :
  blockKey x y z = blockKey x' y' z' → x = x' ∧ y = y' ∧ z = z'.
Proof.
  unfold blockKey. intros H.
  apply comma_split_inj in H as [Hx H]; try apply pretty_Z_comma_free.
  apply comma_split_inj in H as [Hy Hz]; try apply pretty_Z_comma_free.
  by repeat split; apply (inj pretty).
Qed.

Lemma chunkKey_inj (a b a' b' : Z) :
  chunkKey a b = chunkKey a' b' → a = a' ∧ b = b'.
Proof.
  unfold chunkKey. intros H.
  apply comma_split_inj in H as [Ha Hb]; try apply pretty_Z_comma_free.
  by split; apply (inj pretty).
Qed.

Lemma blockChunkKey_chunkKey (x z : Z) :
  blockChunkKey x z = chunkKey (x `div` 16) (z `div` 16).
Proof. reflexivity. Qed.

(** ** setRoomBlock, read through lookups *)

Lemma size_zero_decide {A} (m : gmap string A) :
  bool_decide (size m = 0%nat) = bool_decide (m = ∅).
Proof. apply bool_decide_ext, map_size_empty_iff. Qed.

Lemma insert_nonempty_decide {A} (m : gmap string A) (k : string) (v : A) :
  bool_decide (<[k := v]> m = ∅) = false.
Proof. apply bool_decide_eq_false_2, insert_non_empty. Qed.

Lemma setRoomBlock_unfold (w : World) (room : string) (x y z id : Z) :
  setRoomBlock w room x y z id =
  let chunks0 : Chunks := default ∅ (w !! room) in
  let cMap0 : gmap string Block := default ∅ (chunks0 !! blockChunkKey x z) in
  if bool_decide (id ≤ 0) then
    let cMap := delete (blockKey x y z) cMap0 in
    if bool_decide (cMap = ∅) then
      let chunks := delete (blockChunkKey x z) chunks0 in
      if bool_decide (chunks = ∅) then delete room w else <[room := chunks]> w
    else <[room := <[blockChunkKey x z := cMap]> chunks0]> w
  else
    <[room := <[blockChunkKey x z := <[blockKey x y z := mkBlock x y z id]> cMap0]> chunks0]> w.
Proof.
  unfold setRoomBlock, ensureRoomChunks.
  set (cKey := blockChunkKey x z). set (bKey := blockKey x y z).
  destruct (w !! room) as [chunks|] eqn:Hw; simpl.
  - destruct (chunks !! cKey) as [cm|] eqn:Hc; simpl.
    + rewrite Hc. simpl. rewrite !size_zero_decide.
      case_bool_decide; [|done].
      destruct (decide (delete bKey cm = ∅)) as [E|E].
      * rewrite !(bool_decide_eq_true_2 _ E), !delete_insert_eq.
        destruct (decide (delete cKey chunks = ∅)) as [E'|E'].
        -- rewrite !(bool_decide_eq_true_2 _ E'). by rewrite ?delete_insert_eq.
        -- by rewrite !(bool_decide_eq_false_2 _ E').
      * rewrite !(bool_decide_eq_false_2 _ E). by rewrite insert_nonempty_decide.
    + rewrite lookup_insert_eq. simpl. rewrite !insert_insert_eq.
      case_bool_decide; [|done].
      rewrite delete_empty, !size_zero_decide.
      rewrite !(bool_decide_eq_true_2 ((∅ : gmap string Block) = ∅)) by done.
      rewrite !delete_insert_eq.
      destruct (decide (delete cKey chunks = ∅)) as [E'|E'].
      * rewrite !(bool_decide_eq_true_2 _ E'). by rewrite ?delete_insert_eq.
      * by rewrite !(bool_decide_eq_false_2 _ E').
  - rewrite lookup_empty. simpl. rewrite lookup_insert_eq. simpl.
    rewrite !insert_insert_eq.
    case_bool_decide; [|done].
    rewrite delete_empty, !size_zero_decide.
    rewrite !(bool_decide_eq_true_2 ((∅ : gmap string Block) = ∅)) by done.
    rewrite !delete_insert_eq, delete_empty.
    rewrite !(bool_decide_eq_true_2 ((∅ : Chunks) = ∅)) by done.
    by rewrite ?delete_insert_eq.
Qed.

Lemma delete_empty_lookup {A} (m : gmap string A) (k k' : string) :
  delete k m = ∅ → k' ≠ k → m !! k' = None.
Proof.
  intros He Hne. rewrite <-(lookup_delete_ne m k k') by done.
  by rewrite He, lookup_empty.
Qed.

Lemma cell_setRoomBlock (w : World) (room : string) (x y z id : Z) (r c k : string) :
  cell (setRoomBlock w room x y z id) r c k =
  if decide (r = room ∧ c = blockChunkKey x z ∧ k = blockKey x y z)
  then (if bool_decide (id ≤ 0) then None else Some (mkBlock x y z id))
  else cell w r c k.
Proof.
  rewrite setRoomBlock_unfold. unfold cell. cbv zeta.
  set (cKey := blockChunkKey x z). set (bKey := blockKey x y z).
  destruct (decide (r = room)) as [->|Hr].
  2:{ rewrite decide_False by (by intros (?&?&?)).
      assert (room ≠ r) by done.
      repeat case_bool_decide;
        by rewrite ?lookup_insert_ne, ?lookup_delete_ne by done. }
  destruct (decide (c = cKey)) as [->|Hc].
  2:{ rewrite decide_False by (by intros (?&?&?)).
      assert (cKey ≠ c) by done.
      destruct (w !! room) as [chunks|] eqn:Hw; simpl;
      repeat case_bool_decide;
        rewrite ?lookup_insert_eq, ?lookup_delete_eq, ?lookup_insert_ne,
          ?lookup_delete_ne, ?lookup_empty by done; try done.
      all: by erewrite delete_empty_lookup by done. }
  destruct (decide (k = bKey)) as [->|Hk].
  { rewrite decide_True by done.
    repeat case_bool_decide;
      by rewrite ?lookup_insert_eq, ?lookup_delete_eq. }
  rewrite decide_False by (by intros (?&?&?)).
  assert (bKey ≠ k) by done.
  destruct (w !! room) as [chunks|] eqn:Hw; simpl.
  - destruct (chunks !! cKey) as [cm|] eqn:Hcm; simpl;
    repeat case_bool_decide;
      rewrite ?lookup_insert_eq, ?lookup_delete_eq, ?lookup_insert_ne,
        ?lookup_delete_ne, ?lookup_empty by done; try done.
    all: by erewrite delete_empty_lookup by done.
  - rewrite lookup_empty. simpl.
    repeat case_bool_decide;
      by rewrite ?lookup_insert_eq, ?lookup_delete_eq, ?lookup_insert_ne,
        ?lookup_delete_ne, ?lookup_empty by done.
Qed.

(** ** setRoomBlock keeps the store invariant *)

Lemma store_inv_empty : store_inv ∅.
Proof. intros r chunks. by rewrite lookup_empty. Qed.

Lemma blockmap_ok_insert (cMap : gmap string Block) (b : Block) :
  blockmap_ok cMap → 0 < bid b →
  blockmap_ok (<[blockKey (bx b) (by_ b) (bz b) := b]> cMap).
Proof.
  intros Hok Hb k b'. rewrite lookup_insert.
  case_decide; [intros [= <-]; by subst | apply Hok].
Qed.

Lemma blockmap_ok_delete (cMap : gmap string Block) (k : string) :
  blockmap_ok cMap → blockmap_ok (delete k cMap).
Proof.
  intros Hok k' b. rewrite lookup_delete.
  case_decide; [done | apply Hok].
Qed.

Lemma blockmap_ok_empty : blockmap_ok ∅.
Proof. intros k b. by rewrite lookup_empty. Qed.

Lemma store_inv_room_chunk (w : World) (room c : string) (cMap : gmap string Block) :
  store_inv w → default ∅ (w !! room) !! c = Some cMap →
  cMap ≠ ∅ ∧ blockmap_ok cMap.
Proof.
  intros Hw. destruct (w !! room) as [chunks|] eqn:Hr; simpl.
  - intros Hc. by apply (proj2 (Hw _ _ Hr) c).
  - by rewrite lookup_empty.
Qed.

Lemma store_inv_default_chunk (w : World) (room c : string) :
  store_inv w → blockmap_ok (default ∅ (default ∅ (w !! room) !! c)).
Proof.
  intros Hw. destruct (default ∅ (w !! room) !! c) as [cMap|] eqn:Hc; simpl.
  - by eapply store_inv_room_chunk.
  - apply blockmap_ok_empty.
Qed.

Lemma setRoomBlock_store_inv (w : World) (room : string) (x y z id : Z) :
  store_inv w → store_inv (setRoomBlock w room x y z id).
Proof.
  intros Hw. rewrite setRoomBlock_unfold. cbv zeta.
  set (cKey := blockChunkKey x z). set (bKey := blockKey x y z).
  pose proof (store_inv_default_chunk w room cKey Hw) as Hc0.
  assert (∀ c cMap, default ∅ (w !! room) !! c = Some cMap →
            cMap ≠ ∅ ∧ blockmap_ok cMap) as Hcs
    by (intros; by eapply store_inv_room_chunk).
  repeat case_bool_decide; intros r chunks.
  - rewrite lookup_delete. case_decide; [done | apply Hw].
  - rewrite lookup_insert. case_decide; [|apply Hw].
    intros [= <-]. split; [done|].
    intros c cMap. rewrite lookup_delete. case_decide; [done | apply Hcs].
  - rewrite lookup_insert. case_decide; [|apply Hw].
    intros [= <-]. split; [apply insert_non_empty|].
    intros c cMap. rewrite lookup_insert. case_decide; [|apply Hcs].
    intros [= <-]. split; [done | by apply blockmap_ok_delete].
  - rewrite lookup_insert. case_decide; [|apply Hw].
    intros [= <-]. split; [apply insert_non_empty|].
    intros c cMap. rewrite lookup_insert. case_decide; [|apply Hcs].
    intros [= <-]. split; [apply insert_non_empty|].
    apply (blockmap_ok_insert _ (mkBlock x y z id)); [done | simpl; lia].
Qed.

Lemma cell_Some (w : World) (r c k : string) (b : Block) :
  cell w r c k = Some b ↔
  ∃ chunks cMap, w !! r = Some chunks ∧ chunks !! c = Some cMap ∧ cMap !! k = Some b.
Proof.
  unfold cell. split.
  - destruct (w !! r) as [chunks|] eqn:Hr; [|done].
    destruct (chunks !! c) as [cMap|] eqn:Hc; [|done].
    intros Hk. by exists chunks, cMap.
  - intros (chunks & cMap & -> & -> & ->). done.
Qed.

(** ** Runs of setBlock calls *)

Lemma run_calls_snoc (calls : list call) (c : call) :
  run_calls (calls ++ [c]) = apply_call (run_calls calls) c.
Proof. unfold run_calls. by rewrite foldl_app. Qed.

Lemma spec_run_snoc (calls : list call) (c : call) :
  spec_run (calls ++ [c]) = spec_apply (spec_run calls) c.
Proof. unfold spec_run. by rewrite foldl_app. Qed.

Lemma spec_apply_lookup (m : gmap (string * Z * Z * Z) Z) (c : call)
    (key : string * Z * Z * Z) :
  spec_apply m c !! key =
  if decide (key = (c_room c, c_x c, c_y c, c_z c))
  then (if bool_decide (0 < c_id c) then Some (c_id c) else None)
  else m !! key.
Proof.
  unfold spec_apply. cbv zeta.
  case_bool_decide; case_decide; subst;
    by rewrite ?lookup_insert_eq, ?lookup_delete_eq,
               ?lookup_insert_ne, ?lookup_delete_ne by done.
Qed.

Lemma run_calls_store_inv (calls : list call) : store_inv (run_calls calls).
Proof.
  induction calls as [|c calls IH] using rev_ind; [apply store_inv_empty|].
  rewrite run_calls_snoc. by apply setRoomBlock_store_inv.
Qed.

(** The records of the store are exactly the bindings of the flat map. *)
Lemma run_calls_cell (calls : list call) (r c k : string) (b : Block) :
  cell (run_calls calls) r c k = Some b ↔
  c = blockChunkKey (bx b) (bz b) ∧ k = blockKey (bx b) (by_ b) (bz b) ∧
  spec_run calls !! (r, bx b, by_ b, bz b) = Some (bid b).
Proof.
  revert r c k b.
  induction calls as [|[room x y z id] calls IH] using rev_ind; intros r c k b.
  { unfold run_calls, spec_run, cell. simpl. rewrite !lookup_empty.
    split; [done | by intros (_ & _ & ?)]. }
  rewrite run_calls_snoc, spec_run_snoc. unfold apply_call. simpl.
  rewrite cell_setRoomBlock, spec_apply_lookup. simpl.
  destruct (decide (r = room ∧ c = blockChunkKey x z ∧ k = blockKey x y z))
    as [(-> & -> & ->)|Hne].
  - case_bool_decide as Hid.
    + split; [done|]. intros (_ & (-> & -> & ->)%blockKey_inj & Hs).
      rewrite decide_True in Hs by done.
      rewrite bool_decide_eq_false_2 in Hs by lia. done.
    + split.
      * intros [= <-]. simpl. repeat split; [done..|].
        rewrite decide_True by done. by rewrite bool_decide_eq_true_2 by lia.
      * intros (_ & (-> & -> & ->)%blockKey_inj & Hs).
        rewrite decide_True in Hs by done.
        rewrite bool_decide_eq_true_2 in Hs by lia.
        destruct b; simpl in *. by simplify_eq.
  - rewrite IH.
    assert (c = blockChunkKey (bx b) (bz b) → k = blockKey (bx b) (by_ b) (bz b) →
            (r, bx b, by_ b, bz b) ≠ (room, x, y, z)) as Hkey.
    { intros -> -> [= -> <- <- <-]. by apply Hne. }
    split; intros (Hc & Hk & Hs); (split; [done|split; [done|]]).
    + by rewrite decide_False by auto.
    + by rewrite decide_False in Hs by auto.
Qed.

(** A store without empty containers is determined by its records. *)
Lemma store_ext (w1 w2 : World) :
  store_inv w1 → store_inv w2 →
  (∀ r c k, cell w1 r c k = cell w2 r c k) → w1 = w2.
Proof.
  assert (∀ w1 w2 : World, store_inv w1 → (∀ r c k, cell w1 r c k = cell w2 r c k) →
            ∀ r chunks, w1 !! r = Some chunks →
            ∃ chunks', w2 !! r = Some chunks' ∧ chunks ⊆ chunks') as Hsub.
  { clear. intros w1 w2 H1 Hc r chunks Hr.
    destruct (H1 _ _ Hr) as [Hne Hcs].
    apply map_choose in Hne as (c0 & cm0 & Hc0).
    destruct (Hcs _ _ Hc0) as [(k0 & b0 & Hk0)%map_choose _].
    assert (cell w2 r c0 k0 = Some b0) as (chunks' & ? & Hr' & _)%cell_Some.
    { rewrite <-Hc. apply cell_Some. eauto. }
    exists chunks'. split; [done|].
    apply map_subseteq_spec. intros c cm Hcm.
    destruct (Hcs _ _ Hcm) as [(k & b & Hk)%map_choose _].
    assert (cell w2 r c k = Some b) as (chunks2 & cm' & Hr2 & Hc2 & _)%cell_Some.
    { rewrite <-Hc. apply cell_Some. eauto. }
    assert (chunks2 = chunks') as -> by congruence.
    rewrite Hc2. f_equal. apply map_eq. intros k'.
    specialize (Hc r c k'). unfold cell in Hc.
    by rewrite Hr, Hr', Hcm, Hc2 in Hc. }
  intros H1 H2 Hc. apply map_eq. intros r.
  destruct (w1 !! r) as [chunks1|] eqn:Hr1.
  - destruct (Hsub w1 w2 H1 Hc _ _ Hr1) as (chunks2 & Hr2 & Hs12).
    assert (∀ r c k, cell w2 r c k = cell w1 r c k) as Hc' by done.
    destruct (Hsub w2 w1 H2 Hc' _ _ Hr2) as (chunks1' & Hr1' & Hs21).
    assert (chunks1' = chunks1) as -> by congruence.
    rewrite Hr2. f_equal. by apply (anti_symm (⊆)).
  - destruct (w2 !! r) as [chunks2|] eqn:Hr2; [|done].
    assert (∀ r c k, cell w2 r c k = cell w1 r c k) as Hc' by done.
    destruct (Hsub w2 w1 H2 Hc' _ _ Hr2) as (chunks1 & Hr1' & _). congruence.
Qed.

Lemma option_eq_Some_iff {A} (o1 o2 : option A) :
  (∀ a, o1 = Some a ↔ o2 = Some a) → o1 = o2.
Proof.
  intros H. destruct o1 as [a|], o2 as [b|]; try done.
  - symmetry. by apply (H a).
  - symmetry. by apply (H a).
  - by apply (H b).
Qed.

Example spec_run_example :
  spec_run [mkCall "ABC" 1 2 3 5; mkCall "ABC" 1 2 3 7; mkCall "ABC" 4 4 4 0]
    !! ("ABC", 1, 2, 3) = Some 7.
Proof. vm_compute. reflexivity. Qed.

Example run_calls_scenario :
  getChunkBlocks (run_calls [mkCall "ABC" 1 2 3 5]) "ABC" 0 0 = [mkBlock 1 2 3 5] ∧
  getChunkBlocks (run_calls [mkCall "ABC" 1 2 3 5; mkCall "ABC" 1 2 3 0]) "ABC" 0 0 = [] ∧
  run_calls [mkCall "ABC" 1 2 3 5; mkCall "ABC" 1 2 3 0] = ∅.
Proof. repeat split; vm_compute; reflexivity. Qed.

(** C1.  For every sequence of setBlock calls applied to the empty store,
    the store holds exactly the last write per coordinate: the record found
    at a coordinate of a room is the one the flat last-write-wins map binds
    there (a positive id binds, any id <= 0 unbinds), every record of the
    store is such a binding, found under the keys of its own coordinates,
    and the store is a function of that flat map alone. *)
Theorem setBlock_last_write_wins (calls : list call) :
  (∀ r x y z,
     block_at (run_calls calls) r x y z
     = mkBlock x y z <$> spec_run calls !! (r, x, y, z)) ∧
  (∀ r c k b,
     cell (run_calls calls) r c k = Some b ↔
     c = blockChunkKey (bx b) (bz b) ∧ k = blockKey (bx b) (by_ b) (bz b) ∧
     spec_run calls !! (r, bx b, by_ b, bz b) = Some (bid b)) ∧
  (∀ calls', spec_run calls' = spec_run calls → run_calls calls' = run_calls calls).
Proof.
  split; [|split].
  - intros r x y z. apply option_eq_Some_iff. intros b.
    unfold block_at. rewrite run_calls_cell. split.
    + intros (_ & (-> & -> & ->)%blockKey_inj & ->). by destruct b.
    + destruct (spec_run calls !! (r, x, y, z)) as [id|] eqn:Hs; [|done].
      intros [= <-]. simpl. by rewrite Hs.
  - intros r c k b. apply run_calls_cell.
  - intros calls' Hs. apply store_ext; [apply run_calls_store_inv..|].
    intros r c k. apply option_eq_Some_iff. intros b.
    by rewrite !run_calls_cell, Hs.
Qed.

(** ** getChunkBlocks *)

Lemma elem_of_getChunkBlocks (w : World) (room : string) (cx cz : Z) (b : Block) :
  b ∈ getChunkBlocks w room cx cz ↔ ∃ k, cell w room (chunkKey cx cz) k = Some b.
Proof.
  unfold getChunkBlocks, cell.
  destruct (w !! room) as [chunks|]; [|by split; [intros ?%elem_of_nil | intros [? ?]]].
  destruct (chunks !! chunkKey cx cz) as [cMap|];
    [|by split; [intros ?%elem_of_nil | intros [? ?]]].
  rewrite list_elem_of_fmap. split.
  - intros ([k b'] & -> & Hin%elem_of_map_to_list). by exists k.
  - intros [k Hk]. exists (k, b). split; [done|]. by apply elem_of_map_to_list.
Qed.

(** C7.  getChunkBlocks is a total function: its result lists exactly the
    records of the chunk [cx,cz] of the room, one entry per record, and it
    is the empty list when the room is absent and when the chunk is absent.
    For a store built by setBlock calls these records are the live blocks
    whose coordinates fall in that chunk. *)
Theorem getChunkBlocks_all_or_empty (w : World) (room : string) (cx cz : Z) :
  (∀ b, b ∈ getChunkBlocks w room cx cz ↔
        ∃ k, cell w room (chunkKey cx cz) k = Some b) ∧
  length (getChunkBlocks w room cx cz)
    = size (default ∅ (default ∅ (w !! room) !! chunkKey cx cz)) ∧
  (w !! room = None → getChunkBlocks w room cx cz = []) ∧
  (∀ chunks, w !! room = Some chunks → chunks !! chunkKey cx cz = None →
             getChunkBlocks w room cx cz = []) ∧
  (∀ calls b,
     b ∈ getChunkBlocks (run_calls calls) room cx cz ↔
     spec_run calls !! (room, bx b, by_ b, bz b) = Some (bid b) ∧
     bx b `div` 16 = cx ∧ bz b `div` 16 = cz).
Proof.
  split; [|split; [|split; [|split]]].
  - intros b. apply elem_of_getChunkBlocks.
  - unfold getChunkBlocks.
    destruct (w !! room) as [chunks|]; simpl; [|by rewrite lookup_empty].
    destruct (chunks !! chunkKey cx cz) as [cMap|]; simpl; [|done].
    by rewrite length_fmap, length_map_to_list.
  - unfold getChunkBlocks. by intros ->.
  - unfold getChunkBlocks. by intros chunks -> ->.
  - intros calls b. rewrite elem_of_getChunkBlocks. split.
    + intros [k (Hc & _ & Hs)%run_calls_cell].
      rewrite blockChunkKey_chunkKey in Hc.
      apply chunkKey_inj in Hc as [-> ->]. done.
    + intros (Hs & <- & <-). exists (blockKey (bx b) (by_ b) (bz b)).
      apply run_calls_cell. by rewrite blockChunkKey_chunkKey.
Qed.

(** ** Hydration keeps the store invariant *)

Lemma for_entries_inv {A} (P : A → Prop) (body : value → result (option A))
    (entries : list (string * value)) (acc : gmap string A) :
  (∀ v a, body v = Ok (Some a) → P a) →
  (∀ k a, acc !! k = Some a → P a) →
  ∀ k a, (for_entries body entries acc).1 !! k = Some a → P a.
Proof.
  intros Hbody. revert acc.
  induction entries as [|[k0 v] rest IH]; intros acc Hacc; simpl; [done|].
  destruct (body v) as [[a0|]|] eqn:Hb; simpl; [|by apply IH|done].
  apply IH. intros k a. rewrite lookup_insert.
  case_decide; [intros [= <-]; by eapply Hbody | apply Hacc].
Qed.

Section HydrateInv.

Variable StringToNumber : string → number.

Lemma hydrate_block_positive (v : value) (b : Block) :
  hydrate_block StringToNumber v = Ok (Some b) → 0 < bid b.
Proof.
  unfold hydrate_block.
  destruct (ToNumber _ (get v "x")) as [x|]; simpl; [|done].
  destruct (ToNumber _ (get v "y")) as [y|]; simpl; [|done].
  destruct (ToNumber _ (get v "z")) as [z|]; simpl; [|done].
  destruct (ToNumber _ (get v "id")) as [id|]; simpl; [|done].
  destruct x, y, z, id; try done.
  case_bool_decide; [done|]. intros [= <-]. simpl. lia.
Qed.

Lemma hydrate_blocks_ok (blocks : list value) (acc bm : gmap string Block) :
  blockmap_ok acc → hydrate_blocks StringToNumber blocks acc = Ok bm →
  blockmap_ok bm.
Proof.
  revert acc. induction blocks as [|v rest IH]; intros acc Hacc; simpl.
  - by intros [= <-].
  - destruct (hydrate_block StringToNumber v) as [[b|]|] eqn:Hb; simpl; [| |done].
    + apply IH. apply blockmap_ok_insert; [done|].
      by eapply hydrate_block_positive.
    + by apply IH.
Qed.

Lemma hydrate_chunk_ok (v : value) (bm : gmap string Block) :
  hydrate_chunk StringToNumber v = Ok (Some bm) → bm ≠ ∅ ∧ blockmap_ok bm.
Proof.
  unfold hydrate_chunk. destruct v as [| | | | |l|]; try done.
  destruct (hydrate_blocks StringToNumber l ∅) as [bm'|] eqn:Hl; simpl; [|done].
  case_bool_decide as Hs; [|done]. intros [= <-]. split.
  - intros ->. rewrite map_size_empty in Hs. lia.
  - eapply hydrate_blocks_ok; [apply blockmap_ok_empty | done].
Qed.

Lemma hydrate_room_ok (v : value) (chunks : Chunks) :
  hydrate_room StringToNumber v = Ok (Some chunks) → chunks_ok chunks.
Proof.
  unfold hydrate_room. case_match; [done|].
  destruct (for_entries _ _ _) as [chunks' []] eqn:Hf; [|done].
  case_bool_decide as Hs; [|done]. intros [= <-]. split.
  - intros ->. rewrite map_size_empty in Hs. lia.
  - intros c cMap Hc.
    apply (for_entries_inv (λ bm, bm ≠ ∅ ∧ blockmap_ok bm)
             (hydrate_chunk StringToNumber) (Object_entries v) ∅ hydrate_chunk_ok)
      with (k := c).
    + intros k a. by rewrite lookup_empty.
    + by rewrite Hf.
Qed.

Lemma hydrateWorldState_store_inv (w : World) (raw : value) :
  store_inv (hydrateWorldState StringToNumber w raw).1.
Proof.
  unfold hydrateWorldState. cbv zeta. case_match; [apply store_inv_empty|].
  intros r chunks.
  apply (for_entries_inv chunks_ok (hydrate_room StringToNumber) _ ∅ hydrate_room_ok).
  intros k a. by rewrite lookup_empty.
Qed.

Lemma run_ops_store_inv (ops : list store_op) :
  store_inv (run_ops StringToNumber ops).
Proof.
  induction ops as [|op ops IH] using rev_ind; [apply store_inv_empty|].
  unfold run_ops. rewrite foldl_app. simpl. destruct op as [c|raw]; simpl.
  - by apply setRoomBlock_store_inv.
  - apply hydrateWorldState_store_inv.
Qed.

End HydrateInv.

(** ** Serialize then hydrate *)

Lemma assoc_None (k : string) (o : list (string * value)) :
  assoc k o = None ↔ k ∉ o.*1.
Proof.
  induction o as [|[k' v] o IH]; simpl.
  - split; [intros _ ?%elem_of_nil; done | done].
  - rewrite not_elem_of_cons. case_decide as Hk.
    + subst. split; [done | by intros [? _]].
    + rewrite IH. split; [by split | by intros [_ ?]].
Qed.

Lemma own_entries_NoDup (o : list (string * value)) :
  NoDup o.*1 → own_entries o = o.
Proof.
  induction o as [|[k v] o IH]; simpl; [done|].
  intros [Hk Hnd]%NoDup_cons. rewrite IH by done. f_equal.
  clear IH Hnd. induction o as [|[k' v'] o IH]; [done|].
  simpl in Hk. apply not_elem_of_cons in Hk as [Hne Hk].
  rewrite filter_cons_True by (simpl; congruence). f_equal. by apply IH.
Qed.

Lemma foldl_set_prop {A} (f : A → value) (l : list (string * A))
    (o : list (string * value)) :
  NoDup l.*1 → (∀ k, k ∈ l.*1 → k ≠ "__proto__" ∧ k ∉ o.*1) →
  foldl (λ o kv, set_prop o kv.1 (f kv.2)) o l
  = o ++ ((λ kv, (kv.1, f kv.2)) <$> l).
Proof.
  revert o. induction l as [|[k a] l IH]; intros o Hnd Hk; simpl.
  - by rewrite app_nil_r.
  - simpl in Hnd. apply NoDup_cons in Hnd as [Hkl Hnd].
    destruct (Hk k) as [Hp Ho]; [simpl; left|].
    unfold set_prop at 2. rewrite decide_False by done.
    rewrite (proj2 (assoc_None k o) Ho).
    rewrite IH; [by rewrite <-app_assoc| done |].
    intros k' Hk'. destruct (Hk k') as [? ?]; [simpl; by right|].
    split; [done|]. rewrite fmap_app. simpl.
    rewrite elem_of_app, list_elem_of_singleton. intros [?| ->]; done.
Qed.

Lemma for_entries_fmap {A} (body : value → result (option A)) (f : A → value)
    (l : list (string * A)) (acc : gmap string A) :
  (∀ kv, kv ∈ l → body (f kv.2) = Ok (Some kv.2)) →
  for_entries body ((λ kv, (kv.1, f kv.2)) <$> l) acc
  = (foldl (λ m kv, <[kv.1 := kv.2]> m) acc l, Normal).
Proof.
  revert acc. induction l as [|[k a] l IH]; intros acc Hl; simpl; [done|].
  pose proof (Hl (k, a)) as Hka. simpl in Hka. rewrite Hka by left. apply IH.
  intros kv Hkv. apply Hl. by right.
Qed.

Lemma foldl_insert_lookup {A} (l : list (string * A)) (acc : gmap string A) (k : string) :
  NoDup l.*1 →
  foldl (λ m kv, <[kv.1 := kv.2]> m) acc l !! k
  = match (list_to_map l : gmap string A) !! k with
    | Some a => Some a
    | None => acc !! k
    end.
Proof.
  revert acc. induction l as [|[k0 a0] l IH]; intros acc Hnd; simpl.
  - by rewrite lookup_empty.
  - simpl in Hnd. apply NoDup_cons in Hnd as [Hk0 Hnd].
    rewrite IH by done. rewrite (lookup_insert (list_to_map l)).
    destruct (decide (k0 = k)) as [->|Hne].
    + rewrite (not_elem_of_list_to_map_1 l k) by done.
      by rewrite lookup_insert_eq.
    + destruct (list_to_map l !! k); [done|]. by rewrite lookup_insert_ne.
Qed.

Lemma foldl_insert_map_to_list {A} (m : gmap string A) :
  foldl (λ m kv, <[kv.1 := kv.2]> m) ∅ (map_to_list m) = m.
Proof.
  apply map_eq. intros k.
  rewrite foldl_insert_lookup by apply NoDup_fst_map_to_list.
  rewrite list_to_map_to_list, lookup_empty. by destruct (m !! k).
Qed.

Lemma keyed_fmap_fst {A B} (f : A → B) (l : list (string * A)) :
  ((λ kv, (kv.1, f kv.2)) <$> l).*1 = l.*1.
Proof. induction l as [|[k a] l IH]; simpl; [done | by f_equal]. Qed.

Section RoundTrip.

Variable StringToNumber : string → number.

Lemma hydrate_block_value (b : Block) :
  0 < bid b → hydrate_block StringToNumber (block_value b) = Ok (Some b).
Proof.
  intros Hb. destruct b as [x y z id]. simpl in Hb.
  unfold hydrate_block, block_value. simpl.
  by rewrite bool_decide_eq_false_2 by lia.
Qed.

Lemma hydrate_blocks_values (l : list (string * Block)) (acc : gmap string Block) :
  (∀ kv, kv ∈ l → 0 < bid kv.2 ∧ kv.1 = blockKey (bx kv.2) (by_ kv.2) (bz kv.2)) →
  hydrate_blocks StringToNumber (block_value <$> l.*2) acc
  = Ok (foldl (λ m kv, <[kv.1 := kv.2]> m) acc l).
Proof.
  revert acc. induction l as [|[k b] l IH]; intros acc Hl; simpl; [done|].
  destruct (Hl (k, b)) as [Hb Hk]; [left|]. simpl in Hb, Hk.
  rewrite hydrate_block_value by done. simpl. rewrite <-Hk.
  apply IH. intros kv Hkv. apply Hl. by right.
Qed.

Lemma hydrate_chunk_values (bm : gmap string Block) :
  bm ≠ ∅ → blockmap_ok bm →
  hydrate_chunk StringToNumber (block_values bm) = Ok (Some bm).
Proof.
  intros Hne Hok. unfold hydrate_chunk, block_values.
  rewrite hydrate_blocks_values.
  - rewrite foldl_insert_map_to_list. simpl.
    rewrite bool_decide_eq_true_2; [done|].
    apply map_size_non_empty_iff in Hne. lia.
  - intros [k b] Hkb%elem_of_map_to_list. by apply Hok.
Qed.

Lemma hydrate_room_serialize (chunks : Chunks) :
  chunks_ok chunks → (∀ c, is_Some (chunks !! c) → c ≠ "__proto__") →
  hydrate_room StringToNumber (serialize_room chunks) = Ok (Some chunks).
Proof.
  intros [Hne Hcs] Hp. unfold hydrate_room, serialize_room. simpl.
  rewrite foldl_set_prop.
  - simpl. rewrite own_entries_NoDup.
    2:{ rewrite keyed_fmap_fst. apply NoDup_fst_map_to_list. }
    rewrite for_entries_fmap.
    + rewrite foldl_insert_map_to_list.
      rewrite bool_decide_eq_true_2; [done|].
      apply map_size_non_empty_iff in Hne. lia.
    + intros [c bm] Hc%elem_of_map_to_list. simpl.
      destruct (Hcs _ _ Hc). by apply hydrate_chunk_values.
  - apply NoDup_fst_map_to_list.
  - intros k ([k' bm] & -> & Hk%elem_of_map_to_list)%list_elem_of_fmap.
    simpl. split; [by apply Hp | apply not_elem_of_nil].
Qed.

(** Hydrating the serialized document rebuilds the store, provided no key
    is [__proto__]. *)
Lemma hydrate_serialize (w0 w : World) :
  store_inv w → no_proto_key w →
  hydrateWorldState StringToNumber w0 (serializeWorldState w) = (w, Normal).
Proof.
  intros Hw Hp. unfold hydrateWorldState, serializeWorldState. simpl.
  rewrite foldl_set_prop.
  - simpl. rewrite own_entries_NoDup.
    2:{ rewrite keyed_fmap_fst. apply NoDup_fst_map_to_list. }
    rewrite for_entries_fmap.
    + by rewrite foldl_insert_map_to_list.
    + intros [r chunks] Hr%elem_of_map_to_list. simpl.
      apply hydrate_room_serialize; [by eapply Hw|].
      intros c [bm Hc]. exact (proj2 (Hp _ _ Hr) c bm Hc).
  - apply NoDup_fst_map_to_list.
  - intros k ([k' chunks] & -> & Hk%elem_of_map_to_list)%list_elem_of_fmap.
    simpl. split; [exact (proj1 (Hp _ _ Hk)) | apply not_elem_of_nil].
Qed.

End RoundTrip.

(** ** The claims on hydration and on the serialized document *)

Example decimalToNumber_examples :
  decimalToNumber " 42 " = Finite 42 ∧ decimalToNumber "-7" = Finite (-7) ∧
  decimalToNumber "NaN" = NaN ∧ decimalToNumber "-Infinity" = NegInfinity ∧
  decimalToNumber " " = Finite 0 ∧ decimalToNumber "abc" = NaN.
Proof. vm_compute. done. Qed.

Lemma hydrate_guard (raw : value) :
  negb (truthy raw) || negb (typeof_object raw)
  || negb (truthy (get raw "rooms")) || negb (typeof_object (get raw "rooms")) = false
  ↔ has_object_rooms raw.
Proof.
  unfold has_object_rooms.
  destruct raw as [| |b|n|s|l|o]; simpl; rewrite ?orb_true_r;
    try (split; [done | by intros [[] _]]);
    try (split; [done | by intros [_ []]]).
  destruct (default VUndefined (assoc "rooms" o)) as [| |b|n|s|l|o']; simpl;
    rewrite ?orb_true_r;
    try (split; [done | by intros [_ []]]); by split.
Qed.

(** C10.  hydrateWorldState clears the store before it looks at its
    argument: when the argument is not an object with an object-valued
    [rooms] field the call returns with the empty store, whatever the store
    held before. *)
Theorem hydrate_invalid_clears (StringToNumber : string → number)
    (w : World) (raw : value) :
  ¬ has_object_rooms raw →
  hydrateWorldState StringToNumber w raw = (∅, Normal).
Proof.
  intros Hno. unfold hydrateWorldState. cbv zeta.
  destruct (negb (truthy raw) || negb (typeof_object raw)
            || negb (truthy (get raw "rooms"))
            || negb (typeof_object (get raw "rooms"))) eqn:Hg; [done|].
  by apply hydrate_guard in Hg.
Qed.

Lemma hydrate_invalid_clears_witness :
  run_calls [mkCall "GLOBAL" 1 2 3 5]
  = {[ "GLOBAL" := {[ "0,0" := {[ "1,2,3" := mkBlock 1 2 3 5 ]} ]} ]} ∧
  hydrateWorldState decimalToNumber (run_calls [mkCall "GLOBAL" 1 2 3 5])
    (VObject [("rooms", VString "none")]) = (∅, Normal).
Proof.
  split; [vm_compute; reflexivity|].
  apply (hydrate_invalid_clears decimalToNumber). by intros [_ []].
Defined.

(** The store is sparse.  In every store reachable from the empty store by
    setBlock calls and hydrations, every record has an id above 0, every
    room of the world map has a chunk and every chunk has a block. *)
Theorem store_sparse_positive (StringToNumber : string → number)
    (ops : list store_op) :
  let w := run_ops StringToNumber ops in
  (∀ r c k b, cell w r c k = Some b → 0 < bid b) ∧
  (∀ r chunks, w !! r = Some chunks → chunks ≠ ∅) ∧
  (∀ r chunks c cMap,
     w !! r = Some chunks → chunks !! c = Some cMap → cMap ≠ ∅).
Proof.
  intros w. pose proof (run_ops_store_inv StringToNumber ops) as Hinv.
  fold w in Hinv. split; [|split].
  - intros r c k b (chunks & cMap & Hr & Hc & Hk)%cell_Some.
    destruct (Hinv _ _ Hr) as [_ Hcs]. destruct (Hcs _ _ Hc) as [_ Hok].
    by destruct (Hok _ _ Hk).
  - intros r chunks Hr. by destruct (Hinv _ _ Hr).
  - intros r chunks c cMap Hr Hc. destruct (Hinv _ _ Hr) as [_ Hcs].
    by destruct (Hcs _ _ Hc).
Qed.

(** C3 (failing input).  After hydrating a world file whose room [R] has
    its only chunk under the key [__proto__], the store is sparse: it holds
    that chunk with its block.  serializeWorldState, whose assignment
    [roomData[cKey] = ...] sets the prototype for that key and adds no
    property, emits the room [R] with no chunk at all: an empty room entry
    in the serialized World. *)
Lemma serialized_world_empty_room :
  let w := run_ops decimalToNumber [OpHydrate proto_chunk_doc] in
  w = {[ "R" := {[ "__proto__" := {[ "1,2,3" := mkBlock 1 2 3 5 ]} ]} ]} ∧
  serializeWorldState w = VObject [("rooms", VObject [("R", VObject [])])] ∧
  ¬ serialized_sparse (serializeWorldState w).
Proof.
  assert (run_ops decimalToNumber [OpHydrate proto_chunk_doc]
          = {[ "R" := {[ "__proto__" := {[ "1,2,3" := mkBlock 1 2 3 5 ]} ]} ]}) as Hw
    by (vm_compute; reflexivity).
  assert (serializeWorldState
            (run_ops decimalToNumber [OpHydrate proto_chunk_doc])
          = VObject [("rooms", VObject [("R", VObject [])])]) as Hs
    by (vm_compute; reflexivity).
  cbv zeta. split; [done|]. split; [done|].
  rewrite Hs. intros Hsparse.
  destruct (Hsparse "R" (VObject [])) as [Hne _]; [|by apply Hne].
  simpl. rewrite filter_nil. by left.
Qed.

(** C2 (failing input).  After hydrating a world file whose only room is
    keyed [__proto__], the store holds that room; serializeWorldState emits
    a document without it, and hydrating that document gives the empty
    store. *)
Lemma round_trip_loses_proto_room :
  let w := run_ops decimalToNumber [OpHydrate proto_room_doc] in
  w = {[ "__proto__" := {[ "0,0" := {[ "1,2,3" := mkBlock 1 2 3 5 ]} ]} ]} ∧
  serializeWorldState w = VObject [("rooms", VObject [])] ∧
  hydrateWorldState decimalToNumber w (serializeWorldState w) = (∅, Normal).
Proof. split; [|split]; vm_compute; reflexivity. Qed.

(** ** normalizeRoom *)

Lemma toUpperCase_empty (s : string) :
  toUpperCase s = EmptyString ↔ s = EmptyString.
Proof. by destruct s. Qed.

Lemma slice0_empty (n : N) (s : string) :
  (0 < n)%N → slice0 n s = EmptyString ↔ s = EmptyString.
Proof.
  intros Hn. destruct s; simpl; [done|].
  by rewrite bool_decide_eq_false_2 by lia.
Qed.

Lemma slice0_length (n : N) (s : string) :
  (String.length (slice0 n s) ≤ N.to_nat n)%nat.
Proof.
  revert n. induction s as [|c s IH]; intros n; simpl; [lia|].
  case_bool_decide; simpl; [lia|]. specialize (IH (N.pred n)). lia.
Qed.

Lemma or_string_nonempty (a b : string) :
  b ≠ EmptyString → or_string a b ≠ EmptyString.
Proof. unfold or_string. by case_bool_decide. Qed.

Example normalizeRoom_examples :
  normalizeRoom (VString "abc ") = Ok "ABC" ∧
  normalizeRoom (VString "  my room 1 ") = Ok "MY ROOM 1" ∧
  normalizeRoom VUndefined = Ok "GLOBAL" ∧
  normalizeRoom (VString "   ") = Ok "GLOBAL" ∧
  normalizeRoom (VNumber (Finite 0)) = Ok "GLOBAL" ∧
  normalizeRoom (VNumber (Finite 7)) = Ok "7" ∧
  normalizeRoom (VBool true) = Ok "TRUE" ∧
  normalizeRoom (VArray [VNumber (Finite 1); VString "b"]) = Ok "1,B" ∧
  normalizeRoom (VObject []) = Ok "[OBJECT OBJECT]" ∧
  normalizeRoom (VObject [("toString", VNull)]) = TypeError ∧
  normalizeRoom (VString "abcdefghijklmnopqrstuvwxyz0123456789")
    = Ok "ABCDEFGHIJKLMNOPQRSTUVWXYZ012345".
Proof. vm_compute. done. Qed.

(** C8 (as stated, refuted).  The number 7 is not a string, and
    normalizeRoom returns the room key [7] for it, not [GLOBAL]. *)
Lemma normalizeRoom_non_string_kept :
  typeof_string (VNumber (Finite 7)) = false ∧
  normalizeRoom (VNumber (Finite 7)) = Ok "7" ∧
  normalizeRoom (VNumber (Finite 7)) ≠ Ok "GLOBAL".
Proof. by vm_compute. Qed.

(** C8 (amended).  On a string, normalizeRoom returns the text trimmed,
    then uppercased, then cut to its first 32 characters, and [GLOBAL] when
    the trimmed text is empty; on a falsy value (absent, null, false, 0,
    NaN, the empty string) it returns [GLOBAL]; a truthy value that is not a
    string is first converted by [String] and then treated like a string.
    The scenario input maps to [ABC], and every returned key is non-empty
    and at most 32 characters long. *)
Theorem normalizeRoom_spec :
  (∀ s, normalizeRoom (VString s)
        = Ok (if bool_decide (trim s = EmptyString) then "GLOBAL"
              else slice0 32 (toUpperCase (trim s)))) ∧
  (∀ v, truthy v = false → normalizeRoom v = Ok "GLOBAL") ∧
  (∀ v s, truthy v = true → ToString v = Ok s →
          normalizeRoom v = normalizeRoom (VString s)) ∧
  normalizeRoom (VString "abc ") = Ok "ABC" ∧
  (∀ v r, normalizeRoom v = Ok r →
          r ≠ EmptyString ∧ (String.length r ≤ 32)%nat).
Proof.
  assert (∀ s, or_string (slice0 32 (toUpperCase (trim s))) "GLOBAL"
               = if bool_decide (trim s = EmptyString) then "GLOBAL"
                 else slice0 32 (toUpperCase (trim s))) as Hor.
  { intros s. unfold or_string.
    rewrite (bool_decide_ext _ (trim s = EmptyString)); [done|].
    rewrite slice0_empty by lia. apply toUpperCase_empty. }
  split; [|split; [|split; [|split]]].
  - intros s. unfold normalizeRoom. simpl.
    destruct (decide (s = EmptyString)) as [->|Hs]; [done|].
    rewrite bool_decide_eq_false_2 by done. simpl. by rewrite Hor.
  - intros v Hv. unfold normalizeRoom. by rewrite Hv.
  - intros v s Hv Hs. unfold normalizeRoom. rewrite Hv, Hs. simpl.
    destruct (decide (s = EmptyString)) as [->|Hne]; [done|].
    by rewrite bool_decide_eq_false_2 by done.
  - by vm_compute.
  - intros v r. unfold normalizeRoom.
    destruct (ToString _) as [s|]; simpl; [|done]. intros [= <-]. split.
    + by apply or_string_nonempty.
    + unfold or_string. case_bool_decide; [simpl; lia|].
      apply (slice0_length 32).
Qed.

(** ** Room membership *)

Lemma addToRoom_unfold (rooms : gmap string (gset socket)) (ws : socket) (room : string) :
  addToRoom rooms ws room = <[room := {[ws]} ∪ members rooms room]> rooms.
Proof.
  unfold addToRoom, members. destruct (rooms !! room) as [s|] eqn:Hr; simpl.
  - by rewrite Hr.
  - rewrite lookup_insert_eq. simpl. by rewrite insert_insert_eq.
Qed.

Lemma removeFromRoom_unfold (rooms : gmap string (gset socket)) (ws : socket) (room : string) :
  removeFromRoom rooms ws room =
  match rooms !! room with
  | None => rooms
  | Some s => if decide (s ∖ {[ws]} = ∅) then delete room rooms
              else <[room := s ∖ {[ws]}]> rooms
  end.
Proof.
  unfold removeFromRoom. destruct (rooms !! room) as [s|]; [|done].
  cbv zeta. destruct (decide (s ∖ {[ws]} = ∅)) as [He|Hne].
  - rewrite bool_decide_eq_true_2 by (rewrite He; apply size_empty).
    by rewrite delete_insert_eq.
  - rewrite bool_decide_eq_false_2; [done|].
    intros Hs. apply Hne. apply leibniz_equiv. by apply size_empty_inv.
Qed.

Lemma members_addToRoom (rooms : gmap string (gset socket)) (ws ws' : socket)
    (room r : string) :
  ws' ∈ members (addToRoom rooms ws room) r ↔
  (ws' = ws ∧ r = room) ∨ ws' ∈ members rooms r.
Proof.
  rewrite addToRoom_unfold. unfold members at 1. rewrite lookup_insert.
  case_decide as Hr; simpl.
  - subst r. rewrite elem_of_union, elem_of_singleton. naive_solver.
  - fold (members rooms r). naive_solver.
Qed.

Lemma members_removeFromRoom (rooms : gmap string (gset socket)) (ws ws' : socket)
    (room r : string) :
  ws' ∈ members (removeFromRoom rooms ws room) r ↔
  ws' ∈ members rooms r ∧ ¬ (ws' = ws ∧ r = room).
Proof.
  rewrite removeFromRoom_unfold. unfold members.
  destruct (rooms !! room) as [s|] eqn:Hs.
  - case_decide as He.
    + rewrite lookup_delete. case_decide as Hr; simpl.
      * subst r. rewrite Hs. simpl. split; [by intros ?%elem_of_empty|].
        intros [Hin Hne]. exfalso.
        assert (ws' ∈ s ∖ {[ws]}) as Hd by set_solver.
        rewrite He in Hd. by apply elem_of_empty in Hd.
      * naive_solver.
    + rewrite lookup_insert. case_decide as Hr; simpl.
      * subst r. rewrite Hs. simpl. set_solver.
      * naive_solver.
  - split; [|naive_solver]. intros Hin. split; [done|]. intros [-> ->].
    rewrite Hs in Hin. simpl in Hin. by apply elem_of_empty in Hin.
Qed.

Lemma rooms_ok_addToRoom (rooms : gmap string (gset socket)) (ws : socket) (room : string) :
  rooms_ok rooms → rooms_ok (addToRoom rooms ws room).
Proof.
  intros Hok r s. rewrite addToRoom_unfold, lookup_insert.
  case_decide; [|apply Hok]. intros [= <-]. set_solver.
Qed.

Lemma rooms_ok_removeFromRoom (rooms : gmap string (gset socket)) (ws : socket) (room : string) :
  rooms_ok rooms → rooms_ok (removeFromRoom rooms ws room).
Proof.
  intros Hok r s. rewrite removeFromRoom_unfold.
  destruct (rooms !! room) as [s0|] eqn:Hs; [|apply Hok].
  case_decide as He.
  - rewrite lookup_delete. case_decide; [done | apply Hok].
  - rewrite lookup_insert. case_decide; [|apply Hok]. by intros [= <-].
Qed.

Lemma rooms_ok_members (rooms : gmap string (gset socket)) (r : string) :
  rooms_ok rooms → is_Some (rooms !! r) ↔ ∃ ws, ws ∈ members rooms r.
Proof.
  intros Hok. unfold members. split.
  - intros [s Hs]. rewrite Hs. simpl.
    apply set_choose_L. by eapply Hok.
  - intros [ws Hws]. destruct (rooms !! r); [done|].
    simpl in Hws. by apply elem_of_empty in Hws.
Qed.

Lemma elem_of_broadcastToRoom (rooms : gmap string (gset socket))
    (rs : socket → Z) (room : string) (p q : payload) (except : option socket)
    (c : socket) :
  (c, q) ∈ broadcastToRoom rooms rs room p except ↔
  q = p ∧ c ∈ members rooms room ∧ Some c ≠ except ∧ rs c = 1.
Proof.
  unfold broadcastToRoom, members. destruct (rooms !! room) as [s|]; simpl.
  - rewrite list_elem_of_fmap. split.
    + intros (c' & [= -> ->] & (Hc & Hin)%list_elem_of_filter).
      apply elem_of_elements in Hin. naive_solver.
    + intros (-> & Hin & Hne & Hrs). exists c. split; [done|].
      apply list_elem_of_filter. split; [done|]. by apply elem_of_elements.
  - split; [by intros ?%elem_of_nil|]. intros (_ & Hin & _).
    by apply elem_of_empty in Hin.
Qed.

(** ** The dispatcher keeps rooms and peers consistent *)

Lemma server_inv_frame (st st' : Server) :
  rooms st' = rooms st → (∀ ws, peer_room st' ws = peer_room st ws) →
  server_inv st → server_inv st'.
Proof.
  intros Hr Hp [Hok Hm]. split; rewrite Hr; [done|].
  intros ws r. by rewrite Hp.
Qed.

Lemma peer_room_insert (st : Server) (ps : gmap socket Peer) (ws ws' : socket)
    (p : Peer) :
  peer_room (set_peers st (<[ws := p]> ps)) ws'
  = if decide (ws = ws') then Some (p_room p) else p_room <$> ps !! ws'.
Proof. unfold peer_room. simpl. rewrite lookup_insert. by case_decide. Qed.

Section DispatcherInv.

Variable StringToNumber : string → number.

Local Abbreviation Number := (ToNumber StringToNumber).

Lemma on_connection_inv (st : Server) (ws : socket) :
  peers st !! ws = None → server_inv st → server_inv (on_connection st ws).
Proof.
  intros Hws [Hok Hm]. split; simpl.
  - by apply rooms_ok_addToRoom.
  - intros ws' r. rewrite members_addToRoom, Hm. unfold peer_room. simpl.
    rewrite lookup_insert. case_decide as Hd; simpl.
    + subst ws'. rewrite Hws. simpl. naive_solver.
    + naive_solver.
Qed.

Lemma on_JOIN_inv (st st' : Server) (ws : socket) (peer : Peer) (msg : value)
    (acts : list action) :
  peers st !! ws = Some peer →
  on_JOIN st ws peer msg = Ok (st', acts) →
  server_inv st → server_inv st'.
Proof.
  intros Hws. unfold on_JOIN.
  destruct (normalizeRoom (get msg "room")) as [room|]; simpl; [|done].
  intros [= <- _] [Hok Hm]. split; simpl.
  - case_bool_decide; [|done].
    by apply rooms_ok_addToRoom, rooms_ok_removeFromRoom.
  - intros ws' r. unfold peer_room. simpl. rewrite lookup_insert.
    assert (ws ∈ members (rooms st) (p_room peer)) as Hold.
    { apply Hm. unfold peer_room. by rewrite Hws. }
    case_bool_decide as Hroom.
    + rewrite members_addToRoom, members_removeFromRoom, Hm.
      unfold peer_room. case_decide as Hd; simpl.
      * subst ws'. rewrite Hws. simpl. naive_solver.
      * naive_solver.
    + assert (p_room peer = room) as <-
        by (destruct (decide (p_room peer = room)); [done | by destruct Hroom]).
      rewrite Hm. unfold peer_room. case_decide as Hd; simpl; [|done].
      subst ws'. by rewrite Hws.
Qed.

(** What the message handler leaves alone. *)
Lemma on_message_frame (st st' : Server) (ws : socket) (msg : value)
    (acts : list action) :
  on_message StringToNumber st ws msg = Ok (st', acts) →
  readyState st' = readyState st ∧
  (type_is msg "JOIN" = false →
     rooms st' = rooms st ∧ ∀ ws', peer_room st' ws' = peer_room st ws').
Proof.
  unfold on_message. destruct (peers st !! ws) as [peer|] eqn:Hws;
    [|by intros [= <- _]].
  case_match; [by intros [= <- _]|].
  destruct (type_is msg "JOIN").
  { unfold on_JOIN.
    destruct (normalizeRoom (get msg "room")) as [room|]; simpl; [|done].
    by intros [= <- _]. }
  destruct (type_is msg "CHAT").
  { unfold on_CHAT. destruct (ToString _); simpl; [|done]. by intros [= <- _]. }
  destruct (type_is msg "BLOCK").
  { unfold on_BLOCK.
    destruct (Number (get msg "x")) as [x|]; simpl; [|done].
    destruct (Number (get msg "y")) as [y|]; simpl; [|done].
    destruct (Number (get msg "z")) as [z|]; simpl; [|done].
    destruct (Number (get msg "id")) as [id|]; simpl; [|done].
    destruct x; try (by intros [= <- _]).
    destruct y; try (by intros [= <- _]).
    destruct z; try (by intros [= <- _]).
    destruct id; by intros [= <- _]. }
  destruct (type_is msg "CHUNK_REQUEST").
  { unfold on_CHUNK_REQUEST.
    destruct (Number (get msg "cx")) as [cx|]; simpl; [|done].
    destruct (Number (get msg "cz")) as [cz|]; simpl; [|done].
    destruct cx; try (by intros [= <- _]).
    destruct cz; by intros [= <- _]. }
  destruct (type_is msg "PLAYER_STATE"); [|by intros [= <- _]].
  unfold on_PLAYER_STATE.
  destruct (Number (get msg "x")) as [x|]; simpl; [|done].
  destruct (Number (get msg "y")) as [y|]; simpl; [|done].
  destruct (Number (get msg "z")) as [z|]; simpl; [|done].
  destruct (Number (get msg "yaw")) as [yaw|]; simpl; [|done].
  destruct (Number (get msg "pitch")) as [pitch|]; simpl; [|done].
  destruct (Number (get msg "punchAnim")) as [pa|]; simpl; [|done].
  destruct (Number (get msg "placeAnim")) as [pl|]; simpl; [|done].
  destruct (Number (get msg "heldBlock")) as [h|]; simpl; [|done].
  destruct x; try (by intros [= <- _]).
  destruct y; try (by intros [= <- _]).
  destruct z; try (by intros [= <- _]).
  destruct yaw; try (by intros [= <- _]).
  destruct pitch; try (by intros [= <- _]).
  intros [= <- _]. split; [done|]. intros _. split; [done|].
  intros ws'. rewrite peer_room_insert. unfold peer_room.
  case_decide; [|done]. subst ws'. by rewrite Hws.
Qed.

Lemma on_message_inv (st st' : Server) (ws : socket) (msg : value)
    (acts : list action) :
  on_message StringToNumber st ws msg = Ok (st', acts) →
  server_inv st → server_inv st'.
Proof.
  intros Hm Hinv. destruct (type_is msg "JOIN") eqn:Hj.
  - revert Hm. unfold on_message.
    destruct (peers st !! ws) as [peer|] eqn:Hws; [|by intros [= <- _]].
    case_match; [by intros [= <- _]|]. rewrite Hj. intros Hm.
    by eapply on_JOIN_inv.
  - destruct (on_message_frame _ _ _ _ _ Hm) as [_ Hf].
    destruct (Hf Hj) as [Hr Hp]. by eapply server_inv_frame.
Qed.

Lemma on_close_inv (st : Server) (ws : socket) :
  server_inv st → server_inv (on_close st ws).1.
Proof.
  intros [Hok Hm]. unfold on_close.
  destruct (peers st !! ws) as [peer|] eqn:Hws; [|done]. split; simpl.
  - by apply rooms_ok_removeFromRoom.
  - intros ws' r. rewrite members_removeFromRoom, Hm. unfold peer_room. simpl.
    rewrite lookup_delete. case_decide as Hd; simpl.
    + subst ws'. rewrite Hws. simpl. naive_solver.
    + naive_solver.
Qed.

Lemma step_inv (st st' : Server) (ev : event) (out : list (socket * payload)) :
  step StringToNumber st ev = Ok (st', out) → server_inv st → server_inv st'.
Proof.
  intros Hs Hinv. destruct ev as [ws|ws [msg|]|ws|ws]; simpl in Hs.
  - destruct (peers st !! ws) eqn:Hws; injection Hs as <- <-; [done|].
    by apply on_connection_inv.
  - destruct (on_message StringToNumber st ws msg) as [[st1 acts]|] eqn:Hm;
      [|done].
    injection Hs as <- <-. by eapply on_message_inv.
  - by injection Hs as <- <-.
  - by injection Hs as <- <-.
  - pose proof (on_close_inv (set_readyState st ws 3) ws Hinv) as Hc.
    destruct (on_close _ ws). by injection Hs as <- <-.
Qed.

(** A property that the start-up state has and that every event the
    process handles keeps holds in every state of the process. *)
Lemma run_from_invariant (P : Server → Prop) (st : Server) (evs : list event) :
  (∀ st st' ev out, step StringToNumber st ev = Ok (st', out) → P st → P st') →
  P st → P (run_from StringToNumber st evs).
Proof.
  intros Hstep. revert st. induction evs as [|ev evs IH]; intros st HP; [done|].
  simpl. destruct (step StringToNumber st ev) as [[st' out]|] eqn:Hs; [|done].
  eapply IH, Hstep; done.
Qed.

Lemma run_inv (w : World) (evs : list event) :
  server_inv (run StringToNumber w evs).
Proof.
  apply (run_from_invariant server_inv);
    [intros st st' ev out; apply step_inv|].
  split.
  - intros r s. simpl. by rewrite lookup_empty.
  - intros ws r. unfold members, peer_room. simpl.
    rewrite !lookup_empty. simpl.
    split; [by intros ?%elem_of_empty | done].
Qed.

End DispatcherInv.

(** ** The claims on rooms and on the dispatcher *)

Lemma type_is_excl (msg : value) (a b : string) :
  type_is msg a = true → type_is msg b = true → a = b.
Proof.
  unfold type_is. destruct (get msg "type"); try done.
  intros ?%bool_decide_eq_true ?%bool_decide_eq_true. congruence.
Qed.

(** C4.  In every state reached from start-up by connections, messages
    (JOIN among them) and disconnections, no empty membership set is kept
    in the map, so a room key is present exactly when the room has a
    member, and the members of a room are exactly the sockets whose peer
    record names it.  addToRoom and removeFromRoom keep the map free of
    empty sets from any such map, and removeFromRoom removes the given
    socket from the given room and nothing else. *)
Theorem room_present_iff_members (StringToNumber : string → number)
    (w : World) (evs : list event) :
  let st := run StringToNumber w evs in
  (∀ r s, rooms st !! r = Some s → s ≠ ∅) ∧
  (∀ r, is_Some (rooms st !! r) ↔ ∃ ws, ws ∈ members (rooms st) r) ∧
  (∀ ws r, ws ∈ members (rooms st) r ↔
           ∃ p, peers st !! ws = Some p ∧ p_room p = r) ∧
  (∀ rs ws room, rooms_ok rs →
     rooms_ok (addToRoom rs ws room) ∧ rooms_ok (removeFromRoom rs ws room)) ∧
  (∀ rs ws ws' room r,
     ws' ∈ members (removeFromRoom rs ws room) r ↔
     ws' ∈ members rs r ∧ ¬ (ws' = ws ∧ r = room)) ∧
  (∀ rs ws ws' room r,
     ws' ∈ members (addToRoom rs ws room) r ↔
     (ws' = ws ∧ r = room) ∨ ws' ∈ members rs r).
Proof.
  intros st. destruct (run_inv StringToNumber w evs) as [Hok Hm].
  fold st in Hok, Hm. split; [|split; [|split; [|split; [|split]]]].
  - apply Hok.
  - intros r. by apply rooms_ok_members.
  - intros ws r. rewrite Hm. unfold peer_room. split.
    + destruct (peers st !! ws) as [p|]; [|done]. intros [= <-]. by exists p.
    + intros (p & -> & <-). done.
  - intros rs ws room Hrs. split.
    + by apply rooms_ok_addToRoom.
    + by apply rooms_ok_removeFromRoom.
  - intros rs ws ws' room r. apply members_removeFromRoom.
  - intros rs ws ws' room r. apply members_addToRoom.
Qed.

Section DispatcherClaims.

Variable StringToNumber : string → number.

Local Abbreviation Number := (ToNumber StringToNumber).

(** The outcomes of the PLAYER_STATE handler. *)
Lemma on_PLAYER_STATE_cases (st : Server) (ws : socket) (peer : Peer) (msg : value) :
  on_PLAYER_STATE StringToNumber st ws peer msg = TypeError ∨
  on_PLAYER_STATE StringToNumber st ws peer msg = Ok (st, []) ∨
  ∃ x y z yaw pitch pa pl h,
    Number (get msg "x") = Ok (Finite x) ∧ Number (get msg "y") = Ok (Finite y) ∧
    Number (get msg "z") = Ok (Finite z) ∧
    Number (get msg "yaw") = Ok (Finite yaw) ∧
    Number (get msg "pitch") = Ok (Finite pitch) ∧
    Number (get msg "punchAnim") = Ok pa ∧ Number (get msg "placeAnim") = Ok pl ∧
    Number (get msg "heldBlock") = Ok h ∧
    let state := mkState x y z yaw pitch (truthy (get msg "moving"))
                   (truthy (get msg "crouching")) (finite_or pa 0)
                   (finite_or pl 0) (finite_or h 2) in
    on_PLAYER_STATE StringToNumber st ws peer msg
    = Ok (set_peers st
            (<[ws := mkPeer (p_id peer) (p_name peer) (p_skin peer)
                            (p_room peer) state]> (peers st)),
          [Broadcast (p_room peer)
             (PLAYER_STATE (p_id peer) (p_name peer) (p_skin peer) state)
             (Some ws)]).
Proof.
  unfold on_PLAYER_STATE.
  destruct (Number (get msg "x")) as [x|]; simpl; [|by left].
  destruct (Number (get msg "y")) as [y|]; simpl; [|by left].
  destruct (Number (get msg "z")) as [z|]; simpl; [|by left].
  destruct (Number (get msg "yaw")) as [yaw|]; simpl; [|by left].
  destruct (Number (get msg "pitch")) as [pitch|]; simpl; [|by left].
  destruct (Number (get msg "punchAnim")) as [pa|]; simpl; [|by left].
  destruct (Number (get msg "placeAnim")) as [pl|]; simpl; [|by left].
  destruct (Number (get msg "heldBlock")) as [h|]; simpl; [|by left].
  right.
  destruct x as [| | |x]; try (by left).
  destruct y as [| | |y]; try (by left).
  destruct z as [| | |z]; try (by left).
  destruct yaw as [| | |yaw]; try (by left).
  destruct pitch as [| | |pitch]; try (by left).
  right. by exists x, y, z, yaw, pitch, pa, pl, h.
Qed.

Lemma on_message_PLAYER_STATE (st : Server) (ws : socket) (peer : Peer) (msg : value) :
  peers st !! ws = Some peer → is_object msg →
  type_is msg "PLAYER_STATE" = true →
  on_message StringToNumber st ws msg
  = on_PLAYER_STATE StringToNumber st ws peer msg.
Proof.
  intros Hws Hobj Ht. unfold on_message. rewrite Hws.
  assert (negb (truthy msg) || negb (typeof_object msg) = false) as ->
    by (by destruct msg).
  assert (∀ t, t ≠ "PLAYER_STATE" → type_is msg t = false) as Hne.
  { intros t Hn. destruct (type_is msg t) eqn:Hb; [|done].
    destruct Hn. by eapply type_is_excl. }
  by rewrite !Hne, Ht by done.
Qed.

(** Dropped PLAYER_STATE messages.  When every coercion of the handler
    returns (none of the eight numeric fields makes [Number] raise) and one
    of x, y, z, yaw, pitch does not coerce to a finite number, the message
    is dropped: the handler returns, the whole state, the peer's stored
    state included, is as it was, and nothing is sent. *)
Lemma player_state_not_finite_dropped (st : Server) (ws : socket)
    (msg : value) (f : string) :
  type_is msg "PLAYER_STATE" = true →
  (∀ g, g ∈ ["x"; "y"; "z"; "yaw"; "pitch"; "punchAnim"; "placeAnim"; "heldBlock"] →
        ∃ n, Number (get msg g) = Ok n) →
  f ∈ ["x"; "y"; "z"; "yaw"; "pitch"] →
  (∀ n, Number (get msg f) ≠ Ok (Finite n)) →
  step StringToNumber st (Message ws (Some msg)) = Ok (st, []).
Proof.
  intros Ht Hret Hf Hn.
  assert (on_message StringToNumber st ws msg = Ok (st, [])) as Hm.
  { destruct (peers st !! ws) as [peer|] eqn:Hws;
      [|by unfold on_message; rewrite Hws].
    destruct (negb (truthy msg) || negb (typeof_object msg)) eqn:Hg;
      [by unfold on_message; rewrite Hws, Hg|].
    rewrite (on_message_PLAYER_STATE st ws peer msg Hws) by (by destruct msg).
    destruct (on_PLAYER_STATE_cases st ws peer msg)
      as [Hr| [->|(x & y & z & yaw & pitch & pa & pl & h
                   & Hx & Hy & Hz & Hyaw & Hpitch & _)]]; [|done|].
    - exfalso. revert Hr. unfold on_PLAYER_STATE.
      destruct (Hret "x") as [x ->]; [set_solver|].
      destruct (Hret "y") as [y ->]; [set_solver|].
      destruct (Hret "z") as [z ->]; [set_solver|].
      destruct (Hret "yaw") as [yaw ->]; [set_solver|].
      destruct (Hret "pitch") as [pitch ->]; [set_solver|].
      destruct (Hret "punchAnim") as [pa ->]; [set_solver|].
      destruct (Hret "placeAnim") as [pl ->]; [set_solver|].
      destruct (Hret "heldBlock") as [h ->]; [set_solver|].
      simpl. by destruct x, y, z, yaw, pitch.
    - exfalso. repeat (apply elem_of_cons in Hf as [->|Hf]);
        [..|by apply elem_of_nil in Hf]; by eapply Hn. }
  simpl. by rewrite Hm.
Qed.

End DispatcherClaims.

Section BroadcastClaims.

Variable StringToNumber : string → number.

Local Abbreviation Number := (ToNumber StringToNumber).

Lemma relay_on_message_PLAYER_STATE (st : Server) (ws : socket) (peer : Peer)
    (msg : value) :
  peers st !! ws = Some peer → is_object msg →
  type_is msg "PLAYER_STATE" = true →
  Relay.on_message StringToNumber st ws msg
  = Relay.on_PLAYER_STATE StringToNumber st ws peer msg.
Proof.
  intros Hws Hobj Ht. unfold Relay.on_message. rewrite Hws.
  assert (negb (truthy msg) || negb (typeof_object msg) = false) as ->
    by (by destruct msg).
  assert (∀ t, t ≠ "PLAYER_STATE" → type_is msg t = false) as Hne.
  { intros t Hn. destruct (type_is msg t) eqn:Hb; [|done].
    destruct Hn. by eapply type_is_excl. }
  by rewrite !Hne, Ht by done.
Qed.

(** C9 (amended).  For an accepted PLAYER_STATE message (x, y, z, yaw and
    pitch coerce to finite numbers and no coercion raises) whose heldBlock
    is absent or does not coerce to a finite number, the stored and the
    broadcast heldBlock are the handler's default: 2 in server.js, 0 in the
    relay without a world store. *)
Theorem heldBlock_default (st : Server) (ws : socket) (peer : Peer)
    (msg : value) (x y z yaw pitch : Z) (pa pl h : number) :
  peers st !! ws = Some peer → is_object msg →
  type_is msg "PLAYER_STATE" = true →
  Number (get msg "x") = Ok (Finite x) → Number (get msg "y") = Ok (Finite y) →
  Number (get msg "z") = Ok (Finite z) →
  Number (get msg "yaw") = Ok (Finite yaw) →
  Number (get msg "pitch") = Ok (Finite pitch) →
  Number (get msg "punchAnim") = Ok pa → Number (get msg "placeAnim") = Ok pl →
  Number (get msg "heldBlock") = Ok h → isFinite h = false →
  (∃ state,
     on_message StringToNumber st ws msg
     = Ok (set_peers st
             (<[ws := mkPeer (p_id peer) (p_name peer) (p_skin peer)
                             (p_room peer) state]> (peers st)),
           [Broadcast (p_room peer)
              (PLAYER_STATE (p_id peer) (p_name peer) (p_skin peer) state)
              (Some ws)]) ∧
     st_heldBlock state = 2) ∧
  (∃ state,
     Relay.on_message StringToNumber st ws msg
     = Ok (set_peers st
             (<[ws := mkPeer (p_id peer) (p_name peer) (p_skin peer)
                             (p_room peer) state]> (peers st)),
           [Broadcast (p_room peer)
              (PLAYER_STATE (p_id peer) (p_name peer) (p_skin peer) state)
              (Some ws)]) ∧
     st_heldBlock state = 0).
Proof.
  intros Hws Hobj Ht Hx Hy Hz Hyaw Hpitch Hpa Hpl Hh Hfin. split.
  - rewrite (on_message_PLAYER_STATE StringToNumber st ws peer msg) by done.
    unfold on_PLAYER_STATE. rewrite Hx, Hy, Hz, Hyaw, Hpitch, Hpa, Hpl, Hh.
    simpl. eexists. split; [reflexivity|]. simpl. by destruct h.
  - rewrite (relay_on_message_PLAYER_STATE st ws peer msg) by done.
    unfold Relay.on_PLAYER_STATE.
    rewrite Hx, Hy, Hz, Hyaw, Hpitch, Hpa, Hpl, Hh.
    simpl. eexists. split; [reflexivity|]. simpl. by destruct h.
Qed.

Lemma on_message_broadcasts (st st' : Server) (A : socket) (pa : Peer)
    (msg : value) (acts : list action) :
  peers st !! A = Some pa →
  type_is msg "CHAT" || type_is msg "BLOCK" || type_is msg "PLAYER_STATE" = true →
  on_message StringToNumber st A msg = Ok (st', acts) →
  ∀ act, act ∈ acts →
    ∃ p except, act = Broadcast (p_room pa) p except ∧
                (except = None ∨ except = Some A).
Proof.
  intros Hws Ht. unfold on_message. rewrite Hws.
  case_match; [by intros [= _ <-] act ?%elem_of_nil|].
  assert (∀ t, t ≠ "CHAT" → t ≠ "BLOCK" → t ≠ "PLAYER_STATE" →
               type_is msg t = false) as Hne.
  { intros t H1 H2 H3. destruct (type_is msg t) eqn:Hb; [|done].
    apply orb_true_iff in Ht as [[Ht|Ht]%orb_true_iff|Ht];
      pose proof (type_is_excl _ _ _ Hb Ht); done. }
  rewrite (Hne "JOIN") by done.
  destruct (type_is msg "CHAT").
  { unfold on_CHAT. destruct (ToString _); simpl; [|done].
    intros [= _ <-] act ->%list_elem_of_singleton. eauto. }
  destruct (type_is msg "BLOCK").
  { unfold on_BLOCK.
    destruct (Number (get msg "x")) as [x|]; simpl; [|done].
    destruct (Number (get msg "y")) as [y|]; simpl; [|done].
    destruct (Number (get msg "z")) as [z|]; simpl; [|done].
    destruct (Number (get msg "id")) as [id|]; simpl; [|done].
    destruct x; try (by intros [= _ <-] act ?%elem_of_nil).
    destruct y; try (by intros [= _ <-] act ?%elem_of_nil).
    destruct z; try (by intros [= _ <-] act ?%elem_of_nil).
    destruct id; try (by intros [= _ <-] act ?%elem_of_nil).
    intros [= _ <-] act ->%list_elem_of_singleton. eauto. }
  rewrite (Hne "CHUNK_REQUEST") by done.
  destruct (type_is msg "PLAYER_STATE"); [|by intros [= _ <-] act ?%elem_of_nil].
  destruct (on_PLAYER_STATE_cases StringToNumber st A pa msg)
    as [->| [->|(x & y & z & yaw & pitch & pa' & pl & h & _ & _ & _ & _ & _
                  & _ & _ & _ & ->)]]; [done|by intros [= _ <-] act ?%elem_of_nil|].
  intros [= _ <-] act ->%list_elem_of_singleton. eauto.
Qed.

(** C5 (amended).  In every reachable state, for distinct registered peers
    [A] and [B], every broadcast that a CHAT, BLOCK or PLAYER_STATE message
    of [A] triggers targets the room of [A] and is sent exactly to the
    members of that room whose connection is open (readyState 1), the
    excluded socket apart; so [B] gets nothing when it is in another room,
    and gets the broadcast when it is in the same room and its connection
    is open. *)
Theorem broadcast_reaches_open_room_members (w : World) (evs : list event)
    (A B : socket) (pa pb : Peer) (msg : value) (st' : Server)
    (acts : list action) (act : action) :
  let st := run StringToNumber w evs in
  peers st !! A = Some pa → peers st !! B = Some pb → A ≠ B →
  type_is msg "CHAT" || type_is msg "BLOCK" || type_is msg "PLAYER_STATE" = true →
  on_message StringToNumber st A msg = Ok (st', acts) →
  act ∈ acts →
  ∃ p except,
    act = Broadcast (p_room pa) p except ∧
    (∀ c q, (c, q) ∈ perform st' act ↔
            q = p ∧ c ∈ members (rooms st) (p_room pa) ∧ Some c ≠ except ∧
            readyState st c = 1) ∧
    (p_room pb ≠ p_room pa → ∀ q, (B, q) ∉ perform st' act) ∧
    (p_room pb = p_room pa → readyState st B = 1 → (B, p) ∈ perform st' act).
Proof.
  intros st HA HB Hne Ht Hm Hact.
  destruct (on_message_broadcasts st st' A pa msg acts HA Ht Hm act Hact)
    as (p & except & -> & Hex).
  destruct (on_message_frame StringToNumber st st' A msg acts Hm) as [Hrs Hf].
  destruct Hf as [Hrooms _].
  { destruct (type_is msg "JOIN") eqn:Hj; [|done].
    apply orb_true_iff in Ht as [[Ht|Ht]%orb_true_iff|Ht];
      pose proof (type_is_excl _ _ _ Hj Ht); done. }
  destruct (run_inv StringToNumber w evs) as [_ Hmem]. fold st in Hmem.
  assert (∀ c q, (c, q) ∈ perform st' (Broadcast (p_room pa) p except) ↔
            q = p ∧ c ∈ members (rooms st) (p_room pa) ∧ Some c ≠ except ∧
            readyState st c = 1) as Hdeliver.
  { intros c q. simpl. rewrite Hrooms, Hrs. apply elem_of_broadcastToRoom. }
  assert (B ∈ members (rooms st) (p_room pa) ↔ p_room pb = p_room pa) as HBin.
  { rewrite Hmem. unfold peer_room. rewrite HB. simpl. split; congruence. }
  exists p, except. split; [done|]. split; [done|]. split.
  - intros Hroom q (_ & Hin & _)%Hdeliver. by apply Hroom, HBin.
  - intros Hroom Hopen. apply Hdeliver. split; [done|]. split; [by apply HBin|].
    split; [|done]. destruct Hex as [-> | ->]; [done|]. congruence.
Qed.

End BroadcastClaims.

(** ** Closed instances *)

(** The scenario of the specification: two peers join the room [ABC], a
    block placed by the first reaches the second and is listed by a chunk
    request, and after its removal the chunk request lists nothing. *)
Example scenario_trace :
  trace decimalToNumber (init ∅)
    [Connection 1; Connection 2;
     Message 1 (Some (join_msg (VString "abc ")));
     Message 2 (Some (join_msg (VString "ABC")));
     Message 1 (Some (block_msg 5));
     Message 2 (Some chunk_request_msg);
     Message 1 (Some (block_msg 0));
     Message 2 (Some chunk_request_msg);
     Close 1]
  = [[]; [];
     [(1%nat, SYSTEM "Joined room ABC"); (1%nat, ROOM_SNAPSHOT []);
      (1%nat, SELF "p1")];
     [(2%nat, SYSTEM "Joined room ABC");
      (2%nat, ROOM_SNAPSHOT [mkSummary "p1" "Ann" EmptyString (initial_state 2)]);
      (2%nat, SELF "p2"); (1%nat, PLAYER_JOIN "p2" "Ann" EmptyString);
      (1%nat, SYSTEM "Ann joined.")];
     [(2%nat, BLOCK 1 2 3 5)];
     [(2%nat, CHUNK_DATA 0 0 [mkBlock 1 2 3 5])];
     [(2%nat, BLOCK 1 2 3 0)];
     [(2%nat, CHUNK_DATA 0 0 [])];
     [(2%nat, PLAYER_LEAVE "p1"); (2%nat, SYSTEM "Ann left.")]].
Proof. vm_compute. reflexivity. Qed.

Example hydrate_discards_malformed :
  hydrateWorldState decimalToNumber ∅ malformed_doc
  = ({[ "A" := {[ "0,0" := {[ "1,2,3" := mkBlock 1 2 3 5 ]} ]} ]}, Normal).
Proof. vm_compute. reflexivity. Qed.

Example hydrate_raise_keeps_earlier_rooms :
  hydrateWorldState decimalToNumber ∅ raising_doc
  = ({[ "A" := {[ "0,0" := {[ "1,2,3" := mkBlock 1 2 3 5 ]} ]} ]}, Raised).
Proof. vm_compute. reflexivity. Qed.

(** C6 (a defect of the code).  A connected peer sends a PLAYER_STATE
    message whose yaw is an object with an own [toString] that is not a
    function.  The yaw does not coerce to a finite number: [Number(msg.yaw)]
    raises.  The message is not dropped: the exception escapes the message
    handler, whose [try] covers [JSON.parse] alone, and ends the process.
    No later event is handled: the CHAT of the second peer, which the
    state before the raise would deliver, is not delivered. *)
Theorem player_state_raise_ends_process :
  let st := run decimalToNumber ∅ [Connection 1; Connection 2] in
  let msg := player_state_msg (VObject [("toString", VNumber (Finite 1))]) in
  type_is msg "PLAYER_STATE" = true ∧
  ToNumber decimalToNumber (get msg "yaw") = TypeError ∧
  on_message decimalToNumber st 1 msg = TypeError ∧
  step decimalToNumber st (Message 1 (Some msg)) = TypeError ∧
  alive decimalToNumber (init ∅)
    [Connection 1; Connection 2; Message 1 (Some msg)] = false ∧
  trace decimalToNumber (init ∅)
    [Connection 1; Connection 2; Message 1 (Some msg); Message 2 (Some chat_msg)]
  = [[]; []] ∧
  ∃ out, step decimalToNumber st (Message 2 (Some chat_msg)) = Ok (st, out) ∧
         (2%nat, CHAT "Player" "hi") ∈ out.
Proof.
  repeat split; try (vm_compute; reflexivity).
  exists [(2%nat, CHAT "Player" "hi"); (1%nat, CHAT "Player" "hi")].
  split; [vm_compute; reflexivity | by left].
Qed.

(** The same message with a yaw that coerces to NaN is dropped, and the
    process goes on. *)
Example player_state_NaN_dropped :
  let st := run decimalToNumber ∅ [Connection 1] in
  step decimalToNumber st (Message 1 (Some (player_state_msg (VString "NaN"))))
  = Ok (st, []).
Proof.
  apply (player_state_not_finite_dropped decimalToNumber
           (run decimalToNumber ∅ [Connection 1]) 1
           (player_state_msg (VString "NaN")) "yaw").
  - reflexivity.
  - intros g Hg. repeat (apply elem_of_cons in Hg as [->|Hg]);
      [..|by apply elem_of_nil in Hg]; by eexists.
  - by repeat constructor.
  - intros n. vm_compute. discriminate.
Qed.

Lemma heldBlock_default_witness :
  let st := run decimalToNumber ∅ [Connection 1] in
  let msg := player_state_msg (VNumber (Finite 90)) in
  let peer := first_peer 2 in
  (∃ state,
     on_message decimalToNumber st 1 msg
     = Ok (set_peers st
             (<[1%nat := mkPeer (p_id peer) (p_name peer) (p_skin peer)
                                (p_room peer) state]> (peers st)),
           [Broadcast (p_room peer)
              (PLAYER_STATE (p_id peer) (p_name peer) (p_skin peer) state)
              (Some 1%nat)]) ∧
     st_heldBlock state = 2) ∧
  (∃ state,
     Relay.on_message decimalToNumber st 1 msg
     = Ok (set_peers st
             (<[1%nat := mkPeer (p_id peer) (p_name peer) (p_skin peer)
                                (p_room peer) state]> (peers st)),
           [Broadcast (p_room peer)
              (PLAYER_STATE (p_id peer) (p_name peer) (p_skin peer) state)
              (Some 1%nat)]) ∧
     st_heldBlock state = 0).
Proof.
  apply (heldBlock_default decimalToNumber
           (run decimalToNumber ∅ [Connection 1]) 1 (first_peer 2)
           (player_state_msg (VNumber (Finite 90))) 1 2 3 90 0 NaN NaN NaN);
    by vm_compute.
Defined.

(** C9 (as stated, refuted).  In the relay without a world store, a peer
    that has just connected sends an accepted PLAYER_STATE message without
    heldBlock: the stored and the broadcast heldBlock are 0, not 2. *)
Lemma relay_heldBlock_default_zero :
  let st := Relay.on_connection (init ∅) 1 in
  let state := mkState 1 2 3 90 0 true false 0 0 0 in
  Relay.on_message decimalToNumber st 1 (player_state_msg (VNumber (Finite 90)))
  = Ok (set_peers st (<[1%nat := mkPeer "p1" "Player" EmptyString "GLOBAL" state]>
                        (peers st)),
        [Broadcast "GLOBAL" (PLAYER_STATE "p1" "Player" EmptyString state)
                   (Some 1%nat)]) ∧
  st_heldBlock state ≠ 2.
Proof. split; [vm_compute; reflexivity | by vm_compute]. Qed.

(** C5 (as stated, refuted).  Sockets 1 and 2 are both members of GLOBAL;
    the connection of 2 has started closing.  A CHAT message of 1 is sent
    to 1 alone: 2 is in the same room and does not receive it. *)
Lemma closing_member_gets_no_broadcast :
  let st := run decimalToNumber ∅ [Connection 1; Connection 2; Closing 2] in
  peer_room st 1 = Some "GLOBAL" ∧ peer_room st 2 = Some "GLOBAL" ∧
  members (rooms st) "GLOBAL" = {[1%nat; 2%nat]} ∧
  step decimalToNumber st (Message 1 (Some chat_msg))
  = Ok (st, [(1%nat, CHAT "Player" "hi")]).
Proof. repeat split; vm_compute; reflexivity. Qed.

Lemma broadcast_reaches_open_room_members_witness :
  let st := run decimalToNumber ∅ [Connection 1; Connection 2] in
  let act := Broadcast "GLOBAL" (CHAT "Player" "hi") None in
  ∃ p except,
    act = Broadcast "GLOBAL" p except ∧
    (∀ c q, (c, q) ∈ perform st act ↔
            q = p ∧ c ∈ members (rooms st) "GLOBAL" ∧ Some c ≠ except ∧
            readyState st c = 1) ∧
    ("GLOBAL" ≠ "GLOBAL" → ∀ q, (2%nat, q) ∉ perform st act) ∧
    ("GLOBAL" = "GLOBAL" → readyState st 2 = 1 → (2%nat, p) ∈ perform st act).
Proof.
  apply (broadcast_reaches_open_room_members decimalToNumber ∅
           [Connection 1; Connection 2] 1 2
           (first_peer 2) (mkPeer "p2" "Player" EmptyString "GLOBAL" (initial_state 2))
           chat_msg (run decimalToNumber ∅ [Connection 1; Connection 2])
           [Broadcast "GLOBAL" (CHAT "Player" "hi") None]).
  - by vm_compute.
  - by vm_compute.
  - lia.
  - reflexivity.
  - by vm_compute.
  - by left.
Defined.

(** ** The serialized document of a store without [__proto__] keys *)

Lemma serialize_room_entries (chunks : Chunks) :
  map_Forall (λ c (_ : gmap string Block), c ≠ "__proto__") chunks →
  Object_entries (serialize_room chunks)
  = (λ kv, (kv.1, block_values kv.2)) <$> map_to_list chunks.
Proof.
  intros Hp. unfold serialize_room. simpl. rewrite foldl_set_prop.
  - simpl. apply own_entries_NoDup. rewrite keyed_fmap_fst.
    apply NoDup_fst_map_to_list.
  - apply NoDup_fst_map_to_list.
  - intros k ([k' bm] & -> & Hk%elem_of_map_to_list)%list_elem_of_fmap.
    simpl. split; [by apply (Hp _ _ Hk) | apply not_elem_of_nil].
Qed.

Lemma serializeWorldState_entries (w : World) :
  no_proto_key w →
  Object_entries (get (serializeWorldState w) "rooms")
  = (λ kv, (kv.1, serialize_room kv.2)) <$> map_to_list w.
Proof.
  intros Hp. unfold serializeWorldState. simpl. rewrite foldl_set_prop.
  - simpl. apply own_entries_NoDup. rewrite keyed_fmap_fst.
    apply NoDup_fst_map_to_list.
  - apply NoDup_fst_map_to_list.
  - intros k ([k' chunks] & -> & Hk%elem_of_map_to_list)%list_elem_of_fmap.
    simpl. split; [exact (proj1 (Hp _ _ Hk)) | apply not_elem_of_nil].
Qed.

(** X1.  Round trip.  For every store reachable by setBlock calls and
    hydrations in which no room and no chunk is keyed [__proto__],
    hydrating the serialized document returns normally with the same
    store, whatever the store held before, and serializing the hydrated
    store gives the same document again. *)
Theorem reachable_round_trip (StringToNumber : string → number)
    (ops : list store_op) (w0 : World) :
  let w := run_ops StringToNumber ops in
  no_proto_key w →
  hydrateWorldState StringToNumber w0 (serializeWorldState w) = (w, Normal) ∧
  serializeWorldState
    (hydrateWorldState StringToNumber w0 (serializeWorldState w)).1
  = serializeWorldState w.
Proof.
  intros w Hp.
  assert (hydrateWorldState StringToNumber w0 (serializeWorldState w)
          = (w, Normal)) as Hh
    by (apply hydrate_serialize; [apply run_ops_store_inv | done]).
  split; [done|]. by rewrite Hh.
Qed.

Lemma reachable_round_trip_witness :
  let ops := [OpSetBlock (mkCall "ABC" 1 2 3 5);
              OpSetBlock (mkCall "ABC" 20 2 3 7);
              OpHydrate (serializeWorldState
                           (run_calls [mkCall "XYZ" (-1) 0 (-17) 9]));
              OpSetBlock (mkCall "ABC" 1 2 3 0)] in
  let w := run_ops decimalToNumber ops in
  w = {[ "XYZ" := {[ "-1,-2" := {[ "-1,0,-17" := mkBlock (-1) 0 (-17) 9 ]} ]} ]} ∧
  hydrateWorldState decimalToNumber ∅ (serializeWorldState w) = (w, Normal) ∧
  serializeWorldState
    (hydrateWorldState decimalToNumber ∅ (serializeWorldState w)).1
  = serializeWorldState w.
Proof.
  split; [vm_compute; reflexivity|].
  apply (reachable_round_trip decimalToNumber).
  apply (bool_decide_unpack _). by vm_compute.
Defined.

(** X2.  Sparse document.  For every such store the serialized World has no
    empty room entry and no empty chunk entry. *)
Theorem reachable_serialized_sparse (StringToNumber : string → number)
    (ops : list store_op) :
  let w := run_ops StringToNumber ops in
  no_proto_key w → serialized_sparse (serializeWorldState w).
Proof.
  intros w Hp r roomData. rewrite serializeWorldState_entries by done.
  intros ([r' chunks] & [= -> ->] & Hr%elem_of_map_to_list)%list_elem_of_fmap.
  cbn [fst snd]. destruct (run_ops_store_inv StringToNumber ops _ _ Hr) as [Hne Hcs].
  rewrite serialize_room_entries by exact (proj2 (Hp _ _ Hr)). split.
  - intros Hnil%fmap_nil_inv. by apply map_to_list_empty_iff in Hnil.
  - intros c blocks
      ([c' bm] & [= -> ->] & Hc%elem_of_map_to_list)%list_elem_of_fmap.
    cbn [fst snd]. destruct (Hcs _ _ Hc) as [Hbm _]. unfold block_values.
    intros [= Hnil]. apply fmap_nil_inv in Hnil. apply fmap_nil_inv in Hnil.
    by apply map_to_list_empty_iff in Hnil.
Qed.

Lemma reachable_serialized_sparse_witness :
  serialized_sparse
    (serializeWorldState
       (run_ops decimalToNumber [OpSetBlock (mkCall "ABC" 1 2 3 5)])).
Proof.
  apply (reachable_serialized_sparse decimalToNumber
           [OpSetBlock (mkCall "ABC" 1 2 3 5)]).
  apply (bool_decide_unpack _). by vm_compute.
Defined.

(** ** Laws of setRoomBlock on a sparse store *)

Lemma store_inv_cell_key (w : World) (r c k : string) (b : Block) :
  store_inv w → cell w r c k = Some b →
  0 < bid b ∧ k = blockKey (bx b) (by_ b) (bz b).
Proof.
  intros Hw (chunks & cMap & Hr & Hc & Hk)%cell_Some.
  destruct (Hw _ _ Hr) as [_ Hcs]. destruct (Hcs _ _ Hc) as [_ Hok].
  by apply Hok.
Qed.

Lemma lookup_chunk_setRoomBlock (w : World) (room : string) (x y z id : Z)
    (r c : string) :
  r ≠ room ∨ c ≠ blockChunkKey x z →
  setRoomBlock w room x y z id !! r ≫= (.!! c) = w !! r ≫= (.!! c).
Proof.
  intros Hne. rewrite setRoomBlock_unfold. cbv zeta.
  set (cKey := blockChunkKey x z) in *.
  destruct (decide (r = room)) as [->|Hr].
  2:{ assert (room ≠ r) by done.
      repeat case_bool_decide;
        by rewrite ?lookup_insert_ne, ?lookup_delete_ne by done. }
  destruct Hne as [?|Hc]; [done|]. assert (cKey ≠ c) by done.
  destruct (w !! room) as [chunks|] eqn:Hw; simpl;
    repeat case_bool_decide;
    rewrite ?lookup_insert_eq, ?lookup_delete_eq; simpl;
    rewrite ?lookup_insert_ne, ?lookup_delete_ne, ?lookup_empty by done;
    try done.
  all: by erewrite delete_empty_lookup by done.
Qed.

Lemma getChunkBlocks_lookup (w : World) (room : string) (cx cz : Z) :
  getChunkBlocks w room cx cz
  = match w !! room ≫= (.!! chunkKey cx cz) with
    | Some cMap => (map_to_list cMap).*2
    | None => []
    end.
Proof. unfold getChunkBlocks. by destruct (w !! room). Qed.

Lemma elem_of_getChunkBlocks_setRoomBlock (w : World) (room : string)
    (x y z id : Z) (b : Block) :
  store_inv w →
  b ∈ getChunkBlocks (setRoomBlock w room x y z id) room (x `div` 16) (z `div` 16)
  ↔ (0 < id ∧ b = mkBlock x y z id) ∨
    (b ∈ getChunkBlocks w room (x `div` 16) (z `div` 16) ∧
     (bx b, by_ b, bz b) ≠ (x, y, z)).
Proof.
  intros Hw. rewrite !elem_of_getChunkBlocks, <-blockChunkKey_chunkKey. split.
  - intros [k Hk]. rewrite cell_setRoomBlock in Hk.
    case_decide as Hd.
    + case_bool_decide; [done|]. left. split; [lia | congruence].
    + right. split; [by exists k|].
      destruct (store_inv_cell_key _ _ _ _ _ Hw Hk) as [_ ->].
      intros [= <- <- <-]. by apply Hd.
  - intros [[Hid ->]|[[k Hk] Hne]].
    + exists (blockKey x y z). rewrite cell_setRoomBlock, decide_True by done.
      by rewrite bool_decide_eq_false_2 by lia.
    + exists k. rewrite cell_setRoomBlock, decide_False; [done|].
      intros (_ & _ & ->).
      destruct (store_inv_cell_key _ _ _ _ _ Hw Hk) as [_ Hkey].
      apply blockKey_inj in Hkey as (? & ? & ?). apply Hne. congruence.
Qed.

(** X3. Set, then read. On a sparse store, after setRoomBlock the chunk of
    the coordinate lists what it listed before without the record of that
    coordinate, and the new record when the id is positive. *)
Theorem getChunkBlocks_after_setRoomBlock (w : World) (room : string)
    (x y z id : Z) (b : Block) :
  store_inv w →
  b ∈ getChunkBlocks (setRoomBlock w room x y z id) room (x `div` 16) (z `div` 16)
  ↔ (0 < id ∧ b = mkBlock x y z id) ∨
    (b ∈ getChunkBlocks w room (x `div` 16) (z `div` 16) ∧
     (bx b, by_ b, bz b) ≠ (x, y, z)).
Proof. apply elem_of_getChunkBlocks_setRoomBlock. Qed.

Lemma getChunkBlocks_after_setRoomBlock_witness :
  let w := run_calls [mkCall "ABC" 1 2 3 5; mkCall "ABC" 4 2 3 6] in
  mkBlock 1 2 3 7 ∈ getChunkBlocks (setRoomBlock w "ABC" 1 2 3 7) "ABC" (1 `div` 16) (3 `div` 16)
  ↔ (0 < 7 ∧ mkBlock 1 2 3 7 = mkBlock 1 2 3 7) ∨
    (mkBlock 1 2 3 7 ∈ getChunkBlocks w "ABC" (1 `div` 16) (3 `div` 16) ∧
     (bx (mkBlock 1 2 3 7), by_ (mkBlock 1 2 3 7), bz (mkBlock 1 2 3 7)) ≠ (1, 2, 3)).
Proof.
  apply (getChunkBlocks_after_setRoomBlock
           (run_calls [mkCall "ABC" 1 2 3 5; mkCall "ABC" 4 2 3 6]) "ABC" 1 2 3 7).
  apply run_calls_store_inv.
Defined.

(** X4. Frame. setRoomBlock changes what getChunkBlocks returns for no other
    room and for no other chunk of the same room, on any store. *)
Theorem setRoomBlock_other_chunks_unchanged (w : World) (room : string)
    (x y z id : Z) (room' : string) (cx cz : Z) :
  room' ≠ room ∨ cx ≠ x `div` 16 ∨ cz ≠ z `div` 16 →
  getChunkBlocks (setRoomBlock w room x y z id) room' cx cz
  = getChunkBlocks w room' cx cz.
Proof.
  intros Hne. rewrite !getChunkBlocks_lookup, lookup_chunk_setRoomBlock; [done|].
  destruct Hne as [?|Hc]; [by left|right].
  rewrite blockChunkKey_chunkKey. intros [-> ->]%chunkKey_inj. by destruct Hc.
Qed.

Lemma setRoomBlock_other_chunks_unchanged_witness :
  let w := run_calls [mkCall "ABC" 1 2 3 5; mkCall "XYZ" 1 2 3 6] in
  getChunkBlocks (setRoomBlock w "ABC" 1 2 3 0) "XYZ" 0 0 = [mkBlock 1 2 3 6] ∧
  getChunkBlocks (setRoomBlock w "ABC" 1 2 3 0) "XYZ" 0 0
  = getChunkBlocks w "XYZ" 0 0.
Proof.
  split; [vm_compute; reflexivity|].
  apply (setRoomBlock_other_chunks_unchanged
           (run_calls [mkCall "ABC" 1 2 3 5; mkCall "XYZ" 1 2 3 6])
           "ABC" 1 2 3 0 "XYZ" 0 0).
  left. discriminate.
Defined.

Lemma setRoomBlock_twice (w : World) (room : string) (x y z id1 id2 : Z) :
  store_inv w →
  setRoomBlock (setRoomBlock w room x y z id1) room x y z id2
  = setRoomBlock w room x y z id2.
Proof.
  intros Hw. apply store_ext; [by repeat apply setRoomBlock_store_inv..|].
  intros r c k. rewrite !cell_setRoomBlock. by case_decide.
Qed.

(** X5. A second write to a coordinate overrides the first: on a sparse
    store the result is that of the second write alone, whatever the two
    ids. *)
Theorem setRoomBlock_overwrite (w : World) (room : string) (x y z id1 id2 : Z) :
  store_inv w →
  setRoomBlock (setRoomBlock w room x y z id1) room x y z id2
  = setRoomBlock w room x y z id2 ∧
  block_at (setRoomBlock (setRoomBlock w room x y z id1) room x y z id2) room x y z
  = if bool_decide (id2 ≤ 0) then None else Some (mkBlock x y z id2).
Proof.
  intros Hw. split; [by apply setRoomBlock_twice|].
  unfold block_at. by rewrite cell_setRoomBlock, decide_True.
Qed.

Lemma setRoomBlock_overwrite_witness :
  let w := run_calls [mkCall "ABC" 4 2 3 6] in
  setRoomBlock (setRoomBlock w "ABC" 1 2 3 5) "ABC" 1 2 3 0
  = setRoomBlock w "ABC" 1 2 3 0 ∧
  block_at (setRoomBlock (setRoomBlock w "ABC" 1 2 3 5) "ABC" 1 2 3 0) "ABC" 1 2 3
  = if bool_decide (0 ≤ 0) then None else Some (mkBlock 1 2 3 0).
Proof.
  apply (setRoomBlock_overwrite (run_calls [mkCall "ABC" 4 2 3 6]) "ABC" 1 2 3 5 0).
  apply run_calls_store_inv.
Defined.

(** X6. Removing what is not there changes nothing, and placing a block at a
    free coordinate and removing it again gives the store back, containers
    included. *)
Theorem setRoomBlock_remove_restores (w : World) (room : string)
    (x y z id id' : Z) :
  store_inv w → block_at w room x y z = None → id' ≤ 0 →
  setRoomBlock w room x y z id' = w ∧
  setRoomBlock (setRoomBlock w room x y z id) room x y z id' = w.
Proof.
  intros Hw Hfree Hid.
  assert (setRoomBlock w room x y z id' = w) as Hrm.
  { apply store_ext; [by apply setRoomBlock_store_inv | done |].
    intros r c k. rewrite cell_setRoomBlock. case_decide as Hd; [|done].
    destruct Hd as (-> & -> & ->). rewrite bool_decide_eq_true_2 by done.
    symmetry. apply Hfree. }
  split; [done|]. by rewrite setRoomBlock_twice.
Qed.

Lemma setRoomBlock_remove_restores_witness :
  let w := run_calls [mkCall "ABC" 4 2 3 6] in
  setRoomBlock w "XYZ" 1 2 3 0 = w ∧
  setRoomBlock (setRoomBlock w "XYZ" 1 2 3 9) "XYZ" 1 2 3 0 = w.
Proof.
  apply (setRoomBlock_remove_restores (run_calls [mkCall "ABC" 4 2 3 6])
           "XYZ" 1 2 3 9 0).
  - apply run_calls_store_inv.
  - vm_compute; reflexivity.
  - lia.
Defined.

(** X7. Writes to different coordinates, or to different rooms, commute on a
    sparse store. *)
Theorem setRoomBlock_commute (w : World) (r1 r2 : string)
    (x1 y1 z1 id1 x2 y2 z2 id2 : Z) :
  store_inv w → (r1, x1, y1, z1) ≠ (r2, x2, y2, z2) →
  setRoomBlock (setRoomBlock w r1 x1 y1 z1 id1) r2 x2 y2 z2 id2
  = setRoomBlock (setRoomBlock w r2 x2 y2 z2 id2) r1 x1 y1 z1 id1.
Proof.
  intros Hw Hne. apply store_ext; [by repeat apply setRoomBlock_store_inv..|].
  intros r c k. rewrite !cell_setRoomBlock.
  destruct (decide (r = r2 ∧ c = blockChunkKey x2 z2 ∧ k = blockKey x2 y2 z2))
    as [(-> & -> & ->)|?]; [|done].
  destruct (decide (r2 = r1 ∧ blockChunkKey x2 z2 = blockChunkKey x1 z1
                    ∧ blockKey x2 y2 z2 = blockKey x1 y1 z1))
    as [(-> & _ & (-> & -> & ->)%blockKey_inj)|?]; [|done].
  by destruct Hne.
Qed.

Lemma setRoomBlock_commute_witness :
  setRoomBlock (setRoomBlock (run_calls [mkCall "ABC" 4 2 3 6]) "ABC" 1 2 3 5)
               "ABC" 4 2 3 0
  = setRoomBlock (setRoomBlock (run_calls [mkCall "ABC" 4 2 3 6]) "ABC" 4 2 3 0)
                 "ABC" 1 2 3 5.
Proof.
  apply (setRoomBlock_commute (run_calls [mkCall "ABC" 4 2 3 6])
           "ABC" "ABC" 1 2 3 5 4 2 3 0).
  - apply run_calls_store_inv.
  - discriminate.
Defined.

(** ** Hydration: where the records come from, and what a raise leaves *)

Lemma for_entries_lookup {A} (body : value → result (option A))
    (entries : list (string * value)) (acc : gmap string A) (k : string) (a : A) :
  (for_entries body entries acc).1 !! k = Some a →
  acc !! k = Some a ∨ ∃ v, (k, v) ∈ entries ∧ body v = Ok (Some a).
Proof.
  revert acc. induction entries as [|[k0 v0] rest IH]; intros acc; simpl; [by left|].
  destruct (body v0) as [[a0|]|] eqn:Hb; simpl.
  - intros [Hacc|(v & Hin & Hv)]%IH.
    + rewrite lookup_insert in Hacc. case_decide; [|by left].
      simplify_eq. right. exists v0. split; [left | done].
    + right. exists v. split; [by right | done].
  - intros [Hacc|(v & Hin & Hv)]%IH; [by left|].
    right. exists v. split; [by right | done].
  - by left.
Qed.

Lemma for_entries_app {A} (body : value → result (option A))
    (l1 l2 : list (string * value)) (acc : gmap string A) :
  for_entries body (l1 ++ l2) acc
  = match for_entries body l1 acc with
    | (acc', Normal) => for_entries body l2 acc'
    | (acc', Raised) => (acc', Raised)
    end.
Proof.
  revert acc. induction l1 as [|[k v] l1 IH]; intros acc; simpl; [done|].
  by destruct (body v) as [[a|]|].
Qed.

Section HydrateFacts.

Variable StringToNumber : string → number.

Local Abbreviation Number := (ToNumber StringToNumber).

Lemma hydrate_block_Some (v : value) (b : Block) :
  hydrate_block StringToNumber v = Ok (Some b) ↔
  Number (get v "x") = Ok (Finite (bx b)) ∧
  Number (get v "y") = Ok (Finite (by_ b)) ∧
  Number (get v "z") = Ok (Finite (bz b)) ∧
  Number (get v "id") = Ok (Finite (bid b)) ∧ 0 < bid b.
Proof.
  unfold hydrate_block. split.
  - destruct (Number (get v "x")) as [x|]; simpl; [|done].
    destruct (Number (get v "y")) as [y|]; simpl; [|done].
    destruct (Number (get v "z")) as [z|]; simpl; [|done].
    destruct (Number (get v "id")) as [id|]; simpl; [|done].
    destruct x, y, z, id; try done.
    case_bool_decide; [done|]. intros [= <-]. simpl.
    repeat split; try done. lia.
  - intros (-> & -> & -> & -> & Hid). simpl.
    rewrite bool_decide_eq_false_2 by lia. by destruct b.
Qed.

Lemma hydrate_blocks_lookup (blocks : list value) (acc bm : gmap string Block)
    (k : string) (b : Block) :
  hydrate_blocks StringToNumber blocks acc = Ok bm → bm !! k = Some b →
  acc !! k = Some b ∨
  ∃ v, v ∈ blocks ∧ hydrate_block StringToNumber v = Ok (Some b) ∧
       k = blockKey (bx b) (by_ b) (bz b).
Proof.
  revert acc. induction blocks as [|v0 rest IH]; intros acc; simpl.
  - intros [= <-]. by left.
  - destruct (hydrate_block StringToNumber v0) as [[b0|]|] eqn:Hb; simpl; [| |done].
    + intros Hr Hk. destruct (IH _ Hr Hk) as [Hacc|(v & Hin & Hv & Hkey)].
      * rewrite lookup_insert in Hacc. case_decide as Hd; [|by left].
        simplify_eq. right. exists v0. split; [left | done].
      * right. exists v. split; [by right | done].
    + intros Hr Hk. destruct (IH _ Hr Hk) as [Hacc|(v & Hin & Hv & Hkey)]; [by left|].
      right. exists v. split; [by right | done].
Qed.

(** X8. hydrateWorldState invents nothing: every record of the store it
    leaves, whether it returned or raised, was built from an element of an
    array that the document lists under that room and that chunk key, whose
    x, y, z and id coerce to the record's finite numbers, with a positive
    id; the chunk key is the document's, and the block key that of the
    coordinates. *)
Theorem hydrate_records_come_from_document (w : World) (raw : value)
    (r c k : string) (b : Block) :
  cell (hydrateWorldState StringToNumber w raw).1 r c k = Some b →
  ∃ roomData blocks v,
    (r, roomData) ∈ Object_entries (get raw "rooms") ∧
    (c, VArray blocks) ∈ Object_entries roomData ∧ v ∈ blocks ∧
    Number (get v "x") = Ok (Finite (bx b)) ∧
    Number (get v "y") = Ok (Finite (by_ b)) ∧
    Number (get v "z") = Ok (Finite (bz b)) ∧
    Number (get v "id") = Ok (Finite (bid b)) ∧
    0 < bid b ∧ k = blockKey (bx b) (by_ b) (bz b).
Proof.
  intros (chunks & cMap & Hr & Hc & Hk)%cell_Some. revert Hr.
  unfold hydrateWorldState. cbv zeta. case_match; [simpl; by rewrite lookup_empty|].
  intros [Hr|(roomData & Hin & Hroom)]%for_entries_lookup;
    [by rewrite lookup_empty in Hr|].
  exists roomData. revert Hroom. unfold hydrate_room. case_match; [done|].
  destruct (for_entries _ _ _) as [chunks' []] eqn:Hf; [|done].
  case_bool_decide; [|done]. intros [= ->].
  assert ((for_entries (hydrate_chunk StringToNumber) (Object_entries roomData) ∅).1
          !! c = Some cMap) as Hc' by (by rewrite Hf).
  apply for_entries_lookup in Hc' as [Hc'|(blocks & Hcin & Hchunk)];
    [by rewrite lookup_empty in Hc'|].
  revert Hchunk. unfold hydrate_chunk. destruct blocks as [| | | | |l|]; try done.
  destruct (hydrate_blocks StringToNumber l ∅) as [bm|] eqn:Hl; simpl; [|done].
  case_bool_decide; [|done]. intros [= ->].
  destruct (hydrate_blocks_lookup _ _ _ _ _ Hl Hk) as [He|(v & Hv & Hb & Hkey)];
    [by rewrite lookup_empty in He|].
  apply hydrate_block_Some in Hb as (Hx & Hy & Hz & Hid & Hpos).
  exists l, v. done.
Qed.

(** X9. When the hydration of a room raises, hydrateWorldState raises and
    the store holds what the rooms listed before it gave: the rooms listed
    after it are not loaded. *)
Theorem hydrate_raise_keeps_prefix (w : World) (pre post : list (string * value))
    (r : string) (bad : value) :
  NoDup (pre ++ (r, bad) :: post).*1 →
  hydrate_room StringToNumber bad = TypeError →
  (hydrateWorldState StringToNumber w (VObject [("rooms", VObject pre)])).2 = Normal →
  hydrateWorldState StringToNumber w
    (VObject [("rooms", VObject (pre ++ (r, bad) :: post))])
  = ((hydrateWorldState StringToNumber w (VObject [("rooms", VObject pre)])).1,
     Raised).
Proof.
  intros Hnd Hbad. unfold hydrateWorldState. simpl.
  rewrite !own_entries_NoDup; [|done|].
  2:{ rewrite fmap_app in Hnd. by apply NoDup_app in Hnd as (? & _). }
  rewrite for_entries_app.
  destruct (for_entries _ pre ∅) as [acc []]; simpl; [|done].
  intros _. by rewrite Hbad.
Qed.

End HydrateFacts.

Lemma hydrate_records_come_from_document_witness :
  ∃ roomData blocks v,
    ("A", roomData) ∈ Object_entries (get malformed_doc "rooms") ∧
    ("0,0", VArray blocks) ∈ Object_entries roomData ∧ v ∈ blocks ∧
    ToNumber decimalToNumber (get v "x") = Ok (Finite 1) ∧
    ToNumber decimalToNumber (get v "y") = Ok (Finite 2) ∧
    ToNumber decimalToNumber (get v "z") = Ok (Finite 3) ∧
    ToNumber decimalToNumber (get v "id") = Ok (Finite 5) ∧
    0 < 5 ∧ "1,2,3" = blockKey 1 2 3.
Proof.
  apply (hydrate_records_come_from_document decimalToNumber ∅ malformed_doc
           "A" "0,0" "1,2,3" (mkBlock 1 2 3 5)).
  vm_compute; reflexivity.
Defined.

Lemma hydrate_raise_keeps_prefix_witness :
  let good := VObject [("0,0", VArray [block_value (mkBlock 1 2 3 5)])] in
  let bad := VObject [("0,0", VArray [VObject [("x", VObject [("toString", VNull)])]])] in
  hydrateWorldState decimalToNumber ∅
    (VObject [("rooms", VObject ([("A", good)] ++ ("B", bad) :: [("C", good)]))])
  = ((hydrateWorldState decimalToNumber ∅
        (VObject [("rooms", VObject [("A", good)])])).1, Raised).
Proof.
  apply (hydrate_raise_keeps_prefix decimalToNumber ∅
           [("A", VObject [("0,0", VArray [block_value (mkBlock 1 2 3 5)])])]
           [("C", VObject [("0,0", VArray [block_value (mkBlock 1 2 3 5)])])]
           "B"
           (VObject [("0,0", VArray [VObject [("x", VObject [("toString", VNull)])]])])).
  - apply (bool_decide_unpack _). by vm_compute.
  - vm_compute; reflexivity.
  - vm_compute; reflexivity.
Defined.

(** ** Room names are case-insensitive *)

Lemma upper_char_idem (c : ascii) : upper_char (upper_char c) = upper_char c.
Proof. by destruct c as [[] [] [] [] [] [] [] []]; vm_compute. Qed.

Lemma is_space_upper_char (c : ascii) :
  Ascii.is_space (upper_char c) = Ascii.is_space c.
Proof. by destruct c as [[] [] [] [] [] [] [] []]; vm_compute. Qed.

Lemma toUpperCase_idem (s : string) : toUpperCase (toUpperCase s) = toUpperCase s.
Proof. induction s as [|c s IH]; simpl; [done|]. by rewrite upper_char_idem, IH. Qed.

Lemma trimStart_toUpperCase (s : string) :
  trimStart (toUpperCase s) = toUpperCase (trimStart s).
Proof.
  induction s as [|c s IH]; simpl; [done|].
  rewrite is_space_upper_char. by destruct (Ascii.is_space c).
Qed.

Lemma rev_app_toUpperCase (s t : string) :
  String.rev_app (toUpperCase s) (toUpperCase t)
  = toUpperCase (String.rev_app s t).
Proof.
  revert t. induction s as [|c s IH]; intros t; simpl; [done|].
  by rewrite <-IH.
Qed.

Lemma trim_toUpperCase (s : string) : trim (toUpperCase s) = toUpperCase (trim s).
Proof.
  unfold trim, String.rev.
  rewrite trimStart_toUpperCase.
  rewrite (rev_app_toUpperCase _ EmptyString), trimStart_toUpperCase.
  by rewrite (rev_app_toUpperCase _ EmptyString).
Qed.

(** X10. Two strings that differ only in the case of their letters name the
    same room. *)
Theorem normalizeRoom_case_insensitive (s1 s2 : string) :
  toUpperCase s1 = toUpperCase s2 →
  normalizeRoom (VString s1) = normalizeRoom (VString s2).
Proof.
  intros Heq.
  assert (∀ s, normalizeRoom (VString s)
               = Ok (or_string (slice0 32 (trim (toUpperCase s))) "GLOBAL")) as Hn.
  { intros s. unfold normalizeRoom. simpl.
    destruct (decide (s = EmptyString)) as [->|Hs]; [done|].
    rewrite bool_decide_eq_false_2 by done. simpl.
    by rewrite trim_toUpperCase. }
  by rewrite !Hn, Heq.
Qed.

Lemma normalizeRoom_case_insensitive_witness :
  normalizeRoom (VString " My Room ") = Ok "MY ROOM" ∧
  normalizeRoom (VString " My Room ") = normalizeRoom (VString " mY rOOM ").
Proof.
  split; [vm_compute; reflexivity|].
  apply normalizeRoom_case_insensitive. vm_compute; reflexivity.
Defined.

(** ** Outcomes of the handlers *)

Section HandlerOutcomes.

Variable StringToNumber : string → number.

Local Abbreviation Number := (ToNumber StringToNumber).

Lemma on_JOIN_Ok (st st' : Server) (ws : socket) (peer : Peer) (msg : value)
    (acts : list action) :
  on_JOIN st ws peer msg = Ok (st', acts) →
  ∃ room,
    normalizeRoom (get msg "room") = Ok room ∧
    let name := string_or (get msg "name") 24 "Player" in
    let skin := string_or (get msg "skin") 200000 EmptyString in
    let peer' := mkPeer (p_id peer) name skin room (p_state peer) in
    let rs := if bool_decide (p_room peer ≠ room)
              then addToRoom (removeFromRoom (rooms st) ws (p_room peer)) ws room
              else rooms st in
    st' = mkServer (<[ws := peer']> (peers st)) rs (nextPeerId st)
                   (roomChunks st) (readyState st) ∧
    acts = [Send ws (SYSTEM ("Joined room " +:+ room));
            Send ws (ROOM_SNAPSHOT (snapshot (<[ws := peer']> (peers st))
                                             (rs !! room) ws));
            Send ws (SELF (p_id peer));
            Broadcast room (PLAYER_JOIN (p_id peer) name skin) (Some ws);
            Broadcast room (SYSTEM (name +:+ " joined.")) (Some ws)].
Proof.
  unfold on_JOIN.
  destruct (normalizeRoom (get msg "room")) as [room|]; simpl; [|done].
  intros [= <- <-]. by exists room.
Qed.

Lemma on_CHAT_Ok (st st' : Server) (ws : socket) (peer : Peer) (msg : value)
    (acts : list action) :
  on_CHAT st ws peer msg = Ok (st', acts) →
  ∃ s,
    ToString (if truthy (get msg "text") then get msg "text"
              else VString EmptyString) = Ok s ∧
    st' = st ∧
    acts = [Broadcast (p_room peer) (CHAT (p_name peer) (slice0 280 s)) None].
Proof.
  unfold on_CHAT. destruct (ToString _) as [s|]; simpl; [|done].
  intros [= <- <-]. by exists s.
Qed.

Lemma on_BLOCK_Ok (st st' : Server) (ws : socket) (peer : Peer) (msg : value)
    (acts : list action) :
  on_BLOCK StringToNumber st ws peer msg = Ok (st', acts) →
  (st' = st ∧ acts = []) ∨
  ∃ x y z id,
    Number (get msg "x") = Ok (Finite x) ∧ Number (get msg "y") = Ok (Finite y) ∧
    Number (get msg "z") = Ok (Finite z) ∧ Number (get msg "id") = Ok (Finite id) ∧
    st' = set_roomChunks st (setRoomBlock (roomChunks st) (p_room peer) x y z id) ∧
    acts = [Broadcast (p_room peer) (BLOCK x y z id) (Some ws)].
Proof.
  unfold on_BLOCK.
  destruct (Number (get msg "x")) as [x|]; simpl; [|done].
  destruct (Number (get msg "y")) as [y|]; simpl; [|done].
  destruct (Number (get msg "z")) as [z|]; simpl; [|done].
  destruct (Number (get msg "id")) as [id|]; simpl; [|done].
  destruct x as [| | |x]; try (intros [= <- <-]; by left).
  destruct y as [| | |y]; try (intros [= <- <-]; by left).
  destruct z as [| | |z]; try (intros [= <- <-]; by left).
  destruct id as [| | |id]; try (intros [= <- <-]; by left).
  intros [= <- <-]. right. by exists x, y, z, id.
Qed.

Lemma on_CHUNK_REQUEST_Ok (st st' : Server) (ws : socket) (peer : Peer)
    (msg : value) (acts : list action) :
  on_CHUNK_REQUEST StringToNumber st ws peer msg = Ok (st', acts) →
  st' = st ∧
  (acts = [] ∨
   ∃ cx cz,
     Number (get msg "cx") = Ok (Finite cx) ∧ Number (get msg "cz") = Ok (Finite cz) ∧
     acts = [Send ws (CHUNK_DATA cx cz
                        (getChunkBlocks (roomChunks st) (p_room peer) cx cz))]).
Proof.
  unfold on_CHUNK_REQUEST.
  destruct (Number (get msg "cx")) as [cx|]; simpl; [|done].
  destruct (Number (get msg "cz")) as [cz|]; simpl; [|done].
  destruct cx as [| | |cx]; try (intros [= <- <-]; split; [done | by left]).
  destruct cz as [| | |cz]; try (intros [= <- <-]; split; [done | by left]).
  intros [= <- <-]. split; [done|]. right. by exists cx, cz.
Qed.

Lemma on_PLAYER_STATE_Ok (st st' : Server) (ws : socket) (peer : Peer)
    (msg : value) (acts : list action) :
  on_PLAYER_STATE StringToNumber st ws peer msg = Ok (st', acts) →
  (st' = st ∧ acts = []) ∨
  ∃ state,
    st' = set_peers st (<[ws := mkPeer (p_id peer) (p_name peer) (p_skin peer)
                                       (p_room peer) state]> (peers st)) ∧
    acts = [Broadcast (p_room peer)
              (PLAYER_STATE (p_id peer) (p_name peer) (p_skin peer) state)
              (Some ws)].
Proof.
  destruct (on_PLAYER_STATE_cases StringToNumber st ws peer msg)
    as [->| [->|(x & y & z & yaw & pitch & pa & pl & h & _ & _ & _ & _ & _
                 & _ & _ & _ & ->)]]; [done| |].
  - intros [= <- <-]. by left.
  - intros [= <- <-]. right. by eexists.
Qed.

(** The message handler returns without effect, or runs the handler that
    the type of the message selects, for the peer record of the socket. *)
Lemma on_message_cases (st st' : Server) (ws : socket) (msg : value)
    (acts : list action) :
  on_message StringToNumber st ws msg = Ok (st', acts) →
  (st' = st ∧ acts = []) ∨
  ∃ peer, peers st !! ws = Some peer ∧ is_object msg ∧
    ((type_is msg "JOIN" = true ∧ on_JOIN st ws peer msg = Ok (st', acts)) ∨
     (type_is msg "CHAT" = true ∧ on_CHAT st ws peer msg = Ok (st', acts)) ∨
     (type_is msg "BLOCK" = true ∧
      on_BLOCK StringToNumber st ws peer msg = Ok (st', acts)) ∨
     (type_is msg "CHUNK_REQUEST" = true ∧
      on_CHUNK_REQUEST StringToNumber st ws peer msg = Ok (st', acts)) ∨
     (type_is msg "PLAYER_STATE" = true ∧
      on_PLAYER_STATE StringToNumber st ws peer msg = Ok (st', acts))).
Proof.
  unfold on_message. destruct (peers st !! ws) as [peer|] eqn:Hws;
    [|intros [= <- <-]; by left].
  destruct (negb (truthy msg) || negb (typeof_object msg)) eqn:Hg;
    [intros [= <- <-]; by left|].
  assert (is_object msg) as Hobj
    by (destruct msg; simpl in Hg; rewrite ?orb_true_r in Hg; done).
  destruct (type_is msg "JOIN") eqn:?; [right; exists peer; eauto 10|].
  destruct (type_is msg "CHAT") eqn:?; [right; exists peer; eauto 10|].
  destruct (type_is msg "BLOCK") eqn:?; [right; exists peer; eauto 10|].
  destruct (type_is msg "CHUNK_REQUEST") eqn:?; [right; exists peer; eauto 10|].
  destruct (type_is msg "PLAYER_STATE") eqn:?; [right; exists peer; eauto 10|].
  intros [= <- <-]. by left.
Qed.

(** What a message can do to the peers: nothing, or replace the record of
    the sender by one with the same id, which either keeps name, skin and
    room or takes them from a JOIN. *)
Lemma on_message_peers (st st' : Server) (ws : socket) (msg : value)
    (acts : list action) :
  on_message StringToNumber st ws msg = Ok (st', acts) →
  nextPeerId st' = nextPeerId st ∧ readyState st' = readyState st ∧
  (peers st' = peers st ∨
   ∃ peer peer',
     peers st !! ws = Some peer ∧ peers st' = <[ws := peer']> (peers st) ∧
     p_id peer' = p_id peer ∧
     ((p_name peer' = p_name peer ∧ p_skin peer' = p_skin peer ∧
       p_room peer' = p_room peer) ∨
      (type_is msg "JOIN" = true ∧ p_state peer' = p_state peer ∧
       p_name peer' = string_or (get msg "name") 24 "Player" ∧
       p_skin peer' = string_or (get msg "skin") 200000 EmptyString ∧
       normalizeRoom (get msg "room") = Ok (p_room peer')))).
Proof.
  intros [[-> ->]|(peer & Hws & _ & Hcase)]%on_message_cases; [by auto|].
  destruct Hcase as [[Ht H]|[[Ht H]|[[Ht H]|[[Ht H]|[Ht H]]]]].
  - apply on_JOIN_Ok in H as (room & Hroom & -> & _). simpl.
    split; [done|]. split; [done|]. right. eexists peer, _.
    split; [done|]. split; [done|]. split; [done|]. right. done.
  - apply on_CHAT_Ok in H as (s & _ & -> & _). auto.
  - apply on_BLOCK_Ok in H as [[-> _]|(x & y & z & id & _ & _ & _ & _ & -> & _)];
      auto.
  - apply on_CHUNK_REQUEST_Ok in H as [-> _]. auto.
  - apply on_PLAYER_STATE_Ok in H as [[-> _]|(state & -> & _)]; [auto|].
    simpl. split; [done|]. split; [done|]. right. eexists peer, _.
    split; [done|]. split; [done|]. split; [done|]. left. done.
Qed.

End HandlerOutcomes.

(** ** Steps of the dispatcher, read through the peers and the store *)

Lemma lookup_setRoomBlock_ne (w : World) (room : string) (x y z id : Z) (r : string) :
  r ≠ room → setRoomBlock w room x y z id !! r = w !! r.
Proof.
  intros Hne. assert (room ≠ r) by done. rewrite setRoomBlock_unfold. cbv zeta.
  repeat case_bool_decide;
    by rewrite ?lookup_insert_ne, ?lookup_delete_ne by done.
Qed.

Lemma normalizeRoom_bounds (v : value) (r : string) :
  normalizeRoom v = Ok r → r ≠ EmptyString ∧ (String.length r ≤ 32)%nat.
Proof.
  unfold normalizeRoom. destruct (ToString _) as [s|]; simpl; [|done].
  intros [= <-]. split.
  - by apply or_string_nonempty.
  - unfold or_string. case_bool_decide; [simpl; lia|]. apply (slice0_length 32).
Qed.

Lemma string_or_length (v : value) (n : N) (d : string) :
  (N.of_nat (String.length d) ≤ n)%N →
  (N.of_nat (String.length (string_or v n d)) ≤ n)%N.
Proof.
  intros Hd. destruct v; simpl; try done.
  pose proof (slice0_length n s). lia.
Qed.

Section DispatcherSteps.

Variable StringToNumber : string → number.

Local Abbreviation Number := (ToNumber StringToNumber).

Local Abbreviation step := (step StringToNumber).

Local Abbreviation run := (run StringToNumber).

Lemma run_invariant (P : Server → Prop) (w : World) (evs : list event) :
  P (init w) → (∀ st st' ev out, step st ev = Ok (st', out) → P st → P st') →
  P (run w evs).
Proof. intros Hinit Hstep. by apply (run_from_invariant StringToNumber P). Qed.

(** What one event does to the peers and to the id counter. *)
Lemma step_peers (st st' : Server) (ev : event) (out : list (socket * payload)) :
  step st ev = Ok (st', out) →
  (peers st' = peers st ∧ nextPeerId st' = nextPeerId st) ∨
  (∃ ws, peers st !! ws = None ∧ nextPeerId st' = nextPeerId st + 1 ∧
     peers st' = <[ws := mkPeer ("p" +:+ pretty (nextPeerId st)) "Player"
                            EmptyString "GLOBAL" (initial_state 2)]> (peers st)) ∨
  (∃ ws peer peer',
     peers st !! ws = Some peer ∧ peers st' = <[ws := peer']> (peers st) ∧
     nextPeerId st' = nextPeerId st ∧ p_id peer' = p_id peer ∧
     (peer_bounded peer → peer_bounded peer')) ∨
  (∃ ws, peers st' = delete ws (peers st) ∧ nextPeerId st' = nextPeerId st).
Proof.
  destruct ev as [ws|ws [msg|]|ws|ws]; simpl.
  - destruct (peers st !! ws) eqn:Hws; intros [= <- <-]; [by left|].
    right. left. by exists ws.
  - destruct (on_message StringToNumber st ws msg) as [[st1 acts]|] eqn:Hm;
      [|done].
    intros [= <- <-]. destruct (on_message_peers _ _ _ _ _ _ Hm)
      as (Hn & _ & [Hp|(peer & peer' & Hws & Hp & Hid & Hf)]); [by left|].
    right. right. left. exists ws, peer, peer'.
    split; [done|]. split; [done|]. split; [done|]. split; [done|].
    destruct Hf as [(Hname & Hskin & Hroom)|(_ & _ & Hname & Hskin & Hroom)].
    + unfold peer_bounded. by rewrite Hname, Hskin, Hroom.
    + intros _. unfold peer_bounded. rewrite Hname, Hskin.
      destruct (normalizeRoom_bounds _ _ Hroom) as [? ?].
      pose proof (string_or_length (get msg "name") 24 "Player").
      pose proof (string_or_length (get msg "skin") 200000 EmptyString).
      simpl in *. repeat split; try done; lia.
  - intros [= <- <-]. by left.
  - intros [= <- <-]. by left.
  - unfold on_close. simpl.
    destruct (peers st !! ws) eqn:Hws; intros [= <- <-]; simpl; [|by left].
    right. right. right. by exists ws.
Qed.

Lemma p_id_inj (n m : Z) : "p" +:+ pretty n = "p" +:+ pretty m → n = m.
Proof. cbn. intros [= H]. by apply (inj pretty). Qed.

Lemma step_ids_inv (st st' : Server) (ev : event) (out : list (socket * payload)) :
  step st ev = Ok (st', out) → ids_inv st → ids_inv st'.
Proof.
  intros Hs (H1 & Hn & Hu).
  destruct (step_peers st st' ev out Hs)
    as [[Hp Hc]|[(ws & Hws & Hc & Hp)|[(ws & peer & peer' & Hws & Hp & Hc & Hid & _)
                                       |(ws & Hp & Hc)]]];
    unfold ids_inv; rewrite Hp, Hc.
  - done.
  - split; [lia|]. split.
    + intros c p. rewrite lookup_insert. case_decide.
      * intros [= <-]. exists (nextPeerId st). simpl. split; [lia | done].
      * intros (n & ? & ?)%Hn. exists n. split; [lia | done].
    + intros c c' p p'. rewrite !lookup_insert. repeat case_decide; try congruence.
      * intros [= <-] (n & Hlt & Hid)%Hn. simpl. rewrite Hid.
        intros Heq%p_id_inj. lia.
      * intros (n & Hlt & Hid)%Hn [= <-]. simpl. rewrite Hid.
        intros Heq%p_id_inj. lia.
      * apply Hu.
  - split; [done|]. split.
    + intros c p. rewrite lookup_insert. case_decide; [|apply Hn].
      intros [= <-]. rewrite Hid. by eapply Hn.
    + intros c c' p p'. rewrite !lookup_insert. repeat case_decide; try congruence.
      * intros [= <-] Hc'. rewrite Hid. intros Heq. subst c.
        by apply (Hu ws c' peer p').
      * intros Hc' [= <-]. rewrite Hid. intros Heq. subst c'.
        by apply (Hu c ws p peer).
      * apply Hu.
  - split; [done|]. split.
    + intros c p. rewrite lookup_delete. case_decide; [done | apply Hn].
    + intros c c' p p'. rewrite !lookup_delete. repeat case_decide; try done.
      apply Hu.
Qed.

Lemma run_ids_inv (w : World) (evs : list event) : ids_inv (run w evs).
Proof.
  apply (run_invariant ids_inv); [|intros st st' ev out; apply step_ids_inv].
  split; [done|]. split; [intros ws p|intros ws ws' p p']; simpl;
    by rewrite lookup_empty.
Qed.

Lemma step_bounded (st st' : Server) (ev : event) (out : list (socket * payload)) :
  step st ev = Ok (st', out) →
  map_Forall (λ _, peer_bounded) (peers st) →
  map_Forall (λ _, peer_bounded) (peers st').
Proof.
  intros Hs Hb.
  destruct (step_peers st st' ev out Hs)
    as [[Hp Hc]|[(ws & Hws & Hc & Hp)|[(ws & peer & peer' & Hws & Hp & Hc & Hid & Hf)
                                       |(ws & Hp & Hc)]]];
    rewrite Hp.
  - done.
  - apply map_Forall_insert_2; [|done]. unfold peer_bounded. simpl.
    split; [lia|]. split; [lia|]. split; [done | lia].
  - apply map_Forall_insert_2; [|done]. apply Hf. by eapply Hb.
  - by apply map_Forall_delete.
Qed.

(** X11. Peer ids. In every reachable state each peer's id is [p] followed
    by the decimal numeral of a value the counter has passed, and two
    registered sockets never have the same id. *)
Theorem peer_ids_unique (w : World) (evs : list event) :
  let st := run w evs in
  (∀ ws p, peers st !! ws = Some p →
     ∃ n, 1 ≤ n < nextPeerId st ∧ p_id p = "p" +:+ pretty n) ∧
  (∀ ws ws' p p', peers st !! ws = Some p → peers st !! ws' = Some p' →
     ws ≠ ws' → p_id p ≠ p_id p').
Proof.
  intros st. destruct (run_ids_inv w evs) as (_ & Hn & Hu). fold st in Hn, Hu.
  split; [done|]. intros ws ws' p p' Hp Hp' Hne Heq. by apply Hne, (Hu _ _ p p').
Qed.

(** X12. Sizes. In every reachable state each peer's name has at most 24
    characters, its skin at most 200000, and its room key is not empty and
    has at most 32. *)
Theorem peer_fields_bounded (w : World) (evs : list event) (ws : socket) (p : Peer) :
  peers (run w evs) !! ws = Some p →
  (String.length (p_name p) ≤ 24)%nat ∧
  (N.of_nat (String.length (p_skin p)) ≤ 200000)%N ∧
  p_room p ≠ EmptyString ∧ (String.length (p_room p) ≤ 32)%nat.
Proof.
  revert ws p. change (map_Forall (λ _, peer_bounded) (peers (run w evs))).
  apply (run_invariant (λ st, map_Forall (λ _, peer_bounded) (peers st)));
    [|intros st st' ev out; apply step_bounded].
  apply map_Forall_empty.
Qed.

(** X13. A message that the handler handles without raising changes no
    record but the sender's: the other peers' records, the set of
    registered sockets, the id counter and the connection states are as
    before, and the sender keeps its id. *)
Theorem message_changes_only_sender (st st' : Server) (ws : socket)
    (data : option value) (out : list (socket * payload)) :
  step st (Message ws data) = Ok (st', out) →
  (∀ c, c ≠ ws → peers st' !! c = peers st !! c) ∧
  dom (peers st') = dom (peers st) ∧
  nextPeerId st' = nextPeerId st ∧ readyState st' = readyState st ∧
  (∀ p, peers st !! ws = Some p →
     ∃ p', peers st' !! ws = Some p' ∧ p_id p' = p_id p).
Proof.
  destruct data as [msg|]; simpl.
  2:{ intros [= <- <-].
      split; [done|]. split; [done|]. split; [done|]. split; [done|]. eauto. }
  destruct (on_message StringToNumber st ws msg) as [[st1 acts]|] eqn:Hm; [|done].
  intros [= <- <-].
  destruct (on_message_peers _ _ _ _ _ _ Hm)
    as (Hn & Hrs & [Hp|(peer & peer' & Hws & Hp & Hid & _)]); rewrite Hp.
  - split; [done|]. split; [done|]. split; [done|]. split; [done|]. eauto.
  - split; [intros c Hc; by rewrite lookup_insert_ne|].
    split; [by apply dom_insert_lookup_L|]. split; [done|]. split; [done|].
    intros p Hp'. exists peer'. rewrite lookup_insert_eq. split; [done|].
    congruence.
Qed.

(** The handler that the type of a message selects. *)
Lemma on_message_dispatch (st : Server) (ws : socket) (peer : Peer) (msg : value) :
  peers st !! ws = Some peer → is_object msg →
  (type_is msg "JOIN" = true →
   on_message StringToNumber st ws msg = on_JOIN st ws peer msg) ∧
  (type_is msg "CHAT" = true →
   on_message StringToNumber st ws msg = on_CHAT st ws peer msg) ∧
  (type_is msg "BLOCK" = true →
   on_message StringToNumber st ws msg = on_BLOCK StringToNumber st ws peer msg) ∧
  (type_is msg "CHUNK_REQUEST" = true →
   on_message StringToNumber st ws msg
   = on_CHUNK_REQUEST StringToNumber st ws peer msg).
Proof.
  intros Hws Hobj. unfold on_message. rewrite Hws.
  assert (negb (truthy msg) || negb (typeof_object msg) = false) as ->
    by (by destruct msg).
  assert (∀ t t', t ≠ t' → type_is msg t' = true → type_is msg t = false) as Hne.
  { intros t t' Hn Ht'. destruct (type_is msg t) eqn:Hb; [|done].
    destruct Hn. by eapply type_is_excl. }
  split; [by intros ->|]. split; [|split]; intros Ht.
  - by rewrite (Hne "JOIN" "CHAT"), Ht.
  - by rewrite (Hne "JOIN" "BLOCK"), (Hne "CHAT" "BLOCK"), Ht.
  - by rewrite (Hne "JOIN" "CHUNK_REQUEST"), (Hne "CHAT" "CHUNK_REQUEST"),
      (Hne "BLOCK" "CHUNK_REQUEST"), Ht.
Qed.

(** What one event does to the world store. *)
Lemma step_roomChunks (st st' : Server) (ev : event)
    (out : list (socket * payload)) :
  step st ev = Ok (st', out) →
  roomChunks st' = roomChunks st ∨
  ∃ ws msg peer x y z id,
    ev = Message ws (Some msg) ∧ peers st !! ws = Some peer ∧
    type_is msg "BLOCK" = true ∧
    Number (get msg "x") = Ok (Finite x) ∧ Number (get msg "y") = Ok (Finite y) ∧
    Number (get msg "z") = Ok (Finite z) ∧ Number (get msg "id") = Ok (Finite id) ∧
    roomChunks st' = setRoomBlock (roomChunks st) (p_room peer) x y z id.
Proof.
  destruct ev as [ws|ws [msg|]|ws|ws]; simpl;
    try (intros [= <- <-]; by left).
  - by destruct (peers st !! ws); intros [= <- <-]; left.
  - destruct (on_message StringToNumber st ws msg) as [[st1 acts]|] eqn:Hm;
      [|done].
    intros [= <- <-].
    apply on_message_cases in Hm as [[-> _]|(peer & Hws & _ & Hcase)];
      [by left|].
    destruct Hcase as [[Ht H]|[[Ht H]|[[Ht H]|[[Ht H]|[Ht H]]]]].
    + apply on_JOIN_Ok in H as (room & _ & -> & _). by left.
    + apply on_CHAT_Ok in H as (s & _ & -> & _). by left.
    + apply on_BLOCK_Ok in H
        as [[-> _]|(x & y & z & id & Hx & Hy & Hz & Hid & -> & _)]; [by left|].
      right. by exists ws, msg, peer, x, y, z, id.
    + apply on_CHUNK_REQUEST_Ok in H as [-> _]. by left.
    + apply on_PLAYER_STATE_Ok in H as [[-> _]|(state & -> & _)]; by left.
  - unfold on_close. simpl.
    by destruct (peers st !! ws); intros [= <- <-]; left.
Qed.

Lemma step_store_inv (st st' : Server) (ev : event) (out : list (socket * payload)) :
  step st ev = Ok (st', out) →
  store_inv (roomChunks st) → store_inv (roomChunks st').
Proof.
  intros Hs Hw.
  destruct (step_roomChunks st st' ev out Hs)
    as [->|(ws & msg & peer & x & y & z & id & _ & _ & _ & _ & _ & _ & _ & ->)];
    [done|].
  by apply setRoomBlock_store_inv.
Qed.

Lemma run_store_inv (w : World) (evs : list event) :
  store_inv w → store_inv (roomChunks (run w evs)).
Proof.
  intros Hw. by apply (run_invariant (λ st, store_inv (roomChunks st)));
    [|intros st st' ev out; apply step_store_inv].
Qed.

(** X14. Whatever event the process handles, the world of a room changes
    only by a BLOCK message of a peer of that room whose x, y, z and id
    coerce to finite numbers, and then as setRoomBlock says: no other
    event, no other message type and no peer of another room changes what
    the store holds for the room. *)
Theorem world_changes_only_by_room_BLOCK (st st' : Server) (ev : event)
    (out : list (socket * payload)) (r : string) :
  step st ev = Ok (st', out) →
  roomChunks st' !! r = roomChunks st !! r ∨
  ∃ ws msg peer x y z id,
    ev = Message ws (Some msg) ∧ peers st !! ws = Some peer ∧ p_room peer = r ∧
    type_is msg "BLOCK" = true ∧
    Number (get msg "x") = Ok (Finite x) ∧ Number (get msg "y") = Ok (Finite y) ∧
    Number (get msg "z") = Ok (Finite z) ∧ Number (get msg "id") = Ok (Finite id) ∧
    roomChunks st' = setRoomBlock (roomChunks st) r x y z id.
Proof.
  intros Hs.
  destruct (step_roomChunks st st' ev out Hs)
    as [->|(ws & msg & peer & x & y & z & id & Hev & Hws & Ht & Hx & Hy & Hz & Hid
            & Hst)]; [by left|].
  destruct (decide (p_room peer = r)) as [<-|Hne].
  - right. by exists ws, msg, peer, x, y, z, id.
  - left. rewrite Hst. by apply lookup_setRoomBlock_ne.
Qed.

(** X15. The store of the running server is sparse. Whatever document the
    start-up hydrated (none at all is the case of a document without rooms),
    in every state the server reaches every record has a positive id and
    sits under the block key of its coordinates, no chunk is empty and no
    room is without a chunk. *)
Theorem server_store_sparse (raw : value) (evs : list event) :
  let st := run (hydrateWorldState StringToNumber ∅ raw).1 evs in
  (∀ r c k b, cell (roomChunks st) r c k = Some b →
     0 < bid b ∧ k = blockKey (bx b) (by_ b) (bz b)) ∧
  (∀ r chunks, roomChunks st !! r = Some chunks → chunks ≠ ∅) ∧
  (∀ r chunks c cMap,
     roomChunks st !! r = Some chunks → chunks !! c = Some cMap → cMap ≠ ∅).
Proof.
  intros st.
  assert (store_inv (roomChunks st)) as Hinv
    by apply run_store_inv, hydrateWorldState_store_inv.
  split; [|split].
  - intros r c k b. by apply store_inv_cell_key.
  - intros r chunks Hr. by destruct (Hinv _ _ Hr).
  - intros r chunks c cMap Hr Hc. destruct (Hinv _ _ Hr) as [_ Hcs].
    by destruct (Hcs _ _ Hc).
Qed.

(** X16. Place, then ask. In a server started on a sparse store, a BLOCK
    message of a peer with finite x, y, z and id is handled, and after it a
    CHUNK_REQUEST for the chunk of that coordinate from a peer of the same
    room is answered, to the requester alone and without change of state,
    with the records the chunk listed before except the one of that
    coordinate, and with the new record when the id is positive. *)
Theorem block_then_chunk_request (w : World) (evs : list event)
    (ws ws' : socket) (peer peer' : Peer) (msg req : value) (x y z id : Z) :
  let st := run w evs in
  store_inv w →
  peers st !! ws = Some peer → peers st !! ws' = Some peer' →
  p_room peer' = p_room peer →
  is_object msg → type_is msg "BLOCK" = true →
  Number (get msg "x") = Ok (Finite x) → Number (get msg "y") = Ok (Finite y) →
  Number (get msg "z") = Ok (Finite z) → Number (get msg "id") = Ok (Finite id) →
  is_object req → type_is req "CHUNK_REQUEST" = true →
  Number (get req "cx") = Ok (Finite (x `div` 16)) →
  Number (get req "cz") = Ok (Finite (z `div` 16)) →
  ∃ st1 out blocks,
    step st (Message ws (Some msg)) = Ok (st1, out) ∧
    step st1 (Message ws' (Some req))
    = Ok (st1, [(ws', CHUNK_DATA (x `div` 16) (z `div` 16) blocks)]) ∧
    ∀ b, b ∈ blocks ↔
      (0 < id ∧ b = mkBlock x y z id) ∨
      (b ∈ getChunkBlocks (roomChunks st) (p_room peer) (x `div` 16) (z `div` 16) ∧
       (bx b, by_ b, bz b) ≠ (x, y, z)).
Proof.
  intros st Hw Hws Hws' Hroom Hobj Ht Hx Hy Hz Hid Hobj' Ht' Hcx Hcz.
  assert (store_inv (roomChunks st)) as Hinv by (by apply run_store_inv).
  set (st1 := set_roomChunks st
                (setRoomBlock (roomChunks st) (p_room peer) x y z id)).
  exists st1. eexists.
  exists (getChunkBlocks (roomChunks st1) (p_room peer') (x `div` 16) (z `div` 16)).
  split; [|split].
  - simpl.
    destruct (on_message_dispatch st ws peer msg Hws Hobj) as (_ & _ & HB & _).
    rewrite (HB Ht). unfold on_BLOCK. rewrite Hx, Hy, Hz, Hid. simpl. done.
  - simpl.
    destruct (on_message_dispatch st1 ws' peer' req) as (_ & _ & _ & HR);
      [done|done|].
    rewrite (HR Ht'). unfold on_CHUNK_REQUEST. by rewrite Hcx, Hcz.
  - intros b. unfold st1. rewrite Hroom. simpl.
    by apply elem_of_getChunkBlocks_setRoomBlock.
Qed.

End DispatcherSteps.

(** ** Who receives what *)

Section Delivery.

Variable StringToNumber : string → number.

Local Abbreviation Number := (ToNumber StringToNumber).

Local Abbreviation step := (step StringToNumber).

Local Abbreviation run := (run StringToNumber).

(** The actions of the message handler: a reply to the socket it serves,
    or a broadcast to the room that the sender's record names when the
    handler returns, which leaves the sender out unless it is a CHAT. *)
Lemma on_message_acts (st st' : Server) (ws : socket) (msg : value)
    (acts : list action) (act : action) :
  on_message StringToNumber st ws msg = Ok (st', acts) → act ∈ acts →
  (∃ p, act = Send ws p ∧ relayed p = false) ∨
  (∃ peer' p except,
     act = Broadcast (p_room peer') p except ∧ peers st' !! ws = Some peer' ∧
     (except = Some ws ∨ (except = None ∧ relayed p = false))).
Proof.
  intros [[-> ->]|(peer & Hws & _ & Hcase)]%on_message_cases;
    [by intros ?%elem_of_nil|].
  destruct Hcase as [[Ht H]|[[Ht H]|[[Ht H]|[[Ht H]|[Ht H]]]]].
  - apply on_JOIN_Ok in H as (room & _ & -> & ->).
    set (peer' := mkPeer _ _ _ room _).
    assert (∀ ps rs n w r, peers (mkServer (<[ws := peer']> ps) rs n w r) !! ws
                           = Some peer') as Hp
      by (intros; simpl; by rewrite lookup_insert_eq).
    rewrite !elem_of_cons. intros [->|[->|[->|[->|[->|[]%elem_of_nil]]]]].
    + left. by eexists.
    + left. by eexists.
    + left. by eexists.
    + right. exists peer'. eexists _, _. split; [done|]. split; [apply Hp | by left].
    + right. exists peer'. eexists _, _. split; [done|]. split; [apply Hp | by left].
  - apply on_CHAT_Ok in H as (s & _ & -> & ->).
    intros ->%list_elem_of_singleton. right. exists peer. eexists _, _.
    split; [done|]. split; [done|]. by right.
  - apply on_BLOCK_Ok in H as [[-> ->]|(x & y & z & id & _ & _ & _ & _ & -> & ->)];
      [by intros ?%elem_of_nil|].
    intros ->%list_elem_of_singleton. right. exists peer. eexists _, _.
    split; [done|]. split; [done|]. by left.
  - apply on_CHUNK_REQUEST_Ok in H as [-> [->|(cx & cz & _ & _ & ->)]];
      [by intros ?%elem_of_nil|].
    intros ->%list_elem_of_singleton. left. by eexists.
  - apply on_PLAYER_STATE_Ok in H as [[-> ->]|(state & -> & ->)];
      [by intros ?%elem_of_nil|].
    intros ->%list_elem_of_singleton. right.
    exists (mkPeer (p_id peer) (p_name peer) (p_skin peer) (p_room peer) state).
    eexists _, _.
    split; [done|]. split; [simpl; by rewrite lookup_insert_eq | by left].
Qed.

Lemma elem_of_performed (st : Server) (acts : list action) (c : socket) (p : payload) :
  (c, p) ∈ acts ≫= perform st ↔ ∃ act, act ∈ acts ∧ (c, p) ∈ perform st act.
Proof. rewrite list_elem_of_bind. naive_solver. Qed.

(** X17. Room isolation for every payload. In every reachable state, what a
    message causes is sent to the sender or to open connections of peers
    whose record, after the message, names the same room as the sender's;
    what a disconnection causes is sent to open connections of other peers
    of the room that the leaving peer was in; and no other event sends
    anything. *)
Theorem sends_stay_in_room (w : World) (evs : list event) :
  let st := run w evs in
  (∀ ws msg st' out c p,
     step st (Message ws (Some msg)) = Ok (st', out) → (c, p) ∈ out →
     c = ws ∨
     (readyState st c = 1 ∧ is_Some (peer_room st' ws) ∧
      peer_room st' c = peer_room st' ws)) ∧
  (∀ ws st' out c p,
     step st (Close ws) = Ok (st', out) → (c, p) ∈ out →
     c ≠ ws ∧ readyState st c = 1 ∧ is_Some (peer_room st ws) ∧
     peer_room st c = peer_room st ws) ∧
  (∀ ws, (∃ st', step st (Connection ws) = Ok (st', [])) ∧
         (∃ st', step st (Closing ws) = Ok (st', [])) ∧
         (∃ st', step st (Message ws None) = Ok (st', []))).
Proof.
  intros st. pose proof (run_inv StringToNumber w evs) as Hinv. fold st in Hinv.
  split; [|split].
  - intros ws msg st' out c p Hs.
    pose proof (step_inv StringToNumber st st' _ out Hs Hinv) as Hinv'.
    revert Hs Hinv'. simpl.
    destruct (on_message StringToNumber st ws msg) as [[st1 acts]|] eqn:Hm;
      [|done].
    intros [= <- <-] [_ Hmem] (act & Hact & Hin)%elem_of_performed.
    destruct (on_message_peers _ _ _ _ _ _ Hm) as (_ & Hrs & _).
    destruct (on_message_acts _ _ _ _ _ _ Hm Hact)
      as [(q & -> & _)|(peer' & q & except & -> & Hws' & _)].
    + left. simpl in Hin. apply list_elem_of_singleton in Hin. congruence.
    + right. simpl in Hin.
      apply elem_of_broadcastToRoom in Hin as (_ & Hin & _ & Hopen).
      apply Hmem in Hin. rewrite Hrs in Hopen.
      assert (peer_room st1 ws = Some (p_room peer')) as ->
        by (unfold peer_room; by rewrite Hws').
      split; [done|]. split; [by eexists | done].
  - intros ws st' out c p. simpl. unfold on_close. simpl.
    destruct (peers st !! ws) as [peer|] eqn:Hws; simpl; intros [= <- <-];
      [|by intros ?%elem_of_nil].
    rewrite app_nil_r, elem_of_app.
    intros [Hin|Hin];
      apply elem_of_broadcastToRoom in Hin as (_ & Hin & Hne & Hopen).
    all: apply members_removeFromRoom in Hin as [Hin _].
    all: destruct Hinv as [_ Hmem]; apply Hmem in Hin.
    all: assert (c ≠ ws) as Hc by congruence.
    all: rewrite decide_False in Hopen by done.
    all: assert (peer_room st ws = Some (p_room peer)) as ->
      by (unfold peer_room; by rewrite Hws).
    all: split; [done|]; split; [done|]; split; [by eexists | done].
  - intros ws. simpl. split; [|split]; [|by eexists..].
    destruct (peers st !! ws); by eexists.
Qed.

(** X18. No echo of one's own actions. In any state, what a message causes
    to be sent to its own sender is never a BLOCK, a PLAYER_STATE, a
    PLAYER_JOIN or a PLAYER_LEAVE. *)
Theorem sender_gets_no_relayed_payload (st st' : Server) (ws : socket)
    (msg : value) (out : list (socket * payload)) (p : payload) :
  step st (Message ws (Some msg)) = Ok (st', out) → (ws, p) ∈ out →
  relayed p = false.
Proof.
  simpl.
  destruct (on_message StringToNumber st ws msg) as [[st1 acts]|] eqn:Hm;
    [|done].
  intros [= <- <-] (act & Hact & Hin)%elem_of_performed.
  destruct (on_message_acts _ _ _ _ _ _ Hm Hact)
    as [(q & -> & Hq)|(peer' & q & except & -> & _ & Hex)]; simpl in Hin.
  - apply list_elem_of_singleton in Hin. congruence.
  - apply elem_of_broadcastToRoom in Hin as (-> & _ & Hne & _).
    destruct Hex as [->|[_ Hq]]; done.
Qed.

(** X19. CHAT. In every reachable state a CHAT message of a registered peer
    whose text converts to the string [s] (the empty string for an absent or
    falsy text) is handled, changes nothing and sends one payload, with the
    sender's name and the first 280 characters of [s], to every open
    connection of the sender's room, the sender's own included. *)
Theorem chat_reaches_room_and_sender (w : World) (evs : list event) (ws : socket)
    (peer : Peer) (msg : value) (s : string) :
  let st := run w evs in
  let text := slice0 280 s in
  peers st !! ws = Some peer → is_object msg → type_is msg "CHAT" = true →
  ToString (if truthy (get msg "text") then get msg "text"
            else VString EmptyString) = Ok s →
  ∃ out,
    step st (Message ws (Some msg)) = Ok (st, out) ∧
    (∀ c q, (c, q) ∈ out ↔
            q = CHAT (p_name peer) text ∧ peer_room st c = Some (p_room peer) ∧
            readyState st c = 1) ∧
    (readyState st ws = 1 → (ws, CHAT (p_name peer) text) ∈ out) ∧
    (String.length text ≤ 280)%nat ∧
    (truthy (get msg "text") = false → text = EmptyString).
Proof.
  intros st text Hws Hobj Ht Hs.
  destruct (run_inv StringToNumber w evs) as [_ Hmem]. fold st in Hmem.
  exists (broadcastToRoom (rooms st) (readyState st) (p_room peer)
            (CHAT (p_name peer) text) None).
  assert (step st (Message ws (Some msg))
          = Ok (st, broadcastToRoom (rooms st) (readyState st) (p_room peer)
                      (CHAT (p_name peer) text) None)) as Hstep.
  { simpl. destruct (on_message_dispatch StringToNumber st ws peer msg Hws Hobj)
      as (_ & HC & _).
    rewrite (HC Ht). unfold on_CHAT. rewrite Hs. simpl. by rewrite app_nil_r. }
  assert (∀ c q, (c, q) ∈ broadcastToRoom (rooms st) (readyState st) (p_room peer)
                            (CHAT (p_name peer) text) None ↔
            q = CHAT (p_name peer) text ∧ peer_room st c = Some (p_room peer) ∧
            readyState st c = 1) as Hd.
  { intros c q. rewrite elem_of_broadcastToRoom, Hmem. naive_solver. }
  split; [done|]. split; [done|]. split; [|split].
  - intros Hopen. apply Hd. split; [done|]. split; [|done].
    unfold peer_room. by rewrite Hws.
  - apply (slice0_length 280).
  - intros Hf. rewrite Hf in Hs. simpl in Hs. injection Hs as <-. done.
Qed.

End Delivery.

(** ** JOIN, disconnection, dropped and raising messages *)

Lemma number_or_0 (a : Z) : number_or a 0 = a.
Proof. unfold number_or. by case_bool_decide. Qed.

Lemma elem_of_snapshot (ps : gmap socket Peer) (roomPeers : option (gset socket))
    (ws : socket) (s : PeerSummary) :
  s ∈ snapshot ps roomPeers ws ↔
  ∃ c p, c ∈ default ∅ roomPeers ∧ c ≠ ws ∧ ps !! c = Some p ∧
    s = mkSummary (p_id p) (p_name p) (p_skin p)
          (mkState (st_x (p_state p)) (st_y (p_state p)) (st_z (p_state p))
             (st_yaw (p_state p)) (st_pitch (p_state p))
             (st_moving (p_state p)) (st_crouching (p_state p))
             (st_punchAnim (p_state p)) (st_placeAnim (p_state p))
             (if bool_decide (st_heldBlock (p_state p) = 0) then 2
              else st_heldBlock (p_state p))).
Proof.
  unfold snapshot. destruct roomPeers as [set|]; simpl.
  2:{ split; [by intros ?%elem_of_nil|]. by intros (c & p & ?%elem_of_empty & _). }
  rewrite list_elem_of_omap. split.
  - intros (c & Hc%elem_of_elements & Hs). exists c.
    case_decide; [done|]. destruct (ps !! c) as [p|]; [|done].
    simpl in Hs. injection Hs as <-. exists p. rewrite !number_or_0.
    by unfold number_or.
  - intros (c & p & Hc & Hne & Hp & ->). exists c.
    split; [by apply elem_of_elements|]. rewrite decide_False by done.
    rewrite Hp. simpl. rewrite !number_or_0. by unfold number_or.
Qed.

Lemma snapshot_ids_NoDup (ps : gmap socket Peer) (roomPeers : option (gset socket))
    (ws : socket) :
  (∀ c c' p p', ps !! c = Some p → ps !! c' = Some p' → p_id p = p_id p' → c = c') →
  NoDup (s_id <$> snapshot ps roomPeers ws).
Proof.
  intros Hu. unfold snapshot. destruct roomPeers as [set|]; [|constructor].
  pose proof (NoDup_elements set) as Hnd.
  induction Hnd as [|c l Hc Hnd IH]; simpl; [constructor|].
  case_decide; [done|]. destruct (ps !! c) as [p|] eqn:Hp; simpl; [|done].
  constructor; [|done].
  intros (s & Hid & (c' & Hc' & Hs)%list_elem_of_omap)%list_elem_of_fmap.
  case_decide; [done|]. destruct (ps !! c') as [p'|] eqn:Hp'; [|done].
  simpl in Hs. injection Hs as <-. simpl in Hid.
  assert (c = c') as <- by (by eapply Hu). done.
Qed.

Section Handlers.

Variable StringToNumber : string → number.

Local Abbreviation Number := (ToNumber StringToNumber).

Local Abbreviation step := (step StringToNumber).

Local Abbreviation run := (run StringToNumber).

(** X20. JOIN. In every reachable state a JOIN of a registered peer whose
    room normalizes to [room] makes the peer's record name that room, with
    the name and skin of the message cut to 24 and 200000 characters (or
    [Player] and the empty skin), leaves id and state alone, and answers
    with SYSTEM, ROOM_SNAPSHOT and SELF before it announces the peer to the
    room. The snapshot lists, once each, exactly the other peers whose
    record names that room, with the stored position, flags and animation
    values, and with a stored heldBlock of 0 reported as 2. *)
Theorem join_snapshot_lists_room (w : World) (evs : list event) (ws : socket)
    (peer : Peer) (msg : value) (room : string) :
  let st := run w evs in
  let name := string_or (get msg "name") 24 "Player" in
  let skin := string_or (get msg "skin") 200000 EmptyString in
  peers st !! ws = Some peer → is_object msg → type_is msg "JOIN" = true →
  normalizeRoom (get msg "room") = Ok room →
  ∃ st' snap,
    on_message StringToNumber st ws msg
    = Ok (st', [Send ws (SYSTEM ("Joined room " +:+ room));
                Send ws (ROOM_SNAPSHOT snap); Send ws (SELF (p_id peer));
                Broadcast room (PLAYER_JOIN (p_id peer) name skin) (Some ws);
                Broadcast room (SYSTEM (name +:+ " joined.")) (Some ws)]) ∧
    peers st' !! ws = Some (mkPeer (p_id peer) name skin room (p_state peer)) ∧
    (∀ s, s ∈ snap ↔
       ∃ c p, c ≠ ws ∧ peers st !! c = Some p ∧ p_room p = room ∧
         s = mkSummary (p_id p) (p_name p) (p_skin p)
               (mkState (st_x (p_state p)) (st_y (p_state p)) (st_z (p_state p))
                  (st_yaw (p_state p)) (st_pitch (p_state p))
                  (st_moving (p_state p)) (st_crouching (p_state p))
                  (st_punchAnim (p_state p)) (st_placeAnim (p_state p))
                  (if bool_decide (st_heldBlock (p_state p) = 0) then 2
                   else st_heldBlock (p_state p)))) ∧
    NoDup (s_id <$> snap).
Proof.
  intros st name skin Hws Hobj Ht Hroom.
  pose proof (run_inv StringToNumber w evs) as Hinv. fold st in Hinv.
  destruct (run_ids_inv StringToNumber w evs) as (_ & _ & Hu). fold st in Hu.
  destruct (on_message_dispatch StringToNumber st ws peer msg Hws Hobj) as (HJ & _).
  specialize (HJ Ht).
  destruct (on_JOIN st ws peer msg) as [[st' acts]|] eqn:Hj.
  2:{ unfold on_JOIN in Hj. by rewrite Hroom in Hj. }
  pose proof (on_JOIN_inv StringToNumber _ _ _ _ _ _ Hws Hj Hinv) as [_ Hmem].
  apply on_JOIN_Ok in Hj as (room' & Hroom' & Hst' & Hacts).
  assert (room' = room) as -> by congruence. cbv zeta in Hst', Hacts.
  fold name skin in Hst', Hacts.
  set (peer' := mkPeer (p_id peer) name skin room (p_state peer)) in *.
  set (rs := if bool_decide (p_room peer ≠ room)
             then addToRoom (removeFromRoom (rooms st) ws (p_room peer)) ws room
             else rooms st) in *.
  exists st', (snapshot (<[ws := peer']> (peers st)) (rs !! room) ws).
  split; [by rewrite HJ, Hacts|].
  split; [rewrite Hst'; simpl; by rewrite lookup_insert_eq|]. split.
  - intros s. rewrite elem_of_snapshot. split.
    + intros (c & p & Hc & Hne & Hp & ->). exists c, p.
      rewrite lookup_insert_ne in Hp by done.
      split; [done|]. split; [done|]. split; [|done].
      assert (c ∈ members (rooms st') room) as Hin by (by rewrite Hst').
      apply Hmem in Hin. revert Hin. rewrite Hst'. unfold peer_room. simpl.
      rewrite lookup_insert_ne by done. rewrite Hp. simpl. congruence.
    + intros (c & p & Hne & Hp & Hr & ->). exists c, p.
      split; [|split; [done|split; [by rewrite lookup_insert_ne|done]]].
      assert (c ∈ members (rooms st') room) as Hin.
      { apply Hmem. rewrite Hst'. unfold peer_room. simpl.
        rewrite lookup_insert_ne by done. rewrite Hp. simpl. congruence. }
      by rewrite Hst' in Hin.
  - apply snapshot_ids_NoDup. intros c c' p p'. rewrite !lookup_insert.
    repeat case_decide; try congruence.
    + intros [= <-] Hp'. simpl. intros Heq. subst c.
      by apply (Hu ws c' peer p').
    + intros Hp [= <-]. simpl. intros Heq. subst c'.
      by apply (Hu c ws p peer).
    + apply Hu.
Qed.

(** X21. Disconnection. In every reachable state the close of a registered
    socket removes its record and its membership and nothing else, tells the
    open connections of the other peers of its room that it left (a
    PLAYER_LEAVE with its id and a SYSTEM line with its name) and nobody
    else, and leaves the world store and the id counter alone; a later
    message on that socket is ignored. *)
Theorem close_unregisters (w : World) (evs : list event) (ws : socket) (peer : Peer) :
  let st := run w evs in
  peers st !! ws = Some peer →
  ∃ st' out,
    step st (Close ws) = Ok (st', out) ∧
    peers st' = delete ws (peers st) ∧
    (∀ c r, c ∈ members (rooms st') r ↔ c ≠ ws ∧ c ∈ members (rooms st) r) ∧
    (∀ c q, (c, q) ∈ out ↔
       (q = PLAYER_LEAVE (p_id peer) ∨ q = SYSTEM (p_name peer +:+ " left.")) ∧
       c ≠ ws ∧ peer_room st c = Some (p_room peer) ∧ readyState st c = 1) ∧
    roomChunks st' = roomChunks st ∧ nextPeerId st' = nextPeerId st ∧
    (∀ data, step st' (Message ws data) = Ok (st', [])).
Proof.
  intros st Hws.
  destruct (run_inv StringToNumber w evs) as [_ Hmem]. fold st in Hmem.
  assert (peer_room st ws = Some (p_room peer)) as Hroom
    by (unfold peer_room; by rewrite Hws).
  simpl. unfold on_close. simpl. rewrite Hws. simpl.
  eexists _, _. split; [reflexivity|]. simpl.
  split; [done|]. split; [|split; [|split; [done|split; [done|]]]].
  - intros c r. rewrite members_removeFromRoom. split.
    + intros [Hin Hne]. split; [|done]. intros ->. apply Hne. split; [done|].
      apply Hmem in Hin. congruence.
    + intros [Hne Hin]. split; [done|]. by intros [? _].
  - intros c q. rewrite app_nil_r, elem_of_app, !elem_of_broadcastToRoom.
    setoid_rewrite members_removeFromRoom. rewrite !Hmem. split.
    + intros [(-> & [Hin _] & Hne & Hopen)|(-> & [Hin _] & Hne & Hopen)].
      all: assert (c ≠ ws) as Hc by congruence.
      all: rewrite decide_False in Hopen by done. all: auto.
    + intros ([-> | ->] & Hc & Hin & Hopen); [left|right].
      all: split; [done|]; split; [split; [done | by intros [? _]]|].
      all: split; [congruence|]. all: by rewrite decide_False.
  - intros [msg|]; simpl; [|done]. unfold on_message. simpl.
    by rewrite lookup_delete_eq.
Qed.

(** X22. Dropped messages. When every coercion of the handler returns and
    the result of one of the validated ones is not a finite number (x, y, z
    or id of a BLOCK; cx or cz of a CHUNK_REQUEST; x, y, z, yaw or pitch of
    a PLAYER_STATE), the message is dropped: the handler returns, the
    state, the world store and the peer's stored state included, is as
    before, and nothing is sent. *)
Theorem not_finite_message_dropped (st : Server) (ws : socket) (msg : value)
    (f : string) :
  (type_is msg "BLOCK" = true ∧ f ∈ ["x"; "y"; "z"; "id"] ∧
   ∀ g, g ∈ ["x"; "y"; "z"; "id"] → ∃ n, Number (get msg g) = Ok n) ∨
  (type_is msg "CHUNK_REQUEST" = true ∧ f ∈ ["cx"; "cz"] ∧
   ∀ g, g ∈ ["cx"; "cz"] → ∃ n, Number (get msg g) = Ok n) ∨
  (type_is msg "PLAYER_STATE" = true ∧ f ∈ ["x"; "y"; "z"; "yaw"; "pitch"] ∧
   ∀ g, g ∈ ["x"; "y"; "z"; "yaw"; "pitch"; "punchAnim"; "placeAnim"; "heldBlock"] →
        ∃ n, Number (get msg g) = Ok n) →
  (∀ n, Number (get msg f) ≠ Ok (Finite n)) →
  step st (Message ws (Some msg)) = Ok (st, []).
Proof.
  intros [(Ht & Hf & Hret)|[(Ht & Hf & Hret)|(Ht & Hf & Hret)]] Hn.
  3:{ by apply (player_state_not_finite_dropped StringToNumber st ws msg f). }
  all: simpl.
  all: destruct (peers st !! ws) as [peer|] eqn:Hws;
    [|by unfold on_message; rewrite Hws].
  all: destruct (negb (truthy msg) || negb (typeof_object msg)) eqn:Hg;
    [by unfold on_message; rewrite Hws, Hg|].
  all: assert (is_object msg) as Hobj
    by (destruct msg; simpl in Hg; rewrite ?orb_true_r in Hg; done).
  all: destruct (on_message_dispatch StringToNumber st ws peer msg Hws Hobj)
    as (_ & _ & HB & HR).
  - rewrite (HB Ht). unfold on_BLOCK.
    destruct (Hret "x") as [x Hx]; [set_solver|].
    destruct (Hret "y") as [y Hy]; [set_solver|].
    destruct (Hret "z") as [z Hz]; [set_solver|].
    destruct (Hret "id") as [id Hid]; [set_solver|].
    rewrite Hx, Hy, Hz, Hid. simpl.
    destruct x as [| | |x]; try done. destruct y as [| | |y]; try done.
    destruct z as [| | |z]; try done. destruct id as [| | |id]; try done.
    exfalso. repeat (apply elem_of_cons in Hf as [->|Hf]);
      [..|by apply elem_of_nil in Hf]; by eapply Hn.
  - rewrite (HR Ht). unfold on_CHUNK_REQUEST.
    destruct (Hret "cx") as [cx Hcx]; [set_solver|].
    destruct (Hret "cz") as [cz Hcz]; [set_solver|].
    rewrite Hcx, Hcz. simpl.
    destruct cx as [| | |cx]; try done. destruct cz as [| | |cz]; try done.
    exfalso. repeat (apply elem_of_cons in Hf as [->|Hf]);
      [..|by apply elem_of_nil in Hf]; by eapply Hn.
Qed.

End Handlers.

(** ** When the coercions raise *)

Lemma value_ind_nested (P : value → Prop) :
  P VUndefined → P VNull → (∀ b, P (VBool b)) → (∀ n, P (VNumber n)) →
  (∀ s, P (VString s)) → (∀ l, Forall P l → P (VArray l)) →
  (∀ o, P (VObject o)) → ∀ v, P v.
Proof.
  intros Hu Hn Hb Hnum Hs Ha Ho. fix IH 1.
  intros [| |b|n|s|l|o];
    [exact Hu | exact Hn | apply Hb | apply Hnum | apply Hs | | apply Ho].
  apply Ha. induction l as [|e l IHl]; constructor; [apply IH | apply IHl].
Qed.

Lemma ToString_Ok_iff (v : value) : (∃ s, ToString v = Ok s) ↔ plain v.
Proof.
  induction v as [| |b|n|s|l IH|o] using value_ind_nested; simpl;
    try (split; by eauto).
  - set (elements := fix elements (l : list value) : result (list string) :=
         match l with
         | [] => Ok []
         | e :: l' =>
             s ← match e with
                 | VUndefined | VNull => Ok EmptyString
                 | _ => ToString e
                 end;
             ss ← elements l';
             Ok (s :: ss)
         end).
    set (all := fix all (l : list value) : Prop :=
         match l with
         | [] => True
         | e :: l' => plain e ∧ all l'
         end).
    assert ((∃ ss, elements l = Ok ss) ↔ all l) as <-.
    { induction IH as [|e l He _ IHl]; simpl; [split; by eauto|].
      rewrite <-IHl, <-He. clear IHl He.
      assert (match e with
              | VUndefined | VNull => Ok EmptyString
              | _ => ToString e
              end = TypeError ↔ ToString e = TypeError) as Hm
        by (by destruct e).
      destruct (match e with
                | VUndefined | VNull => Ok EmptyString
                | _ => ToString e
                end) as [s1|]; simpl.
      - destruct (elements l) as [ss|]; simpl.
        + split; [intros _|by eauto]. split; [|by eauto].
          destruct (ToString e) as [s2|]; [by eauto|].
          by specialize (proj2 Hm eq_refl).
        + split; [by intros [? ?] | by intros [_ [? ?]]].
      - split; [by intros [? ?]|]. intros [[s2 Hs2] _].
        by rewrite (proj1 Hm eq_refl) in Hs2. }
    destruct (elements l) as [ss|]; simpl; split; try (by eauto);
      by intros [? ?].
  - destruct (assoc "toString" o); split; try (by eauto); by intros [? ?].
Qed.

Lemma ToString_raises (v : value) : ToString v = TypeError ↔ ¬ plain v.
Proof.
  rewrite <-ToString_Ok_iff. destruct (ToString v) as [s|].
  - split; [done|]. intros Hn. destruct Hn. by eauto.
  - split; [|done]. by intros _ [? ?].
Qed.

Lemma default_string_raises (v : value) (d : string) :
  ToString (if truthy v then v else VString d) = TypeError ↔ ¬ plain v.
Proof.
  destruct (truthy v) eqn:Ht; [apply ToString_raises|].
  split; [done|]. intros Hn. destruct Hn. by destruct v as [| |b|n|s|l|o].
Qed.

Section Raises.

Variable StringToNumber : string → number.

Local Abbreviation Number := (ToNumber StringToNumber).

Lemma ToNumber_raises (v : value) : Number v = TypeError ↔ ¬ plain v.
Proof.
  destruct v as [| |b|n|s|l|o]; simpl; try (split; [done | by intros []]).
  - rewrite <-(ToString_raises (VArray l)). simpl.
    by destruct (_ l) as [ss|].
  - destruct (assoc "toString" o); [by split | split; [done | by intros []]].
Qed.

Lemma ToNumber_cases (v : value) :
  (∃ n, Number v = Ok n ∧ plain v) ∨ (Number v = TypeError ∧ ¬ plain v).
Proof.
  destruct (Number v) as [n|] eqn:Hn.
  - left. exists n. split; [done|]. apply ToString_Ok_iff.
    destruct (ToString v) as [s|] eqn:Hs; [by eauto|].
    apply ToString_raises, ToNumber_raises in Hs. congruence.
  - right. split; [done|]. by apply ToNumber_raises.
Qed.

(** X23.  When the message handler raises.  The handler raises exactly on a
    message of a registered socket that is an object and in which a field
    that the selected handler coerces (room for JOIN, text for CHAT, x, y, z
    and id for BLOCK, cx and cz for CHUNK_REQUEST, the eight numeric fields
    for PLAYER_STATE) is an object with an own [toString], or an array
    holding one at some depth: on every other message, in every state, it
    returns. *)
Theorem handler_raises_iff (st : Server) (ws : socket) (msg : value) :
  on_message StringToNumber st ws msg = TypeError ↔
  is_Some (peers st !! ws) ∧ is_object msg ∧
  ∃ f, f ∈ coerced_fields msg ∧ ¬ plain (get msg f).
Proof.
  unfold on_message, coerced_fields.
  destruct (peers st !! ws) as [peer|];
    [|split; [done | by intros [[? ?] _]]].
  destruct (negb (truthy msg) || negb (typeof_object msg)) eqn:Hg.
  { split; [done|]. intros (_ & Hobj & _).
    destruct msg; simpl in Hg; rewrite ?orb_true_r in Hg; done. }
  assert (is_object msg) as Hobj
    by (destruct msg; simpl in Hg; rewrite ?orb_true_r in Hg; done).
  assert (∀ (P : Prop) (l : list string),
            (P ↔ ∃ f, f ∈ l ∧ ¬ plain (get msg f)) →
            (P ↔ is_Some (Some peer) ∧ is_object msg ∧
                 ∃ f, f ∈ l ∧ ¬ plain (get msg f))) as Hwrap
    by (intros P l ->; naive_solver).
  destruct (type_is msg "JOIN").
  { apply Hwrap. unfold on_JOIN, normalizeRoom.
    pose proof (default_string_raises (get msg "room") "GLOBAL") as Hr.
    destruct (ToString _) as [s|]; simpl.
    - split; [done|]. intros (f & ->%list_elem_of_singleton & Hn).
      by apply Hr in Hn.
    - split; [|done]. intros _. exists "room". split; [by left | by apply Hr]. }
  destruct (type_is msg "CHAT").
  { apply Hwrap. unfold on_CHAT.
    pose proof (default_string_raises (get msg "text") EmptyString) as Hr.
    destruct (ToString _) as [s|]; simpl.
    - split; [done|]. intros (f & ->%list_elem_of_singleton & Hn).
      by apply Hr in Hn.
    - split; [|done]. intros _. exists "text". split; [by left | by apply Hr]. }
  destruct (type_is msg "BLOCK").
  { apply Hwrap. unfold on_BLOCK.
    destruct (ToNumber_cases (get msg "x")) as [(x & -> & Hx)|[-> Hx]]; simpl;
      [|split; [intros _; exists "x"; split; [by repeat constructor | done] | done]].
    destruct (ToNumber_cases (get msg "y")) as [(y & -> & Hy)|[-> Hy]]; simpl;
      [|split; [intros _; exists "y"; split; [by repeat constructor | done] | done]].
    destruct (ToNumber_cases (get msg "z")) as [(z & -> & Hz)|[-> Hz]]; simpl;
      [|split; [intros _; exists "z"; split; [by repeat constructor | done] | done]].
    destruct (ToNumber_cases (get msg "id")) as [(id & -> & Hid)|[-> Hid]]; simpl;
      [|split; [intros _; exists "id"; split; [by repeat constructor | done] | done]].
    split; [by destruct x, y, z, id|].
    intros (f & Hf & Hn). exfalso.
    repeat (apply elem_of_cons in Hf as [->|Hf]); [..|by apply elem_of_nil in Hf];
      by apply Hn. }
  destruct (type_is msg "CHUNK_REQUEST").
  { apply Hwrap. unfold on_CHUNK_REQUEST.
    destruct (ToNumber_cases (get msg "cx")) as [(cx & -> & Hcx)|[-> Hcx]]; simpl;
      [|split; [intros _; exists "cx"; split; [by repeat constructor | done] | done]].
    destruct (ToNumber_cases (get msg "cz")) as [(cz & -> & Hcz)|[-> Hcz]]; simpl;
      [|split; [intros _; exists "cz"; split; [by repeat constructor | done] | done]].
    split; [by destruct cx, cz|].
    intros (f & Hf & Hn). exfalso.
    repeat (apply elem_of_cons in Hf as [->|Hf]); [..|by apply elem_of_nil in Hf];
      by apply Hn. }
  destruct (type_is msg "PLAYER_STATE").
  2:{ split; [done|]. by intros (_ & _ & f & ?%elem_of_nil & _). }
  apply Hwrap. unfold on_PLAYER_STATE.
  destruct (ToNumber_cases (get msg "x")) as [(x & -> & Hx)|[-> Hx]]; simpl;
    [|split; [intros _; exists "x"; split; [by repeat constructor | done] | done]].
  destruct (ToNumber_cases (get msg "y")) as [(y & -> & Hy)|[-> Hy]]; simpl;
    [|split; [intros _; exists "y"; split; [by repeat constructor | done] | done]].
  destruct (ToNumber_cases (get msg "z")) as [(z & -> & Hz)|[-> Hz]]; simpl;
    [|split; [intros _; exists "z"; split; [by repeat constructor | done] | done]].
  destruct (ToNumber_cases (get msg "yaw")) as [(yaw & -> & Hyaw)|[-> Hyaw]];
    simpl;
    [|split; [intros _; exists "yaw"; split; [by repeat constructor | done] | done]].
  destruct (ToNumber_cases (get msg "pitch")) as [(pitch & -> & Hpitch)|[-> Hpitch]];
    simpl;
    [|split; [intros _; exists "pitch"; split; [by repeat constructor | done] | done]].
  destruct (ToNumber_cases (get msg "punchAnim")) as [(pa & -> & Hpa)|[-> Hpa]];
    simpl;
    [|split; [intros _; exists "punchAnim"; split; [by repeat constructor | done] | done]].
  destruct (ToNumber_cases (get msg "placeAnim")) as [(pl & -> & Hpl)|[-> Hpl]];
    simpl;
    [|split; [intros _; exists "placeAnim"; split; [by repeat constructor | done] | done]].
  destruct (ToNumber_cases (get msg "heldBlock")) as [(h & -> & Hh)|[-> Hh]];
    simpl;
    [|split; [intros _; exists "heldBlock"; split; [by repeat constructor | done] | done]].
  split; [by destruct x, y, z, yaw, pitch|].
  intros (f & Hf & Hn). exfalso.
  repeat (apply elem_of_cons in Hf as [->|Hf]); [..|by apply elem_of_nil in Hf];
    by apply Hn.
Qed.

End Raises.

Example handler_raises_on_toString_room :
  on_message decimalToNumber (run decimalToNumber ∅ [Connection 1]) 1
    (join_msg (VObject [("toString", VNumber (Finite 1))])) = TypeError ∧
  on_message decimalToNumber (run decimalToNumber ∅ [Connection 1]) 1
    (join_msg (VArray [VNumber (Finite 1); VObject []]))
  = on_JOIN (run decimalToNumber ∅ [Connection 1]) 1 (first_peer 2)
      (join_msg (VArray [VNumber (Finite 1); VObject []])).
Proof. split; vm_compute; reflexivity. Qed.

(** ** One send per recipient *)

(** X24. broadcastToRoom sends to no socket twice, and to no more sockets
    than the room has members. *)
Theorem broadcast_sends_once (rooms : gmap string (gset socket))
    (rs : socket → Z) (room : string) (p : payload) (except : option socket) :
  NoDup (broadcastToRoom rooms rs room p except).*1 ∧
  (length (broadcastToRoom rooms rs room p except)
   ≤ size (members rooms room))%nat.
Proof.
  unfold broadcastToRoom, members. destruct (rooms !! room) as [set|]; simpl.
  2:{ split; [constructor | lia]. }
  rewrite <-list_fmap_compose, length_fmap. split.
  - rewrite (list_fmap_ext _ id) by done. rewrite list_fmap_id.
    apply NoDup_filter, NoDup_elements.
  - etrans; [apply length_filter|]. done.
Qed.

(** ** The relay without a world store *)

Lemma clamp01_range (n : number) : 0 ≤ Relay.clamp01 n ≤ 1.
Proof. destruct n; simpl; lia. Qed.

Section RelayFacts.

Variable StringToNumber : string → number.

Local Abbreviation Number := (ToNumber StringToNumber).

Lemma relay_on_message_states (st st' : Server) (ws : socket) (msg : value)
    (acts : list action) :
  Relay.on_message StringToNumber st ws msg = Ok (st', acts) →
  map_Forall (λ _ p, anims_clamped (p_state p)) (peers st) →
  map_Forall (λ _ p, anims_clamped (p_state p)) (peers st').
Proof.
  unfold Relay.on_message. destruct (peers st !! ws) as [peer|] eqn:Hws;
    [|by intros [= <- _]].
  case_match; [by intros [= <- _]|].
  destruct (type_is msg "JOIN").
  { unfold Relay.on_JOIN.
    destruct (normalizeRoom (get msg "room")) as [room|]; simpl; [|done].
    intros [= <- _] Hall. simpl. apply map_Forall_insert_2; [|done].
    simpl. by apply (Hall ws peer). }
  destruct (type_is msg "CHAT").
  { unfold on_CHAT. destruct (ToString _); simpl; [|done]. by intros [= <- _]. }
  destruct (type_is msg "BLOCK").
  { unfold Relay.on_BLOCK.
    destruct (Number (get msg "x")) as [x|]; simpl; [|done].
    destruct (Number (get msg "y")) as [y|]; simpl; [|done].
    destruct (Number (get msg "z")) as [z|]; simpl; [|done].
    destruct (Number (get msg "id")) as [id|]; simpl; [|done].
    destruct x; try (by intros [= <- _]).
    destruct y; try (by intros [= <- _]).
    destruct z; try (by intros [= <- _]).
    destruct id; by intros [= <- _]. }
  destruct (type_is msg "PLAYER_STATE"); [|by intros [= <- _]].
  unfold Relay.on_PLAYER_STATE.
  destruct (Number (get msg "x")) as [x|]; simpl; [|done].
  destruct (Number (get msg "y")) as [y|]; simpl; [|done].
  destruct (Number (get msg "z")) as [z|]; simpl; [|done].
  destruct (Number (get msg "yaw")) as [yaw|]; simpl; [|done].
  destruct (Number (get msg "pitch")) as [pitch|]; simpl; [|done].
  destruct (Number (get msg "punchAnim")) as [pa|]; simpl; [|done].
  destruct (Number (get msg "placeAnim")) as [pl|]; simpl; [|done].
  destruct (Number (get msg "heldBlock")) as [h|]; simpl; [|done].
  destruct x; try (by intros [= <- _]).
  destruct y; try (by intros [= <- _]).
  destruct z; try (by intros [= <- _]).
  destruct yaw; try (by intros [= <- _]).
  destruct pitch; try (by intros [= <- _]).
  intros [= <- _] Hall. simpl. apply map_Forall_insert_2; [|done].
  split; simpl; apply clamp01_range.
Qed.

(** A property that the relay's start-up state has and that every event
    the process handles keeps holds in every state of the process. *)
Lemma relay_run_invariant (P : Server → Prop) (evs : list event) :
  P (init ∅) →
  (∀ st st' ev out, Relay.step StringToNumber st ev = Ok (st', out) → P st → P st') →
  P (Relay.run StringToNumber evs).
Proof.
  intros Hinit Hstep. unfold Relay.run. generalize (init ∅) Hinit.
  induction evs as [|ev evs IH]; intros st HP; [done|].
  simpl. destruct (Relay.step StringToNumber st ev) as [[st' out]|] eqn:Hs;
    [|done].
  eapply IH, Hstep; done.
Qed.

Lemma relay_step_states (st st' : Server) (ev : event)
    (out : list (socket * payload)) :
  Relay.step StringToNumber st ev = Ok (st', out) →
  map_Forall (λ _ p, anims_clamped (p_state p)) (peers st) →
  map_Forall (λ _ p, anims_clamped (p_state p)) (peers st').
Proof.
  intros Hs Hall. destruct ev as [ws|ws [msg|]|ws|ws]; simpl in Hs.
  - destruct (peers st !! ws); injection Hs as <- <-; [done|]. simpl.
    apply map_Forall_insert_2; [|done]. split; simpl; lia.
  - destruct (Relay.on_message StringToNumber st ws msg) as [[st1 acts]|] eqn:Hm;
      [|done].
    injection Hs as <- <-. by eapply relay_on_message_states.
  - by injection Hs as <- <-.
  - by injection Hs as <- <-.
  - revert Hs. unfold on_close. simpl.
    destruct (peers st !! ws); simpl; intros [= <- <-]; [|done].
    by apply map_Forall_delete.
Qed.

(** X25. In every state the relay reaches, each peer's stored punchAnim and
    placeAnim lie between 0 and 1, whatever the PLAYER_STATE messages
    carried. *)
Theorem relay_animations_clamped (evs : list event) (ws : socket) (p : Peer) :
  peers (Relay.run StringToNumber evs) !! ws = Some p →
  0 ≤ st_punchAnim (p_state p) ≤ 1 ∧ 0 ≤ st_placeAnim (p_state p) ≤ 1.
Proof.
  revert ws p.
  change (map_Forall (λ _ p, anims_clamped (p_state p))
            (peers (Relay.run StringToNumber evs))).
  apply (relay_run_invariant
           (λ st, map_Forall (λ _ p, anims_clamped (p_state p)) (peers st)));
    [apply map_Forall_empty|].
  intros st st' ev out. apply relay_step_states.
Qed.

Lemma relay_on_JOIN_state (st st' : Server) (ws : socket) (peer : Peer)
    (msg : value) (acts : list action) :
  Relay.on_JOIN st ws peer msg = Ok (st', acts) →
  ∃ acts', on_JOIN st ws peer msg = Ok (st', acts').
Proof.
  unfold Relay.on_JOIN, on_JOIN.
  destruct (normalizeRoom (get msg "room")) as [room|]; simpl; [|done].
  intros [= <- _]. by eexists.
Qed.

Lemma relay_on_message_inv (st st' : Server) (ws : socket) (msg : value)
    (acts : list action) :
  Relay.on_message StringToNumber st ws msg = Ok (st', acts) →
  server_inv st → server_inv st'.
Proof.
  unfold Relay.on_message. destruct (peers st !! ws) as [peer|] eqn:Hws;
    [|by intros [= <- _]].
  case_match; [by intros [= <- _]|].
  destruct (type_is msg "JOIN").
  { intros [acts' Hj]%relay_on_JOIN_state.
    by apply (on_JOIN_inv StringToNumber _ _ _ _ _ _ Hws Hj). }
  destruct (type_is msg "CHAT").
  { unfold on_CHAT. destruct (ToString _); simpl; [|done]. by intros [= <- _]. }
  destruct (type_is msg "BLOCK").
  { unfold Relay.on_BLOCK.
    destruct (Number (get msg "x")) as [x|]; simpl; [|done].
    destruct (Number (get msg "y")) as [y|]; simpl; [|done].
    destruct (Number (get msg "z")) as [z|]; simpl; [|done].
    destruct (Number (get msg "id")) as [id|]; simpl; [|done].
    destruct x; try (by intros [= <- _]).
    destruct y; try (by intros [= <- _]).
    destruct z; try (by intros [= <- _]).
    destruct id; by intros [= <- _]. }
  destruct (type_is msg "PLAYER_STATE"); [|by intros [= <- _]].
  unfold Relay.on_PLAYER_STATE.
  destruct (Number (get msg "x")) as [x|]; simpl; [|done].
  destruct (Number (get msg "y")) as [y|]; simpl; [|done].
  destruct (Number (get msg "z")) as [z|]; simpl; [|done].
  destruct (Number (get msg "yaw")) as [yaw|]; simpl; [|done].
  destruct (Number (get msg "pitch")) as [pitch|]; simpl; [|done].
  destruct (Number (get msg "punchAnim")) as [pa|]; simpl; [|done].
  destruct (Number (get msg "placeAnim")) as [pl|]; simpl; [|done].
  destruct (Number (get msg "heldBlock")) as [h|]; simpl; [|done].
  destruct x; try (by intros [= <- _]).
  destruct y; try (by intros [= <- _]).
  destruct z; try (by intros [= <- _]).
  destruct yaw; try (by intros [= <- _]).
  destruct pitch; try (by intros [= <- _]).
  intros [= <- _]. apply server_inv_frame; [done|].
  intros ws'. rewrite peer_room_insert. unfold peer_room.
  case_decide; [|done]. subst ws'. by rewrite Hws.
Qed.

Lemma relay_step_inv (st st' : Server) (ev : event)
    (out : list (socket * payload)) :
  Relay.step StringToNumber st ev = Ok (st', out) →
  server_inv st → server_inv st'.
Proof.
  intros Hs Hinv. destruct ev as [ws|ws [msg|]|ws|ws]; simpl in Hs.
  - destruct (peers st !! ws) eqn:Hws; injection Hs as <- <-; [done|].
    destruct Hinv as [Hok Hm]. split; simpl.
    + by apply rooms_ok_addToRoom.
    + intros ws' r. rewrite members_addToRoom, Hm. unfold peer_room. simpl.
      rewrite lookup_insert. case_decide as Hd; simpl.
      * subst ws'. rewrite Hws. simpl. naive_solver.
      * naive_solver.
  - destruct (Relay.on_message StringToNumber st ws msg) as [[st1 acts]|] eqn:Hm;
      [|done].
    injection Hs as <- <-. by eapply relay_on_message_inv.
  - by injection Hs as <- <-.
  - by injection Hs as <- <-.
  - pose proof (on_close_inv StringToNumber (set_readyState st ws 3) ws Hinv) as Hc.
    destruct (on_close _ ws). by injection Hs as <- <-.
Qed.

(** X26. Rooms of the relay. In every state the relay reaches, no empty
    membership set is kept, a room key is present exactly when the room has
    a member, and the members of a room are exactly the sockets whose peer
    record names it. *)
Theorem relay_room_present_iff_members (evs : list event) :
  let st := Relay.run StringToNumber evs in
  (∀ r s, rooms st !! r = Some s → s ≠ ∅) ∧
  (∀ r, is_Some (rooms st !! r) ↔ ∃ ws, ws ∈ members (rooms st) r) ∧
  (∀ ws r, ws ∈ members (rooms st) r ↔
           ∃ p, peers st !! ws = Some p ∧ p_room p = r).
Proof.
  intros st.
  assert (server_inv st) as [Hok Hm].
  { unfold st. apply (relay_run_invariant server_inv);
      [|intros st0 st' ev out; apply relay_step_inv].
    split.
    - intros r s. simpl. by rewrite lookup_empty.
    - intros ws r. unfold members, peer_room. simpl.
      rewrite !lookup_empty. simpl.
      split; [by intros ?%elem_of_empty | done]. }
  split; [done|]. split.
  - intros r. by apply rooms_ok_members.
  - intros ws r. rewrite Hm. unfold peer_room. split.
    + destruct (peers st !! ws) as [p|]; [|done]. intros [= <-]. by exists p.
    + intros (p & -> & <-). done.
Qed.

End RelayFacts.

(** ** Persistence: one timer, no stale file without a timer, restart *)

Lemma persist_step_timer_inv (p : Persist.Process) (ev : Persist.event) :
  timer_inv p → timer_inv (Persist.step p ev).
Proof.
  unfold timer_inv. intros Hp.
  destruct ev as [room x y z id|t o|o|o]; simpl.
  - unfold Persist.clearPersistTimer. simpl.
    destruct (Persist.persistTimer p); rewrite Hp; set_solver.
  - case_decide as Ht; [|done].
    destruct (Persist.persistTimer p) as [t0|]; rewrite Hp in Ht;
      [|set_solver].
    destruct o; simpl; rewrite Hp; set_solver.
  - unfold Persist.on_close, Persist.clearPersistTimer.
    destruct o, (Persist.persistTimer p); simpl; rewrite Hp; set_solver.
  - by destruct o.
Qed.

Section PersistFacts.

Variable StringToNumber : string → number.

Local Abbreviation boot := (Persist.boot StringToNumber).

Local Abbreviation run := (Persist.run StringToNumber).

Lemma persist_run_snoc (f : Persist.file) (evs : list Persist.event)
    (ev : Persist.event) :
  run f (evs ++ [ev]) = Persist.step (run f evs) ev.
Proof. unfold Persist.run. by rewrite foldl_app. Qed.

Lemma boot_store_inv (f : Persist.file) :
  store_inv (Persist.roomChunks (boot f)).
Proof.
  unfold Persist.boot, Persist.loadPersistedWorld. simpl.
  destruct f as [| |raw]; simpl; try apply store_inv_empty.
  pose proof (hydrateWorldState_store_inv StringToNumber ∅ raw) as H.
  by destruct (hydrateWorldState StringToNumber ∅ raw) as [w' []].
Qed.

Lemma boot_timer_inv (f : Persist.file) : timer_inv (boot f).
Proof.
  unfold Persist.boot, Persist.loadPersistedWorld, timer_inv. simpl.
  destruct f as [| |raw]; simpl; try done.
  by destruct (hydrateWorldState StringToNumber ∅ raw) as [w []].
Qed.

Lemma boot_file (f : Persist.file) :
  Persist.WORLD_FILE (boot f) = f ∧ Persist.persistTimer (boot f) = None.
Proof.
  unfold Persist.boot, Persist.loadPersistedWorld. simpl.
  destruct f as [| |raw]; simpl; try done.
  by destruct (hydrateWorldState StringToNumber ∅ raw) as [w []].
Qed.

Lemma persist_run_store_inv (f : Persist.file) (evs : list Persist.event) :
  store_inv (Persist.roomChunks (run f evs)).
Proof.
  induction evs as [|ev evs IH] using rev_ind; [apply boot_store_inv|].
  rewrite persist_run_snoc.
  destruct ev as [room x y z id|t o|o|o]; simpl.
  - by apply setRoomBlock_store_inv.
  - case_decide; [|done]. by destruct o.
  - by destruct o.
  - by destruct o.
Qed.

(** When no timer is pending, store and file are as the start left them, or
    the file holds the document of the store. *)
Lemma persist_run_saved (f : Persist.file) (evs : list Persist.event) :
  all_written evs →
  saved (run f evs) ∨
  (Persist.persistTimer (run f evs) = None →
   Persist.roomChunks (run f evs) = Persist.roomChunks (boot f) ∧
   Persist.WORLD_FILE (run f evs) = f).
Proof.
  induction evs as [|ev evs IH] using rev_ind; intros Hall.
  { right. intros _. split; [done | apply boot_file]. }
  apply Forall_app in Hall as [Hall Hev]. apply Forall_inv in Hev.
  specialize (IH Hall). rewrite persist_run_snoc. unfold saved in *.
  destruct ev as [room x y z id|t o|o|o]; simpl in *; subst.
  - right. done.
  - case_decide as Ht; [by left | done].
  - by left.
  - by left.
Qed.

(** X27. Debounce. At any time at most one persist timer is armed, and it is
    the one whose handle [persistTimer] holds: scheduling clears the timer
    armed before, and the callback and the server's close leave none. *)
Theorem persist_single_timer (f : Persist.file) (evs : list Persist.event) :
  Persist.timers (run f evs)
  = match Persist.persistTimer (run f evs) with
    | Some t => {[t]}
    | None => ∅
    end.
Proof.
  change (timer_inv (run f evs)).
  induction evs as [|ev evs IH] using rev_ind; [apply boot_timer_inv|].
  rewrite persist_run_snoc. by apply persist_step_timer_inv.
Qed.

(** X28. No stale file without a timer. In a run in which no write raised,
    whenever no persist timer is pending, either store and file are as the
    start left them, or the world file holds the document of the current
    store. *)
Theorem persist_no_stale_file_without_timer (f : Persist.file)
    (evs : list Persist.event) :
  all_written evs → Persist.persistTimer (run f evs) = None →
  Persist.WORLD_FILE (run f evs)
  = Persist.Holds (serializeWorldState (Persist.roomChunks (run f evs))) ∨
  (Persist.roomChunks (run f evs) = Persist.roomChunks (boot f) ∧
   Persist.WORLD_FILE (run f evs) = f).
Proof.
  intros Hall Hnone. destruct (persist_run_saved f evs Hall) as [Hs|Hu];
    [by left | right; by apply Hu].
Qed.

(** X29. Restart. After a run in which no write raised, when no persist
    timer is pending and no room and no chunk of the store is keyed
    [__proto__], a process started on the world file as the run left it
    loads exactly the store of the run. *)
Theorem restart_restores_world (f : Persist.file) (evs : list Persist.event) :
  all_written evs → Persist.persistTimer (run f evs) = None →
  no_proto_key (Persist.roomChunks (run f evs)) →
  Persist.roomChunks (boot (Persist.WORLD_FILE (run f evs)))
  = Persist.roomChunks (run f evs).
Proof.
  intros Hall Hnone Hp. destruct (persist_run_saved f evs Hall) as [Hs|Hu].
  - unfold saved in Hs. rewrite Hs.
    unfold Persist.boot, Persist.loadPersistedWorld. simpl.
    rewrite hydrate_serialize; [done | apply persist_run_store_inv | done].
  - destruct (Hu Hnone) as [-> ->]. done.
Qed.

End PersistFacts.

(** ** Closed instances of the dispatcher, relay and persistence facts *)

Lemma peer_fields_bounded_witness :
  let p := mkPeer "p1" "Bartholomew Fitzgerald-M" EmptyString
                  "ABCDEFGHIJKLMNOPQRSTUVWXYZ012345" (initial_state 2) in
  peers (run decimalToNumber ∅ [Connection 1; Message 1 (Some long_join_msg)])
    !! 1%nat = Some p ∧
  (String.length (p_name p) ≤ 24)%nat ∧
  (N.of_nat (String.length (p_skin p)) ≤ 200000)%N ∧
  p_room p ≠ EmptyString ∧ (String.length (p_room p) ≤ 32)%nat.
Proof.
  split; [vm_compute; reflexivity|].
  apply (peer_fields_bounded decimalToNumber ∅
           [Connection 1; Message 1 (Some long_join_msg)] 1).
  vm_compute; reflexivity.
Defined.

Lemma block_then_chunk_request_witness :
  let st := run decimalToNumber (run_calls [mkCall "GLOBAL" 4 2 3 6])
              [Connection 1; Connection 2] in
  ∃ st1 out blocks,
    step decimalToNumber st (Message 1 (Some (block_msg 5))) = Ok (st1, out) ∧
    step decimalToNumber st1 (Message 2 (Some chunk_request_msg))
    = Ok (st1, [(2%nat, CHUNK_DATA (1 `div` 16) (3 `div` 16) blocks)]) ∧
    ∀ b, b ∈ blocks ↔
      (0 < 5 ∧ b = mkBlock 1 2 3 5) ∨
      (b ∈ getChunkBlocks (roomChunks st) "GLOBAL" (1 `div` 16) (3 `div` 16) ∧
       (bx b, by_ b, bz b) ≠ (1, 2, 3)).
Proof.
  apply (block_then_chunk_request decimalToNumber
           (run_calls [mkCall "GLOBAL" 4 2 3 6])
           [Connection 1; Connection 2] 1 2 (first_peer 2)
           (mkPeer "p2" "Player" EmptyString "GLOBAL" (initial_state 2))
           (block_msg 5) chunk_request_msg 1 2 3 5).
  1: apply run_calls_store_inv.
  all: try exact I.
  all: vm_compute; reflexivity.
Defined.

Lemma sender_gets_no_relayed_payload_witness :
  let st := run decimalToNumber ∅ [Connection 1] in
  step decimalToNumber st (Message 1 (Some chat_msg))
  = Ok (st, [(1%nat, CHAT "Player" "hi")]) ∧
  relayed (CHAT "Player" "hi") = false.
Proof.
  split; [vm_compute; reflexivity|].
  apply (sender_gets_no_relayed_payload decimalToNumber
           (run decimalToNumber ∅ [Connection 1])
           (run decimalToNumber ∅ [Connection 1]) 1 chat_msg
           [(1%nat, CHAT "Player" "hi")]).
  - vm_compute; reflexivity.
  - by left.
Defined.

Lemma chat_reaches_room_and_sender_witness :
  let st := run decimalToNumber ∅ [Connection 1; Connection 2] in
  let text := slice0 280 "hi" in
  ∃ out,
    step decimalToNumber st (Message 1 (Some chat_msg)) = Ok (st, out) ∧
    (∀ c q, (c, q) ∈ out ↔
            q = CHAT "Player" text ∧ peer_room st c = Some "GLOBAL" ∧
            readyState st c = 1) ∧
    (readyState st 1 = 1 → (1%nat, CHAT "Player" text) ∈ out) ∧
    (String.length text ≤ 280)%nat ∧
    (truthy (get chat_msg "text") = false → text = EmptyString).
Proof.
  apply (chat_reaches_room_and_sender decimalToNumber ∅
           [Connection 1; Connection 2] 1 (first_peer 2) chat_msg "hi");
    try (vm_compute; reflexivity); exact I.
Defined.

Lemma join_snapshot_lists_room_witness :
  let st := run decimalToNumber ∅
              [Connection 1; Connection 2;
               Message 1 (Some (join_msg (VString "abc ")))] in
  let peer := mkPeer "p2" "Player" EmptyString "GLOBAL" (initial_state 2) in
  ∃ st' snap,
    on_message decimalToNumber st 2 (join_msg (VString "ABC"))
    = Ok (st', [Send 2 (SYSTEM ("Joined room " +:+ "ABC"));
                Send 2 (ROOM_SNAPSHOT snap); Send 2 (SELF "p2");
                Broadcast "ABC" (PLAYER_JOIN "p2" "Ann" EmptyString) (Some 2%nat);
                Broadcast "ABC" (SYSTEM ("Ann" +:+ " joined.")) (Some 2%nat)]) ∧
    peers st' !! 2%nat = Some (mkPeer "p2" "Ann" EmptyString "ABC" (initial_state 2)) ∧
    (∀ s, s ∈ snap ↔
       ∃ c p, c ≠ 2%nat ∧ peers st !! c = Some p ∧ p_room p = "ABC" ∧
         s = mkSummary (p_id p) (p_name p) (p_skin p)
               (mkState (st_x (p_state p)) (st_y (p_state p)) (st_z (p_state p))
                  (st_yaw (p_state p)) (st_pitch (p_state p))
                  (st_moving (p_state p)) (st_crouching (p_state p))
                  (st_punchAnim (p_state p)) (st_placeAnim (p_state p))
                  (if bool_decide (st_heldBlock (p_state p) = 0) then 2
                   else st_heldBlock (p_state p)))) ∧
    NoDup (s_id <$> snap).
Proof.
  apply (join_snapshot_lists_room decimalToNumber ∅
           [Connection 1; Connection 2;
            Message 1 (Some (join_msg (VString "abc ")))]
           2 (mkPeer "p2" "Player" EmptyString "GLOBAL" (initial_state 2))
           (join_msg (VString "ABC")) "ABC");
    try (vm_compute; reflexivity); exact I.
Defined.

Lemma close_unregisters_witness :
  let st := run decimalToNumber ∅ [Connection 1; Connection 2] in
  ∃ st' out,
    step decimalToNumber st (Close 1) = Ok (st', out) ∧
    peers st' = delete 1%nat (peers st) ∧
    (∀ c r, c ∈ members (rooms st') r ↔ c ≠ 1%nat ∧ c ∈ members (rooms st) r) ∧
    (∀ c q, (c, q) ∈ out ↔
       (q = PLAYER_LEAVE "p1" ∨ q = SYSTEM ("Player" +:+ " left.")) ∧
       c ≠ 1%nat ∧ peer_room st c = Some "GLOBAL" ∧ readyState st c = 1) ∧
    roomChunks st' = roomChunks st ∧ nextPeerId st' = nextPeerId st ∧
    (∀ data, step decimalToNumber st' (Message 1 data) = Ok (st', [])).
Proof.
  apply (close_unregisters decimalToNumber ∅ [Connection 1; Connection 2] 1
           (first_peer 2)).
  vm_compute; reflexivity.
Defined.

Lemma not_finite_message_dropped_witness :
  let st := run decimalToNumber ∅ [Connection 1; Connection 2] in
  ToNumber decimalToNumber (get bad_block_msg "id") = Ok NaN ∧
  step decimalToNumber st (Message 1 (Some bad_block_msg)) = Ok (st, []).
Proof.
  split; [vm_compute; reflexivity|].
  apply (not_finite_message_dropped decimalToNumber
           (run decimalToNumber ∅ [Connection 1; Connection 2]) 1
           bad_block_msg "id").
  - left. split; [reflexivity|]. split; [by repeat constructor|].
    intros g Hg. repeat (apply elem_of_cons in Hg as [->|Hg]);
      [..|by apply elem_of_nil in Hg]; by eexists.
  - intros n. vm_compute. discriminate.
Defined.

(** A JOIN of the first of two connected peers. *)
Lemma message_changes_only_sender_witness :
  let st := run decimalToNumber ∅ [Connection 1; Connection 2] in
  let st' := run decimalToNumber ∅
               [Connection 1; Connection 2;
                Message 1 (Some (join_msg (VString "abc ")))] in
  peers st' !! 1%nat = Some (mkPeer "p1" "Ann" EmptyString "ABC" (initial_state 2)) ∧
  (∀ c, c ≠ 1%nat → peers st' !! c = peers st !! c) ∧
  dom (peers st') = dom (peers st) ∧
  nextPeerId st' = nextPeerId st ∧ readyState st' = readyState st ∧
  (∀ p, peers st !! 1%nat = Some p →
     ∃ p', peers st' !! 1%nat = Some p' ∧ p_id p' = p_id p).
Proof.
  split; [vm_compute; reflexivity|].
  apply (message_changes_only_sender decimalToNumber
           (run decimalToNumber ∅ [Connection 1; Connection 2])
           (run decimalToNumber ∅
              [Connection 1; Connection 2;
               Message 1 (Some (join_msg (VString "abc ")))])
           1 (Some (join_msg (VString "abc ")))
           [(1%nat, SYSTEM "Joined room ABC"); (1%nat, ROOM_SNAPSHOT []);
            (1%nat, SELF "p1")]).
  vm_compute; reflexivity.
Defined.

(** A block placed in the room ABC: the store of ABC changes as
    setRoomBlock says, and the store of GLOBAL does not change. *)
Lemma world_changes_only_by_room_BLOCK_witness :
  let st := run decimalToNumber ∅
              [Connection 1; Message 1 (Some (join_msg (VString "abc ")))] in
  let st' := run decimalToNumber ∅
               [Connection 1; Message 1 (Some (join_msg (VString "abc ")));
                Message 1 (Some (block_msg 5))] in
  let ev := Message 1 (Some (block_msg 5)) in
  roomChunks st' = setRoomBlock (roomChunks st) "ABC" 1 2 3 5 ∧
  (roomChunks st' !! "GLOBAL" = roomChunks st !! "GLOBAL" ∨
   ∃ ws msg peer x y z id,
     ev = Message ws (Some msg) ∧ peers st !! ws = Some peer ∧
     p_room peer = "GLOBAL" ∧ type_is msg "BLOCK" = true ∧
     ToNumber decimalToNumber (get msg "x") = Ok (Finite x) ∧
     ToNumber decimalToNumber (get msg "y") = Ok (Finite y) ∧
     ToNumber decimalToNumber (get msg "z") = Ok (Finite z) ∧
     ToNumber decimalToNumber (get msg "id") = Ok (Finite id) ∧
     roomChunks st' = setRoomBlock (roomChunks st) "GLOBAL" x y z id).
Proof.
  split; [vm_compute; reflexivity|].
  apply (world_changes_only_by_room_BLOCK decimalToNumber
           (run decimalToNumber ∅
              [Connection 1; Message 1 (Some (join_msg (VString "abc ")))])
           (run decimalToNumber ∅
              [Connection 1; Message 1 (Some (join_msg (VString "abc ")));
               Message 1 (Some (block_msg 5))])
           (Message 1 (Some (block_msg 5))) [] "GLOBAL").
  vm_compute; reflexivity.
Defined.

Lemma relay_animations_clamped_witness :
  let p := mkPeer "p1" "Player" EmptyString "GLOBAL"
                  (mkState 1 2 3 0 0 false false 1 0 0) in
  peers (Relay.run decimalToNumber [Connection 1; Message 1 (Some anim_msg)])
    !! 1%nat = Some p ∧
  0 ≤ st_punchAnim (p_state p) ≤ 1 ∧ 0 ≤ st_placeAnim (p_state p) ≤ 1.
Proof.
  split; [vm_compute; reflexivity|].
  apply (relay_animations_clamped decimalToNumber
           [Connection 1; Message 1 (Some anim_msg)] 1).
  vm_compute; reflexivity.
Defined.

Lemma persist_no_stale_file_without_timer_witness :
  let p := Persist.run decimalToNumber Persist.Missing
             [Persist.SetBlock "ABC" 1 2 3 5; Persist.Timeout 0 Persist.Written] in
  Persist.WORLD_FILE p = Persist.Holds (serializeWorldState (Persist.roomChunks p)) ∨
  (Persist.roomChunks p
   = Persist.roomChunks (Persist.boot decimalToNumber Persist.Missing) ∧
   Persist.WORLD_FILE p = Persist.Missing).
Proof.
  apply (persist_no_stale_file_without_timer decimalToNumber Persist.Missing
           [Persist.SetBlock "ABC" 1 2 3 5; Persist.Timeout 0 Persist.Written]).
  - by repeat constructor.
  - vm_compute; reflexivity.
Defined.

Lemma restart_restores_world_witness :
  let p := Persist.run decimalToNumber Persist.Missing
             [Persist.SetBlock "ABC" 1 2 3 5; Persist.SetBlock "ABC" 20 2 3 7;
              Persist.Timeout 1 Persist.Written] in
  getChunkBlocks (Persist.roomChunks p) "ABC" 0 0 = [mkBlock 1 2 3 5] ∧
  getChunkBlocks (Persist.roomChunks p) "ABC" 1 0 = [mkBlock 20 2 3 7] ∧
  Persist.roomChunks (Persist.boot decimalToNumber (Persist.WORLD_FILE p))
  = Persist.roomChunks p.
Proof.
  split; [vm_compute; reflexivity|]. split; [vm_compute; reflexivity|].
  apply (restart_restores_world decimalToNumber Persist.Missing
           [Persist.SetBlock "ABC" 1 2 3 5; Persist.SetBlock "ABC" 20 2 3 7;
            Persist.Timeout 1 Persist.Written]).
  - by repeat constructor.
  - vm_compute; reflexivity.
  - apply (bool_decide_unpack _). vm_compute; reflexivity.
Defined.

(** ** The first relay *)

Section BasicFacts.

Variable StringToNumber : string → number.

Local Abbreviation Number := (ToNumber StringToNumber).

(** The outcomes of the message handler of the first relay. *)
Lemma basic_on_message_cases (st st' : Basic.Server) (ws : socket) (msg : value)
    (acts : list action) :
  Basic.on_message StringToNumber st ws msg = Ok (st', acts) →
  (st' = st ∧ acts = []) ∨
  ∃ peer, Basic.peers st !! ws = Some peer ∧
    ((∃ room,
        normalizeRoom (get msg "room") = Ok room ∧
        let name := string_or (get msg "name") 24 "Player" in
        st' = Basic.mkServer (<[ws := Basic.mkPeer name room]> (Basic.peers st))
                (if bool_decide (Basic.p_room peer ≠ room)
                 then addToRoom (removeFromRoom (Basic.rooms st) ws
                                   (Basic.p_room peer)) ws room
                 else Basic.rooms st)
                (Basic.readyState st) ∧
        acts = [Send ws (SYSTEM ("Joined room " +:+ room));
                Broadcast room (SYSTEM (name +:+ " joined.")) (Some ws)]) ∨
     (st' = st ∧
      ∃ p except, acts = [Broadcast (Basic.p_room peer) p except])).
Proof.
  unfold Basic.on_message. destruct (Basic.peers st !! ws) as [peer|] eqn:Hws;
    [|intros [= <- <-]; by left].
  case_match; [intros [= <- <-]; by left|].
  destruct (type_is msg "JOIN").
  { unfold Basic.on_JOIN.
    destruct (normalizeRoom (get msg "room")) as [room|]; simpl; [|done].
    intros [= <- <-]. right. exists peer. split; [done|]. left. by exists room. }
  destruct (type_is msg "CHAT").
  { unfold Basic.on_CHAT. destruct (ToString _) as [s|]; simpl; [|done].
    intros [= <- <-]. right. exists peer. split; [done|]. right.
    split; [done|]. by eexists _, _. }
  destruct (type_is msg "BLOCK"); [|intros [= <- <-]; by left].
  unfold Basic.on_BLOCK.
  destruct (Number (get msg "x")) as [x|]; simpl; [|done].
  destruct (Number (get msg "y")) as [y|]; simpl; [|done].
  destruct (Number (get msg "z")) as [z|]; simpl; [|done].
  destruct (Number (get msg "id")) as [id|]; simpl; [|done].
  destruct x as [| | |x]; try (intros [= <- <-]; by left).
  destruct y as [| | |y]; try (intros [= <- <-]; by left).
  destruct z as [| | |z]; try (intros [= <- <-]; by left).
  destruct id as [| | |id]; try (intros [= <- <-]; by left).
  intros [= <- <-]. right. exists peer. split; [done|]. right.
  split; [done|]. by eexists _, _.
Qed.

Lemma basic_step_inv (st st' : Basic.Server) (ev : event)
    (out : list (socket * payload)) :
  Basic.step StringToNumber st ev = Ok (st', out) →
  basic_inv st → basic_inv st'.
Proof.
  intros Hs [Hok Hm]. destruct ev as [ws|ws [msg|]|ws|ws]; simpl in Hs.
  3,4: by injection Hs as <- <-.
  - destruct (Basic.peers st !! ws) eqn:Hws; injection Hs as <- <-; [done|].
    split; simpl.
    + by apply rooms_ok_addToRoom.
    + intros ws' r. rewrite members_addToRoom, Hm, lookup_insert.
      case_decide as Hd; simpl.
      * subst ws'. rewrite Hws. simpl. naive_solver.
      * naive_solver.
  - destruct (Basic.on_message StringToNumber st ws msg) as [[st1 acts]|] eqn:Hmsg;
      [|done].
    injection Hs as <- <-. apply basic_on_message_cases in Hmsg
      as [[-> _]|(peer & Hws & [(room & _ & -> & _)|[-> _]])]; [done| |done].
    assert (ws ∈ members (Basic.rooms st) (Basic.p_room peer)) as Hold
      by (apply Hm; by rewrite Hws).
    split; simpl.
    + case_bool_decide; [|done].
      by apply rooms_ok_addToRoom, rooms_ok_removeFromRoom.
    + intros ws' r. rewrite lookup_insert. case_bool_decide as Hroom.
      * rewrite members_addToRoom, members_removeFromRoom, Hm.
        case_decide as Hd; simpl.
        -- subst ws'. rewrite Hws. simpl. naive_solver.
        -- naive_solver.
      * assert (Basic.p_room peer = room) as <-
          by (destruct (decide (Basic.p_room peer = room)); [done | by destruct Hroom]).
        rewrite Hm. case_decide as Hd; simpl; [|done].
        subst ws'. by rewrite Hws.
  - revert Hs. unfold Basic.on_close. simpl.
    destruct (Basic.peers st !! ws) as [peer|] eqn:Hws; intros [= <- <-]; [|done].
    split; simpl.
    + by apply rooms_ok_removeFromRoom.
    + intros ws' r. rewrite members_removeFromRoom, Hm, lookup_delete.
      case_decide as Hd; simpl.
      * subst ws'. rewrite Hws. simpl. naive_solver.
      * naive_solver.
Qed.

Lemma basic_run_inv (evs : list event) : basic_inv (Basic.run StringToNumber evs).
Proof.
  unfold Basic.run.
  assert (basic_inv Basic.init) as Hinit.
  { split.
    - intros r s. simpl. by rewrite lookup_empty.
    - intros ws r. unfold members. simpl. rewrite !lookup_empty. simpl.
      split; [by intros ?%elem_of_empty | done]. }
  revert Hinit. generalize Basic.init.
  induction evs as [|ev evs IH]; intros st Hinv; [done|].
  simpl. destruct (Basic.step StringToNumber st ev) as [[st' out]|] eqn:Hs;
    [|done].
  by eapply IH, basic_step_inv.
Qed.

(** X30.  The first relay.  In every state the first relay reaches, no
    empty membership set is kept and the members of a room are exactly the
    sockets whose peer record names it; and whatever a message causes to
    be sent goes to the sender or to open connections of peers whose
    record, after the message, names the sender's room. *)
Theorem basic_relay_rooms_and_isolation (evs : list event) :
  let st := Basic.run StringToNumber evs in
  (∀ r s, Basic.rooms st !! r = Some s → s ≠ ∅) ∧
  (∀ ws r, ws ∈ members (Basic.rooms st) r ↔
           ∃ p, Basic.peers st !! ws = Some p ∧ Basic.p_room p = r) ∧
  (∀ ws msg st' out c p,
     Basic.step StringToNumber st (Message ws (Some msg)) = Ok (st', out) →
     (c, p) ∈ out →
     c = ws ∨
     (Basic.readyState st c = 1 ∧
      ∃ pc pw, Basic.peers st' !! c = Some pc ∧ Basic.peers st' !! ws = Some pw ∧
               Basic.p_room pc = Basic.p_room pw)).
Proof.
  intros st. pose proof (basic_run_inv evs) as Hinv. fold st in Hinv.
  split; [apply Hinv|]. split.
  - intros ws r. destruct Hinv as [_ Hm]. rewrite Hm. split.
    + destruct (Basic.peers st !! ws) as [p|]; [|done]. intros [= <-]. by exists p.
    + intros (p & -> & <-). done.
  - intros ws msg st' out c p Hs.
    pose proof (basic_step_inv st st' _ out Hs Hinv) as Hinv'.
    revert Hs Hinv'. simpl.
    destruct (Basic.on_message StringToNumber st ws msg) as [[st1 acts]|] eqn:Hmsg;
      [|done].
    intros [= -> <-] [_ Hm'] (act & Hin & Hact)%list_elem_of_bind.
    assert (∀ r q except, act = Broadcast r q except →
              Basic.readyState st' = Basic.readyState st →
              Basic.p_room <$> Basic.peers st' !! ws = Some r →
              Basic.readyState st c = 1 ∧
              ∃ pc pw, Basic.peers st' !! c = Some pc ∧
                       Basic.peers st' !! ws = Some pw ∧
                       Basic.p_room pc = Basic.p_room pw) as Hb.
    { intros r q except -> Hrs Hws'. simpl in Hin.
      apply elem_of_broadcastToRoom in Hin as (_ & Hc & _ & Hopen).
      rewrite Hrs in Hopen. split; [done|]. apply Hm' in Hc.
      destruct (Basic.peers st' !! c) as [pc|]; [|done].
      destruct (Basic.peers st' !! ws) as [pw|]; [|done].
      exists pc, pw. simpl in *. split; [done|]. split; [done|]. congruence. }
    apply basic_on_message_cases in Hmsg
      as [[-> ->]|(peer & Hws & [(room & _ & -> & ->)|[-> (q & except & ->)]])].
    + by apply elem_of_nil in Hact.
    + apply elem_of_cons in Hact as [->|Hact%list_elem_of_singleton].
      * left. simpl in Hin. apply list_elem_of_singleton in Hin. congruence.
      * right. eapply Hb; [done..|]. simpl. by rewrite lookup_insert_eq.
    + apply list_elem_of_singleton in Hact. right.
      eapply Hb; [done..|]. by rewrite Hws.
Qed.

End BasicFacts.
